(** * Campus Navigation System: the algorithm step-trace engines

    A shallow embedding of [backend/src/search.hpp] (binary search over the
    location names) and [backend/src/sort.hpp] (Lomuto quicksort over the
    distances from a reference location), together with the properties of
    the traces and responses they build, and of the request utilities of
    [backend/src/utils.hpp].

    Conventions of the embedding.
    - A C++ [int] is a [Z].  Signed arithmetic is written exactly; it stays in
      range wherever the engines use it (the index lemmas below show the
      bounds).  A conversion into [int] of a value of another type
      ([size_t], [double]) is written out: [to_int] for the modular
      conversion of an unsigned size, [double_to_int] for the truncation of a
      [double].
    - A [std::vector] is a [list]; [v[i]] is [vec_get], which has no value out
      of range (the access is undefined in C++ and surfaces here as the
      exception [UndefinedBehaviour]).
    - A member function of a visualizer is a computation in the monad [M]
      over the visualizer's fields; an exception keeps the state reached.
    - A [nlohmann::json] object is a finite map from keys to values.
    - [std::sort] is a parameter of the search, an implementation of the
      contract of the C++ standard; [gnu_std_sort] is the one of GNU
      libstdc++, transcribed from its headers.
    - A [std::string] is a [string]; a [size_t] is a [Z] whose arithmetic
      wraps around at 64 bits; a utility that can throw [std::out_of_range]
      returns an [option]. *)

From Stdlib Require Import ZArith String Ascii List Lia DecimalString.
From Stdlib Require Import Floats.PrimFloat Floats.FloatOps Floats.SpecFloat.
From stdpp Require Import base list gmap strings sorting.

#[local] Set Warnings "-register-all".
#[local] Open Scope Z_scope.

(** ** Machine integers *)

Definition INT_MAX : Z := 2 ^ 31 - 1.
Definition INT_MIN : Z := - 2 ^ 31.

(** Conversion of an unsigned size to [int]: reduction modulo [2^32] into
    the signed range. *)
Definition to_int (z : Z) : Z := (z + 2 ^ 31) mod 2 ^ 32 - 2 ^ 31.

(** [std::to_string] on an integer. *)
Definition to_string (z : Z) : string := NilZero.string_of_int (Z.to_int z).

(** [static_cast<int>] of a [double]: truncation toward zero; no value when
    the operand is not finite or the truncated value does not fit. *)
Definition double_to_int (f : float) : option Z :=
  match Prim2SF f with
  | S754_zero _ => Some 0
  | S754_finite s m e =>
      let magnitude :=
        if 0 <=? e then Z.pos m * 2 ^ e else Z.pos m / 2 ^ (- e) in
      let v := if s then - magnitude else magnitude in
      if (INT_MIN <=? v) && (v <=? INT_MAX) then Some v else None
  | _ => None
  end.

(** ** Vectors *)

Definition vec_get {A} (v : list A) (i : Z) : option A :=
  if 0 <=? i then v !! Z.to_nat i else None.

(** [std::swap(v[i], v[j])] *)
Definition vec_swap {A} (v : list A) (i j : Z) : option (list A) :=
  match vec_get v i, vec_get v j with
  | Some a, Some b => Some (<[Z.to_nat j := a]> (<[Z.to_nat i := b]> v))
  | _, _ => None
  end.

(** [v.size() - 1] converted to [int] *)
Definition last_index {A} (v : list A) : Z := to_int (Z.of_nat (length v) - 1).

(** ** Computations over a visualizer *)

Inductive exn := InvalidReference | UndefinedBehaviour | OutOfFuel.

Inductive outcome (S A : Type) :=
| Ok (a : A) (s : S)
| Throw (e : exn) (s : S).
Arguments Ok {S A} a s.
Arguments Throw {S A} e s.

Definition M (S A : Type) : Type := S -> outcome S A.

Definition ret {S A} (a : A) : M S A := fun s => Ok a s.
Definition throw {S A} (e : exn) : M S A := fun s => Throw e s.
Definition bind {S A B} (c : M S A) (k : A -> M S B) : M S B :=
  fun s => match c s with
           | Ok a s' => k a s'
           | Throw e s' => Throw e s'
           end.
Definition gets {S A} (f : S -> A) : M S A := fun s => Ok (f s) s.
Definition modify {S} (f : S -> S) : M S unit := fun s => Ok tt (f s).
Definition defined {S A} (o : option A) : M S A :=
  match o with
  | Some a => ret a
  | None => throw UndefinedBehaviour
  end.

Definition final_state {S A} (o : outcome S A) : S :=
  match o with Ok _ s => s | Throw _ s => s end.

Declare Scope vis_scope.
Delimit Scope vis_scope with vis.
Notation "x <- c ;; k" := (bind c (fun x => k))
  (at level 100, c at next level, right associativity) : vis_scope.
Notation "c ;; k" := (bind c (fun _ => k))
  (at level 100, right associativity) : vis_scope.
#[local] Open Scope vis_scope.

(** [for (int j = start; j < start + count; j++) acc = body(j, acc);] *)
Fixpoint for_range {S A} (count : nat) (j : Z) (body : Z -> A -> M S A) (acc : A)
  : M S A :=
  match count with
  | O => ret acc
  | S count' => acc' <- body j acc ;; for_range count' (j + 1) body acc'
  end.

(** ** JSON values *)

Inductive json :=
| JNull
| JBool (b : bool)
| JInt (z : Z)
| JDouble (f : float)
| JString (s : string)
| JArray (l : list json)
| JObject (m : gmap string json).

Definition json_get (key : string) (j : json) : option json :=
  match j with
  | JObject m => m !! key
  | _ => None
  end.

(** [j[key] = v]: on an object the key is set; null becomes an object with
    that one key.  (On a value of another kind nlohmann::json throws; the
    engines only ever index null and objects, and the model treats the
    other kinds as it treats null.) *)
Definition json_set (key : string) (v : json) (j : json) : json :=
  match j with
  | JObject m => JObject (<[key := v]> m)
  | _ => JObject {[key := v]}
  end.

(** ** The location graph *)

Record Node := mkNode {
  id : Z;
  name : string;
  type : string;
  x : float;
  y : float;
}.

(** Modelled from the spec: [graph.hpp] is not part of the sources; the
    graph collaborator holds the locations and exposes [getNodes()],
    [getNode(id)] and [size()].  Identifiers are positions in the location
    list, as the loop of [QuickSortVisualizer::sort] uses them. *)
Record Graph := mkGraph { nodes : list Node }.

(** Modelled from the spec: [Graph::getNodes], the stored locations. *)
Definition getNodes (g : Graph) : list Node := nodes g.

(** Modelled from the spec: [Graph::size], the number of locations, as an
    [int]. *)
Definition size (g : Graph) : Z := to_int (Z.of_nat (length (nodes g))).

(** Modelled from the spec: [Graph::getNode] fails with the InvalidReference
    condition when the identifier is unknown or out of range. *)
Definition getNode {S} (g : Graph) (i : Z) : M S Node :=
  match vec_get (nodes g) i with
  | Some n => ret n
  | None => throw InvalidReference
  end.

(** ** [std::sort]

    The engines call the standard library's [std::sort] with a comparator.
    The C++ standard fixes its result for a strict weak ordering up to the
    order of equivalent elements: the result is a rearrangement of the input
    in which no element is [comp]-smaller than one before it. *)

Record strict_weak_order {A} (comp : A -> A -> bool) : Prop := {
  swo_irrefl : forall a, comp a a = false;
  swo_trans : forall a b c, comp a b = true -> comp b c = true -> comp a c = true;
  swo_incomp : forall a b c,
    comp a b = false -> comp b a = false ->
    comp b c = false -> comp c b = false ->
    comp a c = false /\ comp c a = false;
}.

Definition sorted_wrt {A} (comp : A -> A -> bool) (l : list A) : Prop :=
  StronglySorted (fun a b => comp b a = false) l.

Class StdSort := {
  std_sort : forall {A}, (A -> A -> bool) -> list A -> list A;
  std_sort_perm : forall A (comp : A -> A -> bool) l, std_sort comp l ≡ₚ l;
  std_sort_sorted : forall A (comp : A -> A -> bool) l,
    strict_weak_order comp -> sorted_wrt comp (std_sort comp l);
}.

(** An implementation of the contract that keeps equivalent elements in
    their order: insertion from the right end, each element in front of the
    elements that are not smaller. *)
Fixpoint insert_before {A} (comp : A -> A -> bool) (a : A) (l : list A) : list A :=
  match l with
  | [] => [a]
  | b :: l' => if comp b a then b :: insert_before comp a l' else a :: l
  end.

Definition stable_insertion_sort {A} (comp : A -> A -> bool) (l : list A) : list A :=
  foldr (insert_before comp) [] l.

(** *** [std::sort] as GNU libstdc++ implements it

    The routines of [bits/stl_algo.h] and [bits/stl_heap.h] (GCC 12) behind
    [std::sort], over a vector and iterator positions.  An access outside
    the vector is undefined behaviour and has no result; so has a loop that
    runs out of [fuel], which the length of the vector always covers. *)

Definition vec_set {A} (v : list A) (i : Z) (a : A) : option (list A) :=
  if (0 <=? i) && (i <? Z.of_nat (length v)) then Some (<[Z.to_nat i := a]> v)
  else None.

(** The range [first, last) of a vector. *)
Definition vec_range {A} (v : list A) (first last : Z) : list A :=
  take (Z.to_nat (last - first)) (drop (Z.to_nat first) v).

(** [for (i = first; i != first + count; ++i) v = body(i, v)] *)
Fixpoint for_each_position {A} (count : nat) (first : Z)
    (body : Z -> list A -> option (list A)) (v : list A) : option (list A) :=
  match count with
  | O => Some v
  | S count' => v' ← body first v; for_each_position count' (first + 1) body v'
  end.

Section libstdcxx.
Context {A : Type} (comp : A -> A -> bool).

Definition S_threshold : Z := 16.

(** [__unguarded_linear_insert]: the loop, with [__val] and [__last];
    [__next] is [__last - 1]. *)
Fixpoint unguarded_linear_insert_loop (fuel : nat) (val : A) (last : Z) (v : list A)
    : option (list A) :=
  next ← vec_get v (last - 1);
  if comp val next then
    match fuel with
    | O => None
    | S fuel' =>
        v' ← vec_set v last next;
        unguarded_linear_insert_loop fuel' val (last - 1) v'
    end
  else vec_set v last val.

Definition unguarded_linear_insert (last : Z) (v : list A) : option (list A) :=
  val ← vec_get v last;
  unguarded_linear_insert_loop (length v) val last v.

(** [std::move_backward(first, last, d_last)] within one vector, for
    [d_last = last + 1]: the range moves up by one cell. *)
Definition move_backward_1 (first last : Z) (v : list A) : option (list A) :=
  if (0 <=? first) && (first <=? last) && (last <? Z.of_nat (length v)) then
    Some (take (Z.to_nat first + 1) v ++ vec_range v first last
            ++ drop (Z.to_nat last + 1) v)
  else None.

(** [__insertion_sort]: the body of the loop. *)
Definition insertion_sort_step (first : Z) (i : Z) (v : list A) : option (list A) :=
  x ← vec_get v i;
  f ← vec_get v first;
  if comp x f then
    let val := x in
    v' ← move_backward_1 first i v;
    vec_set v' first val
  else unguarded_linear_insert i v.

Definition insertion_sort (first last : Z) (v : list A) : option (list A) :=
  if first =? last then Some v
  else for_each_position (Z.to_nat (last - (first + 1))) (first + 1)
         (insertion_sort_step first) v.

Definition unguarded_insertion_sort (first last : Z) (v : list A) : option (list A) :=
  for_each_position (Z.to_nat (last - first)) first unguarded_linear_insert v.

Definition final_insertion_sort (first last : Z) (v : list A) : option (list A) :=
  if last - first >? S_threshold then
    v' ← insertion_sort first (first + S_threshold) v;
    unguarded_insertion_sort (first + S_threshold) last v'
  else insertion_sort first last v.

(** [__move_median_to_first] *)
Definition move_median_to_first (result a b c : Z) (v : list A) : option (list A) :=
  va ← vec_get v a;
  vb ← vec_get v b;
  vc ← vec_get v c;
  if comp va vb then
    if comp vb vc then vec_swap v result b
    else if comp va vc then vec_swap v result c
    else vec_swap v result a
  else if comp va vc then vec_swap v result a
  else if comp vb vc then vec_swap v result c
  else vec_swap v result b.

(** [while (__comp(__first, __pivot)) ++__first;] *)
Fixpoint scan_up (fuel : nat) (v : list A) (first pivot : Z) : option Z :=
  x ← vec_get v first;
  p ← vec_get v pivot;
  if comp x p then
    match fuel with
    | O => None
    | S fuel' => scan_up fuel' v (first + 1) pivot
    end
  else Some first.

(** [while (__comp(__pivot, __last)) --__last;] *)
Fixpoint scan_down (fuel : nat) (v : list A) (last pivot : Z) : option Z :=
  x ← vec_get v last;
  p ← vec_get v pivot;
  if comp p x then
    match fuel with
    | O => None
    | S fuel' => scan_down fuel' v (last - 1) pivot
    end
  else Some last.

(** [__unguarded_partition] *)
Fixpoint unguarded_partition (fuel : nat) (first last pivot : Z) (v : list A)
    : option (Z * list A) :=
  first ← scan_up (length v) v first pivot;
  let last := last - 1 in
  last ← scan_down (length v) v last pivot;
  if negb (first <? last) then Some (first, v)
  else
    match fuel with
    | O => None
    | S fuel' =>
        v' ← vec_swap v first last;
        unguarded_partition fuel' (first + 1) last pivot v'
    end.

Definition unguarded_partition_pivot (first last : Z) (v : list A)
    : option (Z * list A) :=
  let mid := first + Z.quot (last - first) 2 in
  v' ← move_median_to_first first (first + 1) mid (last - 1) v;
  unguarded_partition (length v) (first + 1) last first v'.

(** [__push_heap]: the loop, with [__holeIndex]. *)
Fixpoint push_heap_loop (fuel : nat) (first holeIndex topIndex : Z) (value : A)
    (v : list A) : option (list A) :=
  let parent := Z.quot (holeIndex - 1) 2 in
  continue ←
    (if topIndex <? holeIndex then p ← vec_get v (first + parent); Some (comp p value)
     else Some false);
  if continue : bool then
    match fuel with
    | O => None
    | S fuel' =>
        p ← vec_get v (first + parent);
        v' ← vec_set v (first + holeIndex) p;
        push_heap_loop fuel' first parent topIndex value v'
    end
  else vec_set v (first + holeIndex) value.

Definition push_heap (first holeIndex topIndex : Z) (value : A) (v : list A)
    : option (list A) :=
  push_heap_loop (length v) first holeIndex topIndex value v.

(** [__adjust_heap]: the first loop, with [__holeIndex] and
    [__secondChild]; it returns both with the vector. *)
Fixpoint adjust_heap_loop (fuel : nat) (first holeIndex secondChild len : Z)
    (v : list A) : option (Z * Z * list A) :=
  if secondChild <? Z.quot (len - 1) 2 then
    match fuel with
    | O => None
    | S fuel' =>
        let secondChild := 2 * (secondChild + 1) in
        right ← vec_get v (first + secondChild);
        left ← vec_get v (first + (secondChild - 1));
        let secondChild := if comp right left then secondChild - 1 else secondChild in
        child ← vec_get v (first + secondChild);
        v' ← vec_set v (first + holeIndex) child;
        adjust_heap_loop fuel' first secondChild secondChild len v'
    end
  else Some (holeIndex, secondChild, v).

Definition adjust_heap (first holeIndex len : Z) (value : A) (v : list A)
    : option (list A) :=
  let topIndex := holeIndex in
  '(holeIndex, secondChild, v) ← adjust_heap_loop (length v) first holeIndex holeIndex len v;
  '(holeIndex, v) ←
    (if (Z.land len 1 =? 0) && (secondChild =? Z.quot (len - 2) 2) then
       let secondChild := 2 * (secondChild + 1) in
       child ← vec_get v (first + (secondChild - 1));
       v' ← vec_set v (first + holeIndex) child;
       Some (secondChild - 1, v')
     else Some (holeIndex, v));
  push_heap first holeIndex topIndex value v.

(** [__pop_heap] *)
Definition pop_heap (first last result : Z) (v : list A) : option (list A) :=
  value ← vec_get v result;
  top ← vec_get v first;
  v' ← vec_set v result top;
  adjust_heap first 0 (last - first) value v'.

(** [__make_heap]: the loop, with [__parent]. *)
Fixpoint make_heap_loop (fuel : nat) (first len parent : Z) (v : list A)
    : option (list A) :=
  value ← vec_get v (first + parent);
  v' ← adjust_heap first parent len value v;
  if parent =? 0 then Some v'
  else
    match fuel with
    | O => None
    | S fuel' => make_heap_loop fuel' first len (parent - 1) v'
    end.

Definition make_heap (first last : Z) (v : list A) : option (list A) :=
  if last - first <? 2 then Some v
  else
    let len := last - first in
    make_heap_loop (length v) first len (Z.quot (len - 2) 2) v.

(** [__sort_heap] *)
Fixpoint sort_heap (fuel : nat) (first last : Z) (v : list A) : option (list A) :=
  if last - first >? 1 then
    match fuel with
    | O => None
    | S fuel' =>
        let last := last - 1 in
        v' ← pop_heap first last last v;
        sort_heap fuel' first last v'
    end
  else Some v.

(** [__heap_select] *)
Definition heap_select (first middle last : Z) (v : list A) : option (list A) :=
  v' ← make_heap first middle v;
  for_each_position (Z.to_nat (last - middle)) middle
    (fun i v =>
       x ← vec_get v i;
       top ← vec_get v first;
       if comp x top then pop_heap first middle i v else Some v)
    v'.

(** [__partial_sort] *)
Definition partial_sort (first middle last : Z) (v : list A) : option (list A) :=
  v' ← heap_select first middle last v;
  sort_heap (length v) first middle v'.

(** [__introsort_loop] *)
Fixpoint introsort_loop (fuel : nat) (first last depth_limit : Z) (v : list A)
    : option (list A) :=
  if last - first >? S_threshold then
    match fuel with
    | O => None
    | S fuel' =>
        if depth_limit =? 0 then partial_sort first last last v
        else
          let depth_limit := depth_limit - 1 in
          '(cut, v1) ← unguarded_partition_pivot first last v;
          v2 ← introsort_loop fuel' cut last depth_limit v1;
          introsort_loop fuel' first cut depth_limit v2
    end
  else Some v.

(** [__sort], over the whole vector; [std::__lg] is the binary logarithm,
    rounded down. *)
Definition gnu_sort (v : list A) : option (list A) :=
  let first := 0 in
  let last := Z.of_nat (length v) in
  if negb (first =? last) then
    v' ← introsort_loop (length v) first last (Z.log2 (last - first) * 2) v;
    final_insertion_sort first last v'
  else Some v.

End libstdcxx.

(** [std::sort(v.begin(), v.end(), comp)] of libstdc++: the vector after
    the call.  Where the call is undefined the vector is left as it is. *)
Definition libstdcxx_sort {A} (comp : A -> A -> bool) (v : list A) : list A :=
  match gnu_sort comp v with
  | Some v' => v'
  | None => v
  end.

(** ** search.hpp *)

Module SearchStep.

Record t := mk {
  stepNum : Z;
  action : string;
  explanation : string;
  left : Z;
  right : Z;
  mid : Z;
  compareNode : Z;
  found : bool;
}.

Definition toJSON (s : t) (g : Graph) : json :=
  let stepJson := JNull in
  let stepJson := json_set "step" (JInt (stepNum s)) stepJson in
  let stepJson := json_set "action" (JString (action s)) stepJson in
  let stepJson := json_set "explanation" (JString (explanation s)) stepJson in
  let stepJson := json_set "left" (JInt (left s)) stepJson in
  let stepJson := json_set "right" (JInt (right s)) stepJson in
  let stepJson := json_set "mid" (JInt (mid s)) stepJson in
  let stepJson := json_set "compareNode" (JInt (compareNode s)) stepJson in
  let stepJson := json_set "found" (JBool (found s)) stepJson in
  stepJson.

End SearchStep.

(** A brace-initialised object [{{k1, v1}, {k2, v2}, ...}]. *)
Definition json_object (fields : list (string * json)) : json :=
  JObject (list_to_map fields).

Definition node_result (n : Node) : json :=
  json_object [("id", JInt (id n)); ("name", JString (name n));
               ("type", JString (type n));
               ("x", JDouble (x n)); ("y", JDouble (y n))]%string.

Definition node_entry (n : Node) : json :=
  json_object [("id", JInt (id n)); ("name", JString (name n))]%string.

Module BinarySearchVisualizer.

Record t := mk {
  steps : list SearchStep.t;
  stepNum : Z;
}.

(** The constructor: [stepNum(0)], no step. *)
Definition new : t := mk [] 0.

Definition recordStep (action explanation : string)
    (left right mid compareNode : Z) (found : bool) : M t unit :=
  modify (fun v =>
    let currentStep :=
      SearchStep.mk (stepNum v) action explanation left right mid compareNode found in
    mk (steps v ++ [currentStep]) (stepNum v + 1)).

(** The [while (left <= right)] loop; it yields the final [left], [right]
    and [foundIndex].  [fuel] bounds the number of iterations. *)
Fixpoint search_loop (fuel : nat) (sortedNodes : list Node) (searchQuery : string)
    (left right : Z) : M t (Z * Z * Z) :=
  if left <=? right then
    match fuel with
    | O => throw OutOfFuel
    | S fuel' =>
        let mid := left + Z.quot (right - left) 2 in
        midNode <- defined (vec_get sortedNodes mid) ;;
        recordStep "Checking middle element"
          ("Range: [" +:+ to_string left +:+ ", " +:+ to_string right +:+
           "]. Midpoint: " +:+ to_string mid +:+ " (" +:+ name midNode +:+ ")")
          left right mid mid false ;;
        match String.compare searchQuery (name midNode) with
        | Eq =>
            recordStep "Found!"
              ("'" +:+ searchQuery +:+ "' matches '" +:+ name midNode +:+
               "' at index " +:+ to_string mid)
              left right mid mid true ;;
            ret (left, right, mid)
        | Lt =>
            recordStep "Search left half"
              ("'" +:+ searchQuery +:+ "' < '" +:+ name midNode +:+ "'. " +:+
               "Discard right half and search left.")
              left (mid - 1) mid mid false ;;
            search_loop fuel' sortedNodes searchQuery left (mid - 1)
        | Gt =>
            recordStep "Search right half"
              ("'" +:+ searchQuery +:+ "' > '" +:+ name midNode +:+ "'. " +:+
               "Discard left half and search right.")
              (mid + 1) right mid mid false ;;
            search_loop fuel' sortedNodes searchQuery (mid + 1) right
        end
    end
  else ret (left, right, -1).

Definition search {impl : StdSort} (graph : Graph) (searchQuery : string) : M t json :=
  let sortedNodes :=
    std_sort (fun a b => String.ltb (name a) (name b)) (getNodes graph) in
  let left := 0 in
  let right := last_index sortedNodes in
  recordStep "Starting binary search"
    ("Array is sorted alphabetically. Searching for: " +:+ searchQuery)
    left right (-1) (-1) false ;;
  exit <- search_loop (length sortedNodes) sortedNodes searchQuery left right ;;
  let left := exit.1.1 in
  let right := exit.1.2 in
  let foundIndex := exit.2 in
  (if foundIndex =? -1 then
     recordStep "Not found"
       ("Search completed. '" +:+ searchQuery +:+ "' not found in the campus.")
       left right (-1) (-1) false
   else ret tt) ;;
  let result := JNull in
  let result := json_set "algorithm" (JString "binary_search") result in
  let result := json_set "query" (JString searchQuery) result in
  let result := json_set "found" (JBool (negb (foundIndex =? -1))) result in
  result <-
    (if negb (foundIndex =? -1) then
       foundNode <- defined (vec_get sortedNodes foundIndex) ;;
       ret (json_set "result" (node_result foundNode) result)
     else ret result) ;;
  let result := json_set "sortedArray" (JArray (map node_entry sortedNodes)) result in
  recorded <- gets steps ;;
  let result :=
    json_set "steps" (JArray (map (fun s => SearchStep.toJSON s graph) recorded)) result in
  let result :=
    json_set "complexity"
      (json_object [("time", JString "O(log n)"); ("space", JString "O(1)");
                    ("description", JString "Iterative binary search on sorted array")])
      result in
  ret result.

End BinarySearchVisualizer.

(** [searchBuilding]: a search on a visualizer of its own. *)
Definition searchBuilding {impl : StdSort} (graph : Graph) (searchQuery : string)
  : outcome BinarySearchVisualizer.t json :=
  BinarySearchVisualizer.search graph searchQuery BinarySearchVisualizer.new.

(** ** sort.hpp *)

Module SortStep.

Record t := mk {
  stepNum : Z;
  action : string;
  explanation : string;
  array : list Z;
  names : list string;
  pivotIndex : Z;
  leftPointer : Z;
  rightPointer : Z;
  low : Z;
  high : Z;
}.

Definition toJSON (s : t) : json :=
  let stepJson := JNull in
  let stepJson := json_set "step" (JInt (stepNum s)) stepJson in
  let stepJson := json_set "action" (JString (action s)) stepJson in
  let stepJson := json_set "explanation" (JString (explanation s)) stepJson in
  let stepJson := json_set "array" (JArray (map JInt (array s))) stepJson in
  let stepJson := json_set "names" (JArray (map JString (names s))) stepJson in
  let stepJson := json_set "pivot" (JInt (pivotIndex s)) stepJson in
  let stepJson := json_set "left" (JInt (leftPointer s)) stepJson in
  let stepJson := json_set "right" (JInt (rightPointer s)) stepJson in
  let stepJson := json_set "low" (JInt (low s)) stepJson in
  let stepJson := json_set "high" (JInt (high s)) stepJson in
  stepJson.

End SortStep.

(** The literal of [time_worst] as the source file stores it: [O(n],
    the four bytes C3 82 C2 B2, [)]. *)
Definition time_worst_literal : string :=
  "O(n" +:+ String "195" (String "130" (String "194" (String "178" ")"))).

Module QuickSortVisualizer.

Record t := mk {
  steps : list SortStep.t;
  stepNum : Z;
  distances : list Z;
  names : list string;
}.

(** The constructor: [stepNum(0)], empty vectors. *)
Definition new : t := mk [] 0 [] [].

Definition set_distances (d : list Z) : M t unit :=
  modify (fun v => mk (steps v) (stepNum v) d (names v)).
Definition set_names (n : list string) : M t unit :=
  modify (fun v => mk (steps v) (stepNum v) (distances v) n).

(** [distances[i]], [names[i]] *)
Definition distance_at (i : Z) : M t Z :=
  d <- gets distances ;; defined (vec_get d i).
Definition name_at (i : Z) : M t string :=
  n <- gets names ;; defined (vec_get n i).

(** [swap(distances[i], distances[j])], [swap(names[i], names[j])] *)
Definition swap_distances (i j : Z) : M t unit :=
  d <- gets distances ;; d' <- defined (vec_swap d i j) ;; set_distances d'.
Definition swap_names (i j : Z) : M t unit :=
  n <- gets names ;; n' <- defined (vec_swap n i j) ;; set_names n'.

Definition recordStep (action explanation : string)
    (pivot left right low high : Z) : M t unit :=
  modify (fun v =>
    let currentStep :=
      SortStep.mk (stepNum v) action explanation (distances v) (names v)
                  pivot left right low high in
    mk (steps v ++ [currentStep]) (stepNum v + 1) (distances v) (names v)).

(** The body of the [for (int j = low; j < high; j++)] loop of
    [partition]; the local [i] is threaded through. *)
Definition partition_step (pivot low high : Z) (j i : Z) : M t Z :=
  dj <- distance_at j ;;
  nj <- name_at j ;;
  recordStep "Comparing"
    ("Compare " +:+ to_string dj +:+ "m (" +:+ nj +:+ ") with pivot " +:+
     to_string pivot +:+ "m")
    high i j low high ;;
  if dj <? pivot then
    let i := i + 1 in
    swap_distances i j ;;
    swap_names i j ;;
    ni <- name_at i ;;
    nj <- name_at j ;;
    recordStep "Swap"
      ("Swapped " +:+ ni +:+ " and " +:+ nj +:+ " (both smaller than pivot)")
      high i j low high ;;
    ret i
  else ret i.

Definition partition (low high : Z) : M t Z :=
  pivot <- distance_at high ;;
  pivotName <- name_at high ;;
  recordStep "Choose pivot"
    ("Selected pivot: " +:+ to_string pivot +:+ "m (" +:+ pivotName +:+
     ") at index " +:+ to_string high)
    high (-1) (-1) low high ;;
  let i := low - 1 in
  i <- for_range (Z.to_nat (high - low)) low (partition_step pivot low high) i ;;
  swap_distances (i + 1) high ;;
  swap_names (i + 1) high ;;
  placed <- name_at (i + 1) ;;
  recordStep "Place pivot"
    ("Placed pivot " +:+ placed +:+ " at its final position (index " +:+
     to_string (i + 1) +:+ ")")
    (i + 1) (-1) (-1) low high ;;
  ret (i + 1).

(** [fuel] bounds the depth of the recursion. *)
Fixpoint quicksort (fuel : nat) (low high : Z) : M t unit :=
  if low <? high then
    match fuel with
    | O => throw OutOfFuel
    | S fuel' =>
        recordStep "Partition"
          ("Sorting subarray from index " +:+ to_string low +:+ " to " +:+
           to_string high)
          (-1) (-1) (-1) low high ;;
        pivotIndex <- partition low high ;;
        quicksort fuel' low (pivotIndex - 1) ;;
        quicksort fuel' (pivotIndex + 1) high
    end
  else ret tt.

(** The body of the preprocessing loop of [sort]. *)
Definition measure (graph : Graph) (referenceNodeId : Z) (referenceNode : Node)
    (i : Z) (_ : unit) : M t unit :=
  if negb (i =? referenceNodeId) then
    currentNode <- getNode graph i ;;
    let dx := (x currentNode - x referenceNode)%float in
    let dy := (y currentNode - y referenceNode)%float in
    distance <- defined (double_to_int (PrimFloat.sqrt (dx * dx + dy * dy))) ;;
    d <- gets distances ;;
    set_distances (d ++ [distance]) ;;
    n <- gets names ;;
    set_names (n ++ [name currentNode])
  else ret tt.

Definition location_entry (i : Z) (entries : list json) : M t (list json) :=
  n <- name_at i ;;
  d <- distance_at i ;;
  ret (entries ++ [json_object [("name", JString n); ("distance", JInt d)]]).

Definition sort (graph : Graph) (referenceNodeId : Z) : M t json :=
  let totalNodes := size graph in
  set_distances [] ;;
  set_names [] ;;
  referenceNode <- getNode graph referenceNodeId ;;
  for_range (Z.to_nat totalNodes) 0 (measure graph referenceNodeId referenceNode) tt ;;
  d <- gets distances ;;
  recordStep "Initial array"
    ("Sorting " +:+ to_string (Z.of_nat (length d)) +:+
     " buildings by distance from " +:+ name referenceNode)
    (-1) (-1) (-1) 0 (last_index d) ;;
  (if bool_decide (d = []) then ret tt
   else quicksort (length d) 0 (last_index d)) ;;
  d <- gets distances ;;
  recordStep "Sorted!"
    ("Array is now sorted by distance from " +:+ name referenceNode)
    (-1) (-1) (-1) 0 (last_index d) ;;
  let result := JNull in
  let result := json_set "algorithm" (JString "quicksort") result in
  let result := json_set "referenceNode" (JInt referenceNodeId) result in
  let result := json_set "referenceName" (JString (name referenceNode)) result in
  entries <- for_range (length d) 0 location_entry [] ;;
  let result := json_set "sortedLocations" (JArray entries) result in
  recorded <- gets steps ;;
  let result := json_set "steps" (JArray (map SortStep.toJSON recorded)) result in
  let result :=
    json_set "complexity"
      (json_object [("time_avg", JString "O(n log n)");
                    ("time_worst", JString time_worst_literal);
                    ("space", JString "O(log n)");
                    ("description", JString "In-place sorting with random pivot")])
      result in
  ret result.

End QuickSortVisualizer.

(** [sortLocationsByDistance]: a sort on a visualizer of its own. *)
Definition sortLocationsByDistance (graph : Graph) (referenceNodeId : Z)
  : outcome QuickSortVisualizer.t json :=
  QuickSortVisualizer.sort graph referenceNodeId QuickSortVisualizer.new.

(** ** utils.hpp *)

(** [size_t]: 64 bits, arithmetic wraps around; [string::npos] is its
    largest value. *)
Definition size_t_wrap (z : Z) : Z := z mod 2 ^ 64.

Definition npos : Z := 2 ^ 64 - 1.

(** [s.find(pattern)]: the first position where [pattern] occurs, [npos]
    when it does not. *)
Definition string_find (pattern s : string) : Z :=
  match String.index 0 pattern s with
  | Some position => Z.of_nat position
  | None => npos
  end.

(** [s.substr(pos, count)]: [std::out_of_range] (no value) when [pos] is
    beyond the size, otherwise the characters from [pos], [count] of them
    or as many as are left. *)
Definition string_substr (s : string) (pos count : Z) : option string :=
  let size := Z.of_nat (String.length s) in
  if size <? pos then None
  else Some (String.substring (Z.to_nat pos) (Z.to_nat (Z.min count (size - pos))) s).

(** The value of a hexadecimal digit. *)
Definition hex_digit (c : ascii) : option Z :=
  let code := Z.of_N (N_of_ascii c) in
  if (48 <=? code) && (code <=? 57) then Some (code - 48)
  else if (65 <=? code) && (code <=? 70) then Some (code - 55)
  else if (97 <=? code) && (code <=? 102) then Some (code - 87)
  else None.

(** [hexConverter >> hex >> asciiValue] on the two characters of
    [hexvalue]: the integer read, or nothing when the extraction fails.
    The contract states what every stream reads from two hexadecimal
    digits. *)
Class HexStream := {
  extract_hex : ascii -> ascii -> option Z;
  extract_hex_digits : forall h1 h2 d1 d2,
    hex_digit h1 = Some d1 -> hex_digit h2 = Some d2 ->
    extract_hex h1 h2 = Some (16 * d1 + d2);
}.

(** [isspace] in the C locale. *)
Definition is_space (c : ascii) : bool :=
  let code := Z.of_N (N_of_ascii c) in
  (code =? 32) || ((9 <=? code) && (code <=? 13)).

(** One stream within the contract.  It reads the field as the extraction
    of an integer does: white space or a sign may come first, digits are
    read as far as they go, and a lone [0x] prefix is no number. *)
Definition field_extract_hex (h1 h2 : ascii) : option Z :=
  match hex_digit h1, hex_digit h2 with
  | Some d1, Some d2 => Some (16 * d1 + d2)
  | Some d1, None =>
      if Ascii.eqb h1 "0" && (Ascii.eqb h2 "x" || Ascii.eqb h2 "X") then None
      else Some d1
  | None, Some d2 =>
      if is_space h1 || Ascii.eqb h1 "+" then Some d2
      else if Ascii.eqb h1 "-" then Some (- d2)
      else None
  | None, None => None
  end.

(** [static_cast<char>] of an [int]: its low eight bits. *)
Definition to_char (asciiValue : Z) : ascii :=
  ascii_of_N (Z.to_N (asciiValue mod 256)).

(** The loop of [urlDecode] runs over the characters that are left:
    [rest] starts at index [i + 1], and [i + 2 < encodeUrl.length()] says
    that it holds two characters at least.  After an escape that was read,
    [i += 2] skips them. *)
Fixpoint urlDecode {stream : HexStream} (encodeUrl : string) : string :=
  match encodeUrl with
  | EmptyString => EmptyString
  | String currentChar rest =>
      if Ascii.eqb currentChar "%" then
        match rest with
        | String h1 (String h2 rest') =>
            match extract_hex h1 h2 with
            | Some asciiValue => String (to_char asciiValue) (urlDecode rest')
            | None => urlDecode rest
            end
        | _ => urlDecode rest
        end
      else if Ascii.eqb currentChar "+" then String " " (urlDecode rest)
      else String currentChar (urlDecode rest)
  end.

(** The lines that the successive calls of [getline(stream, line, delim)]
    read until one of them fails: a call at the end of the stream reads
    nothing and fails, any other reads up to the next [delim], which it
    consumes, or up to the end. *)
Fixpoint getlines (delim : ascii) (stream : string) : list string :=
  match stream with
  | EmptyString => []
  | String c rest =>
      if Ascii.eqb c delim then EmptyString :: getlines delim rest
      else match getlines delim rest with
           | [] => [String c EmptyString]
           | line :: lines => String c line :: lines
           end
  end.

(** The body of the loop of [parseQueryParams]. *)
Definition add_pair {stream : HexStream} (pair : string)
    (params : gmap string string) : option (gmap string string) :=
  let equalSignPosition := string_find "=" pair in
  if negb (equalSignPosition =? npos) then
    encodedKey ← string_substr pair 0 equalSignPosition;
    let key := urlDecode encodedKey in
    encodedValue ← string_substr pair (size_t_wrap (equalSignPosition + 1)) npos;
    let value := urlDecode encodedValue in
    Some (<[key := value]> params)
  else Some params.

(** The loop, over the lines that [getline] reads. *)
Fixpoint parse_pairs {stream : HexStream} (pairs : list string)
    (params : gmap string string) : option (gmap string string) :=
  match pairs with
  | [] => Some params
  | p :: pairs' => params' ← add_pair p params; parse_pairs pairs' params'
  end.

(** No value: [std::out_of_range] is thrown. *)
Definition parseQueryParams {stream : HexStream} (query : string)
    : option (gmap string string) :=
  parse_pairs (getlines "&" query) ∅.

(** [find("GET") + 4] and [end - start] are [size_t] arithmetic.  No
    value: [std::out_of_range] is thrown by a [substr]. *)
Definition extractPath (request : string) : option string :=
  let start := size_t_wrap (string_find "GET" request + 4) in
  let end_ := string_find "HTTP/" request in
  if negb (start =? npos) && negb (end_ =? npos) then
    fullPath ← string_substr request start (size_t_wrap (end_ - start));
    let questionPosition := string_find "?" fullPath in
    if negb (questionPosition =? npos) then string_substr fullPath 0 questionPosition
    else Some fullPath
  else Some "/"%string.

Definition extractQueryString (request : string) : option string :=
  let start := size_t_wrap (string_find "GET" request + 4) in
  let end_ := string_find "HTTP/" request in
  if negb (start =? npos) && negb (end_ =? npos) then
    fullPath ← string_substr request start (size_t_wrap (end_ - start));
    let questionPosition := string_find "?" fullPath in
    if negb (questionPosition =? npos) then
      string_substr fullPath (size_t_wrap (questionPosition + 1)) npos
    else Some EmptyString
  else Some EmptyString.

(** ** Sample data: the scenarios of the design notes *)

Definition campus3 : Graph :=
  mkGraph [mkNode 0 "Gym" "sports" 0 0; mkNode 1 "Library" "study" 3 4;
           mkNode 2 "Cafeteria" "food" 0 5].

Definition campus4 : Graph :=
  mkGraph [mkNode 0 "A" "hall" 0 0; mkNode 1 "B" "hall" 3 4;
           mkNode 2 "C" "hall" 0 5; mkNode 3 "D" "hall" 1 1].

(** ** Vocabulary of the specifications *)

(** [wp c Q s]: run from [s], the computation [c] returns (it throws
    nothing) and its result and final state satisfy [Q]. *)
Definition wp {S A} (c : M S A) (Q : A -> S -> Prop) (s : S) : Prop :=
  match c s with
  | Ok a s' => Q a s'
  | Throw _ _ => False
  end.

(** The comparator passed to [std::sort] by the binary search engine. *)
Definition by_name (a b : Node) : bool := String.ltb (name a) (name b).

(** A dataset the engines can index with an [int]. *)
Definition indexable {A} (v : list A) : Prop := Z.of_nat (length v) <= INT_MAX.

(** The bounds of a recorded search step, over a sorted array of [size]
    elements. *)
Definition step_in_bounds (size : Z) (s : SearchStep.t) : Prop :=
  SearchStep.left s <= SearchStep.right s + 1 /\
  (SearchStep.mid s <> -1 -> 0 <= SearchStep.mid s < size).

Definition unsuccessful (s : SearchStep.t) : Prop := SearchStep.found s = false.

(** The tail of a trace that ends in a match at index [i]: the check of the
    middle element [i], then the match. *)
Definition ends_in_match (i : Z) (trace : list SearchStep.t) : Prop :=
  exists before check hit,
    trace = before ++ [check; hit] /\
    Forall unsuccessful before /\
    SearchStep.action check = "Checking middle element"%string /\
    SearchStep.mid check = i /\ SearchStep.found check = false /\
    SearchStep.action hit = "Found!"%string /\
    SearchStep.mid hit = i /\ SearchStep.found hit = true.

Definition at_most_one_hit (trace : list SearchStep.t) : Prop :=
  forall i j a b,
    trace !! i = Some a -> trace !! j = Some b ->
    SearchStep.found a = true -> SearchStep.found b = true -> i = j.

(** [res] is the [result] object of the location [n]. *)
Definition carries_node (res : json) (n : Node) : Prop :=
  json_get "id" res = Some (JInt (id n)) /\
  json_get "name" res = Some (JString (name n)) /\
  json_get "type" res = Some (JString (type n)) /\
  json_get "x" res = Some (JDouble (x n)) /\
  json_get "y" res = Some (JDouble (y n)).

(** What the response [r] of a search for [q] over [g] says about the
    outcome. *)
Definition search_response_correct (g : Graph) (q : string) (r : json) : Prop :=
  (json_get "found" r = Some (JBool true) \/ json_get "found" r = Some (JBool false)) /\
  (json_get "found" r = Some (JBool true) <-> exists n, n ∈ getNodes g /\ name n = q) /\
  (is_Some (json_get "result" r) <-> json_get "found" r = Some (JBool true)) /\
  (forall res, json_get "result" r = Some res ->
     exists n, n ∈ getNodes g /\ name n = q /\ carries_node res n).

(** The trace of one search: the steps [trace] it recorded, against the
    [found] field of its response [r]. *)
Definition single_hit_at_end (r : json) (trace : list SearchStep.t) : Prop :=
  at_most_one_hit trace /\
  (json_get "found" r = Some (JBool true) -> exists i, ends_in_match i trace) /\
  (json_get "found" r = Some (JBool false) -> Forall unsuccessful trace).

(** Stability of a sort by name: two locations of equal name come out in
    the order they went in. *)
Definition keeps_ties_in_order (l sorted : list Node) : Prop :=
  forall i j a b,
    (i < j)%nat -> l !! i = Some a -> l !! j = Some b -> name a = name b ->
    exists i' j', (i' < j')%nat /\ sorted !! i' = Some a /\ sorted !! j' = Some b.

(** Seventeen locations that share the name "Hall", numbered from 0 in the
    order of the list. *)
Definition hall_row : Graph :=
  mkGraph (map (fun i => mkNode i "Hall" "hall" 0 0) (seqZ 0 17)).

(** *** Quicksort *)

(** The working arrays of [s'] are those of [s] with the pairs at the
    indices [low..high] rearranged among themselves. *)
Definition rearranged (low high : Z) (s s' : QuickSortVisualizer.t) : Prop :=
  length (QuickSortVisualizer.distances s') = length (QuickSortVisualizer.distances s) /\
  length (QuickSortVisualizer.names s') = length (QuickSortVisualizer.names s) /\
  zip (QuickSortVisualizer.distances s') (QuickSortVisualizer.names s')
    ≡ₚ zip (QuickSortVisualizer.distances s) (QuickSortVisualizer.names s) /\
  (forall k, ~ low <= k <= high ->
     vec_get (QuickSortVisualizer.distances s') k
       = vec_get (QuickSortVisualizer.distances s) k) /\
  (forall k, low <= k <= high ->
     exists k', low <= k' <= high /\
       vec_get (QuickSortVisualizer.distances s') k
         = vec_get (QuickSortVisualizer.distances s) k').

(** The invariant of the scan of [partition]: up to [i] the distances are
    below the pivot, from [i + 1] up to (not including) [j] they are not. *)
Definition scanned (d : list Z) (pivot low i j : Z) : Prop :=
  (forall m v, low <= m <= i -> vec_get d m = Some v -> v < pivot) /\
  (forall m v, i < m < j -> vec_get d m = Some v -> pivot <= v).

(** The array [d] is partitioned over [low..high] around index [p]. *)
Definition partitioned (d : list Z) (low p high : Z) : Prop :=
  exists pv, vec_get d p = Some pv /\
    (forall k v, low <= k < p -> vec_get d k = Some v -> v < pv) /\
    (forall k v, p < k <= high -> vec_get d k = Some v -> pv <= v).

(** What a "Place pivot" step must show in its snapshot. *)
Definition place_pivot_ok (st : SortStep.t) : Prop :=
  SortStep.action st = "Place pivot"%string ->
  0 <= SortStep.low st /\
  SortStep.low st <= SortStep.pivotIndex st <= SortStep.high st /\
  SortStep.high st < Z.of_nat (length (SortStep.array st)) /\
  partitioned (SortStep.array st) (SortStep.low st) (SortStep.pivotIndex st)
    (SortStep.high st).

Definition sorted_between (d : list Z) (low high : Z) : Prop :=
  forall i j a b,
    low <= i -> i <= j -> j <= high ->
    vec_get d i = Some a -> vec_get d j = Some b -> a <= b.

(** [s'] has the trace of [s] followed by steps that satisfy [P]. *)
Definition appends (P : SortStep.t -> Prop) (s s' : QuickSortVisualizer.t) : Prop :=
  exists trace,
    QuickSortVisualizer.steps s' = QuickSortVisualizer.steps s ++ trace /\
    Forall P trace.

Definition aligned (s : QuickSortVisualizer.t) : Prop :=
  length (QuickSortVisualizer.names s) = length (QuickSortVisualizer.distances s).

(** The (distance, name) pair that the preprocessing of [sort] computes
    for the location [n]; no pair when the distance does not fit an
    [int]. *)
Definition measured (referenceNode n : Node) : option (Z * string) :=
  let dx := (x n - x referenceNode)%float in
  let dy := (y n - y referenceNode)%float in
  match double_to_int (PrimFloat.sqrt (dx * dx + dy * dy)) with
  | Some distance => Some (distance, name n)
  | None => None
  end.

(** The locations other than the one at position [ref]. *)
Definition others (ref : Z) (l : list Node) : list Node :=
  take (Z.to_nat ref) l ++ drop (S (Z.to_nat ref)) l.

(** [ref] identifies the location [referenceNode] of [g], and the
    preprocessing yields [pairs]: one pair for each other location, in the
    order of the graph. *)
Definition preprocessing (g : Graph) (ref : Z) (referenceNode : Node)
    (pairs : list (Z * string)) : Prop :=
  vec_get (nodes g) ref = Some referenceNode /\
  Forall2 (fun n p => measured referenceNode n = Some p) (others ref (nodes g)) pairs.

(** An entry of [sortedLocations]. *)
Definition location_json (p : Z * string) : json :=
  json_object [("name", JString p.2); ("distance", JInt p.1)]%string.

Definition by_distance (p q : Z * string) : Prop := p.1 <= q.1.

(** Step [b] follows step [a] in a trace: its snapshot is that of [a] after
    the one swap that [b] reports ([left] with [right] for a "Swap", the
    pivot index with [high] for a "Place pivot"), and that of [a] itself for
    any other step. *)
Definition follows (a b : SortStep.t) : Prop :=
  if decide (SortStep.action b = "Swap"%string) then
    vec_swap (SortStep.array a) (SortStep.leftPointer b) (SortStep.rightPointer b)
      = Some (SortStep.array b) /\
    vec_swap (SortStep.names a) (SortStep.leftPointer b) (SortStep.rightPointer b)
      = Some (SortStep.names b)
  else if decide (SortStep.action b = "Place pivot"%string) then
    vec_swap (SortStep.array a) (SortStep.pivotIndex b) (SortStep.high b)
      = Some (SortStep.array b) /\
    vec_swap (SortStep.names a) (SortStep.pivotIndex b) (SortStep.high b)
      = Some (SortStep.names b)
  else
    SortStep.array b = SortStep.array a /\ SortStep.names b = SortStep.names a.

(** A trace that can be replayed: every step follows the one before it. *)
Definition replayable (trace : list SortStep.t) : Prop :=
  forall k a b, trace !! k = Some a -> trace !! S k = Some b -> follows a b.

(** The steps recorded on top of [base] form a replayable trace whose last
    snapshot is the present content of the working arrays. *)
Definition logged (base : list SortStep.t) (s : QuickSortVisualizer.t) : Prop :=
  exists trace st,
    QuickSortVisualizer.steps s = base ++ trace ++ [st] /\
    replayable (trace ++ [st]) /\
    SortStep.array st = QuickSortVisualizer.distances s /\
    SortStep.names st = QuickSortVisualizer.names s.

(** The trace of one sort, against the pairs of the preprocessing and the
    final state [s']. *)
Definition faithful_snapshots (pairs : list (Z * string))
    (trace : list SortStep.t) (s' : QuickSortVisualizer.t) : Prop :=
  exists initial between final,
    trace = initial :: between ++ [final] /\
    zip (SortStep.array initial) (SortStep.names initial) = pairs /\
    replayable trace /\
    SortStep.array final = QuickSortVisualizer.distances s' /\
    SortStep.names final = QuickSortVisualizer.names s'.

(** What the response [r] of a sort says about the sorted locations,
    against the pairs of the preprocessing. *)
Definition sorted_locations_correct (g : Graph) (pairs : list (Z * string))
    (r : json) : Prop :=
  exists sorted,
    json_get "sortedLocations" r = Some (JArray (map location_json sorted)) /\
    StronglySorted by_distance sorted /\
    sorted ≡ₚ pairs /\
    Z.of_nat (length sorted) = Z.of_nat (length (nodes g)) - 1.

(** The [complexity] object that the sort builds, literal for literal. *)
Definition complexity_as_coded (r : json) : Prop :=
  exists c,
    json_get "complexity" r = Some c /\
    json_get "time_avg" c = Some (JString "O(n log n)") /\
    json_get "time_worst" c = Some (JString time_worst_literal) /\
    json_get "space" c = Some (JString "O(log n)").

(** The responses over an empty dataset. *)
Definition minimal_search_response (r : json) (trace : list SearchStep.t) : Prop :=
  json_get "sortedArray" r = Some (JArray []) /\
  json_get "found" r = Some (JBool false) /\
  json_get "result" r = None /\
  exists start final,
    trace = [start; final] /\
    SearchStep.action start = "Starting binary search"%string /\
    SearchStep.action final = "Not found"%string.

Definition minimal_sort_response (r : json) (trace : list SortStep.t) : Prop :=
  json_get "sortedLocations" r = Some (JArray []) /\
  exists initial final,
    trace = [initial; final] /\
    SortStep.action initial = "Initial array"%string /\
    SortStep.array initial = [] /\
    SortStep.action final = "Sorted!"%string /\
    SortStep.array final = [].

(** [wlp c Q s]: if [c] returns from [s], its result and final state
    satisfy [Q]. *)
Definition wlp {S A} (c : M S A) (Q : A -> S -> Prop) (s : S) : Prop :=
  match c s with
  | Ok a s' => Q a s'
  | Throw _ _ => True
  end.

(** *** Further vocabulary: what a run keeps, whatever its outcome *)

(** [c] relates every state to the state it leaves, whether it returns or
    throws. *)
Definition preserves {S A} (R : relation S) (c : M S A) : Prop :=
  forall s, R s (final_state (c s)).

(** The steps of [trace] are numbered [start], [start + 1], ... *)
Definition numbered_from {T} (num : T -> Z) (start : Z) (trace : list T) : Prop :=
  forall k st, trace !! k = Some st -> num st = start + Z.of_nat k.

Definition search_numbered (s s' : BinarySearchVisualizer.t) : Prop :=
  exists trace,
    BinarySearchVisualizer.steps s' = BinarySearchVisualizer.steps s ++ trace /\
    BinarySearchVisualizer.stepNum s'
      = BinarySearchVisualizer.stepNum s + Z.of_nat (length trace) /\
    numbered_from SearchStep.stepNum (BinarySearchVisualizer.stepNum s) trace.

Definition sort_numbered (s s' : QuickSortVisualizer.t) : Prop :=
  exists trace,
    QuickSortVisualizer.steps s' = QuickSortVisualizer.steps s ++ trace /\
    QuickSortVisualizer.stepNum s'
      = QuickSortVisualizer.stepNum s + Z.of_nat (length trace) /\
    numbered_from SortStep.stepNum (QuickSortVisualizer.stepNum s) trace.

(** The number of probes a binary search makes over a range of [m]
    elements is at most [probe_bound m]. *)
Definition probe_bound (m : Z) : Z := if m <=? 0 then 0 else Z.log2 m + 1.

(** The names below index [lo] come before [q], those above index [hi]
    come after it. *)
Definition brackets (sorted : list Node) (q : string) (lo hi : Z) : Prop :=
  (forall k n, k < lo -> vec_get sorted k = Some n -> String.compare (name n) q = Lt) /\
  (forall k n, hi < k -> vec_get sorted k = Some n -> String.compare q (name n) = Lt).

(** [i] is where [q] would be inserted into [sorted]. *)
Definition insertion_point (sorted : list Node) (q : string) (i : Z) : Prop :=
  (forall k n, k < i -> vec_get sorted k = Some n -> String.compare (name n) q = Lt) /\
  (forall k n, i <= k -> vec_get sorted k = Some n -> String.compare q (name n) = Lt).

(** The trace [recorded] ends with the "Found!" step at the index of the
    location [n] of [sorted]. *)
Definition ends_at_hit (sorted : list Node) (n : Node)
    (recorded : list SearchStep.t) : Prop :=
  exists before hit,
    recorded = before ++ [hit] /\
    SearchStep.action hit = "Found!"%string /\
    SearchStep.found hit = true /\
    SearchStep.compareNode hit = SearchStep.mid hit /\
    vec_get sorted (SearchStep.mid hit) = Some n.

(** The trace [recorded] ends with the "Not found" step, whose [left] is
    the insertion point of [q] in [sorted]. *)
Definition ends_at_insertion_point (sorted : list Node) (q : string)
    (recorded : list SearchStep.t) : Prop :=
  exists before final,
    recorded = before ++ [final] /\
    SearchStep.action final = "Not found"%string /\
    SearchStep.mid final = -1 /\
    SearchStep.right final < SearchStep.left final /\
    insertion_point sorted q (SearchStep.left final).

(** *** Vocabulary for the request utilities *)

Fixpoint has_char (c : ascii) (s : string) : bool :=
  match s with
  | EmptyString => false
  | String a s' => Ascii.eqb a c || has_char c s'
  end.

(** A string whose size fits in [ptrdiff_t], as that of every
    [std::string] does. *)
Definition representable (s : string) : Prop :=
  Z.of_nat (String.length s) < 2 ^ 63.

Fixpoint map_chars (f : ascii -> ascii) (s : string) : string :=
  match s with
  | EmptyString => EmptyString
  | String c s' => String (f c) (map_chars f s')
  end.

Definition plus_to_space (c : ascii) : ascii :=
  if Ascii.eqb c "+" then " "%char else c.

(** Percent-encoding: a character is written as it is when [keep] says so,
    otherwise as a percent sign and the two hexadecimal digits of its
    code. *)
Definition hex_char (d : Z) : ascii :=
  ascii_of_N (Z.to_N (if d <? 10 then 48 + d else 55 + d)).

Definition escape (keep : ascii -> bool) (c : ascii) : string :=
  if keep c then String c EmptyString
  else
    let code := Z.of_N (N_of_ascii c) in
    String "%" (String (hex_char (code / 16)) (String (hex_char (code mod 16)) EmptyString)).

Fixpoint percent_encode (keep : ascii -> bool) (s : string) : string :=
  match s with
  | EmptyString => EmptyString
  | String c s' => escape keep c +:+ percent_encode keep s'
  end.

(** *** Vocabulary for the trace of a sort *)

(** The snapshot of the step [st] holds the pairs [pairs] in some order,
    each name beside its distance. *)
Definition snapshot_of (pairs : list (Z * string)) (st : SortStep.t) : Prop :=
  length (SortStep.names st) = length (SortStep.array st) /\
  zip (SortStep.array st) (SortStep.names st) ≡ₚ pairs.

(** Every index that the step [st] shows is unset ([-1]) or lies in the
    range [low..high] of the step, which lies within its snapshot; the
    left pointer may stand one cell before the range, as [i] does at the
    start of a scan, and never passes the right one. *)
Definition sort_step_in_bounds (st : SortStep.t) : Prop :=
  0 <= SortStep.low st <= SortStep.high st + 1 /\
  SortStep.high st < Z.of_nat (length (SortStep.array st)) /\
  (SortStep.pivotIndex st = -1 \/
   SortStep.low st <= SortStep.pivotIndex st <= SortStep.high st) /\
  (SortStep.rightPointer st = -1 \/
   SortStep.low st <= SortStep.rightPointer st < SortStep.high st) /\
  (SortStep.leftPointer st = -1 \/
   SortStep.low st - 1 <= SortStep.leftPointer st <= SortStep.rightPointer st).

(** The pivot that a "Place pivot" step [st] shows at its index is the
    element of [final] at that index. *)
Definition pivot_settled (final : list Z) (st : SortStep.t) : Prop :=
  SortStep.action st = "Place pivot"%string ->
  exists pivot,
    vec_get (SortStep.array st) (SortStep.pivotIndex st) = Some pivot /\
    vec_get final (SortStep.pivotIndex st) = Some pivot.

Definition settled_within (low high : Z) (final : list Z) (st : SortStep.t) : Prop :=
  SortStep.action st = "Place pivot"%string ->
  low <= SortStep.pivotIndex st <= high /\
  exists pivot,
    vec_get (SortStep.array st) (SortStep.pivotIndex st) = Some pivot /\
    vec_get final (SortStep.pivotIndex st) = Some pivot.

(** The largest number of steps that [quicksort] records over [m]
    cells. *)
Definition quicksort_bound (m : Z) : Z :=
  if m <=? 1 then 0 else m * m + 2 * m - 3.

(** What the steps [trace] that a piece of the sort appends, from [s] to
    [s'], have in common. *)
Definition traced (low high : Z) (bound : Z) (placed : SortStep.t -> Prop)
    (s s' : QuickSortVisualizer.t) : Prop :=
  length (QuickSortVisualizer.distances s') = length (QuickSortVisualizer.distances s) /\
  (forall k, ~ low <= k <= high ->
     vec_get (QuickSortVisualizer.distances s') k
       = vec_get (QuickSortVisualizer.distances s) k) /\
  exists trace,
    QuickSortVisualizer.steps s' = QuickSortVisualizer.steps s ++ trace /\
    Z.of_nat (length trace) <= bound /\
    Forall sort_step_in_bounds trace /\
    Forall placed trace.

(** *** Vocabulary for the library's [std::sort] *)

(** The cells [lo, hi) of [v] are in non-decreasing order. *)
Definition sorted_range {A} (comp : A -> A -> bool) (v : list A) (lo hi : Z) : Prop :=
  forall i j a b,
    lo <= i -> i < j -> j < hi ->
    vec_get v i = Some a -> vec_get v j = Some b -> comp b a = false.

(** [v'] is [v] with the element of cell [i] moved down to cell [p], the
    cells between shifted up by one. *)
Definition moved_to {A} (v : list A) (p i : Z) (v' : list A) : Prop :=
  length v' = length v /\
  forall k,
    vec_get v' k =
      if decide (k < p) then vec_get v k
      else if decide (k = p) then vec_get v i
      else if decide (k <= i) then vec_get v (k - 1)
      else vec_get v k.

(** [v'] is [v] with the cells [first, last) rearranged among themselves. *)
Definition within {A} (first last : Z) (v v' : list A) : Prop :=
  v' ≡ₚ v /\ forall k, ~ first <= k < last -> vec_get v' k = vec_get v k.

(** One of the first sixteen cells holds a least element of [v]: the
    sentinel of the unguarded insertions. *)
Definition front_min {A} (comp : A -> A -> bool) (first last : Z) (v : list A) : Prop :=
  exists m a,
    first <= m < first + 16 /\ m < last /\ vec_get v m = Some a /\
    forall k x, first <= k < last -> vec_get v k = Some x -> comp x a = false.

(** Cell [c] of a heap is a child of cell [q]. *)
Definition heap_child (q c : Z) : Prop := c = 2 * q + 1 \/ c = 2 * q + 2.

(** The cells of the subtree of [top]. *)
Inductive heap_descendant (top : Z) : Z -> Prop :=
| heap_descendant_top : heap_descendant top top
| heap_descendant_child h c :
    heap_descendant top h -> heap_child h c -> heap_descendant top c.

(** In the heap of [len] cells from [first], no cell from [lo] on is less
    than a child of its. *)
Definition heap_from {A} (comp : A -> A -> bool) (v : list A) (first len lo : Z) : Prop :=
  forall q c x y,
    lo <= q -> heap_child q c -> c < len ->
    vec_get v (first + q) = Some x -> vec_get v (first + c) = Some y ->
    comp x y = false.

(** The same with a hole at cell [h], whose content does not count: the
    cells from [top] on other than [h] are not less than their children
    other than [h], and the parent of [h] is not less than the children of
    [h]. *)
Definition heap_with_hole {A} (comp : A -> A -> bool) (v : list A)
    (first len top h : Z) : Prop :=
  (forall q c x y,
     top <= q -> heap_child q c -> c < len -> q <> h -> c <> h ->
     vec_get v (first + q) = Some x -> vec_get v (first + c) = Some y ->
     comp x y = false) /\
  (forall g c x y,
     top <= g -> heap_child g h -> heap_child h c -> c < len ->
     vec_get v (first + g) = Some x -> vec_get v (first + c) = Some y ->
     comp x y = false).

(** The children of the hole [h] are not greater than [value]. *)
Definition hole_covers {A} (comp : A -> A -> bool) (v : list A)
    (first len h : Z) (value : A) : Prop :=
  forall c y,
    heap_child h c -> c < len -> vec_get v (first + c) = Some y -> comp value y = false.

Arguments json_set : simpl never.
Arguments json_get : simpl never.
Arguments to_string : simpl never.

(** * Properties *)

(** ** Machine integers and vectors *)

Lemma to_int_id z : INT_MIN <= z <= INT_MAX -> to_int z = z.
Proof. unfold to_int, INT_MIN, INT_MAX. intros. Z.div_mod_to_equations. lia. Qed.

Lemma last_index_indexable {A} (v : list A) :
  indexable v -> last_index v = Z.of_nat (length v) - 1.
Proof.
  unfold indexable, last_index. intros. apply to_int_id.
  unfold INT_MIN, INT_MAX in *. lia.
Qed.

Lemma vec_get_Some {A} (v : list A) i a :
  vec_get v i = Some a <-> 0 <= i /\ v !! Z.to_nat i = Some a.
Proof.
  unfold vec_get. destruct (Z.leb_spec 0 i); split; try tauto; intros; try lia.
  discriminate.
Qed.

Lemma vec_get_in_range {A} (v : list A) i :
  0 <= i < Z.of_nat (length v) -> is_Some (vec_get v i).
Proof.
  intros. unfold vec_get. destruct (Z.leb_spec 0 i); [|lia].
  apply lookup_lt_is_Some. lia.
Qed.

Lemma vec_get_range {A} (v : list A) i a :
  vec_get v i = Some a -> 0 <= i < Z.of_nat (length v).
Proof.
  intros [? Hl]%vec_get_Some. apply lookup_lt_Some in Hl. lia.
Qed.

Lemma vec_get_of_nat {A} (v : list A) (k : nat) : vec_get v (Z.of_nat k) = v !! k.
Proof.
  unfold vec_get. destruct (Z.leb_spec 0 (Z.of_nat k)); [|lia].
  by rewrite Nat2Z.id.
Qed.

(** ** The monad *)

Section wp.
Context {S : Type}.
Implicit Types s : S.

Lemma wp_ret {A} (a : A) (Q : A -> S -> Prop) s : Q a s -> wp (ret a) Q s.
Proof. done. Qed.

Lemma wp_bind {A B} (c : M S A) (k : A -> M S B) (Q : B -> S -> Prop) s :
  wp c (fun a s' => wp (k a) Q s') s -> wp (bind c k) Q s.
Proof. unfold wp, bind. by destruct (c s). Qed.

Lemma wp_gets {A} (f : S -> A) (Q : A -> S -> Prop) s : Q (f s) s -> wp (gets f) Q s.
Proof. done. Qed.

Lemma wp_modify (f : S -> S) (Q : unit -> S -> Prop) s :
  Q tt (f s) -> wp (modify f) Q s.
Proof. done. Qed.

Lemma wp_defined {A} (o : option A) a (Q : A -> S -> Prop) s :
  o = Some a -> Q a s -> wp (defined o) Q s.
Proof. by intros ->. Qed.

Lemma wp_mono {A} (c : M S A) (Q Q' : A -> S -> Prop) s :
  wp c Q s -> (forall a s', Q a s' -> Q' a s') -> wp c Q' s.
Proof. unfold wp. destruct (c s); [eauto|done]. Qed.

Lemma wp_returns {A} (c : M S A) (Q : A -> S -> Prop) s :
  wp c Q s <-> exists a s', c s = Ok a s' /\ Q a s'.
Proof.
  unfold wp. destruct (c s) as [a s'|e s']; split.
  - eauto.
  - by intros (? & ? & [= <- <-] & ?).
  - done.
  - by intros (? & ? & ? & ?).
Qed.

Lemma wlp_ret {A} (a : A) (Q : A -> S -> Prop) s : Q a s -> wlp (ret a) Q s.
Proof. done. Qed.

Lemma wlp_bind {A B} (c : M S A) (k : A -> M S B) (Q : B -> S -> Prop) s :
  wlp c (fun a s' => wlp (k a) Q s') s -> wlp (bind c k) Q s.
Proof. unfold wlp, bind. by destruct (c s). Qed.

Lemma wlp_any {A} (c : M S A) (Q : A -> S -> Prop) s :
  (forall a s', Q a s') -> wlp c Q s.
Proof. intros HQ. unfold wlp. by destruct (c s). Qed.

Lemma wlp_mono {A} (c : M S A) (Q Q' : A -> S -> Prop) s :
  wlp c Q s -> (forall a s', Q a s' -> Q' a s') -> wlp c Q' s.
Proof. unfold wlp. destruct (c s); [eauto|done]. Qed.

Lemma wlp_gets {A} (f : S -> A) (Q : A -> S -> Prop) s : Q (f s) s -> wlp (gets f) Q s.
Proof. done. Qed.

Lemma wlp_modify (f : S -> S) (Q : unit -> S -> Prop) s :
  Q tt (f s) -> wlp (modify f) Q s.
Proof. done. Qed.

Lemma wlp_defined {A} (o : option A) (Q : A -> S -> Prop) s :
  (forall a, o = Some a -> Q a s) -> wlp (defined o) Q s.
Proof. intros HQ. destruct o; [by apply HQ|done]. Qed.

Lemma wlp_returned {A} (c : M S A) (Q : A -> S -> Prop) s a s' :
  wlp c Q s -> c s = Ok a s' -> Q a s'.
Proof. unfold wlp. intros HQ Hc. by rewrite Hc in HQ. Qed.

Lemma wlp_for_range {A} (I : nat -> A -> S -> Prop) count j body (acc : A) s :
  I O acc s ->
  (forall k acc s, (k < count)%nat -> I k acc s ->
     wlp (body (j + Z.of_nat k) acc) (I (Datatypes.S k)) s) ->
  wlp (for_range count j body acc) (I count) s.
Proof.
  revert I j acc s. induction count as [|count IH]; intros I j acc s H0 Hstep.
  - done.
  - simpl. apply wlp_bind.
    eapply wlp_mono.
    { specialize (Hstep O acc s). rewrite Z.add_0_r in Hstep.
      apply Hstep; [lia | done]. }
    intros acc' s' H1.
    apply (IH (fun k => I (Datatypes.S k))); [done|].
    intros k acc'' s'' Hk HI.
    specialize (Hstep (Datatypes.S k) acc'' s'').
    replace (j + 1 + Z.of_nat k) with (j + Z.of_nat (Datatypes.S k)) by lia.
    apply Hstep; [lia | done].
Qed.

(** The loop rule: [I k] holds before iteration number [k]. *)
Lemma wp_for_range {A} (I : nat -> A -> S -> Prop) count j body (acc : A) s :
  I O acc s ->
  (forall k acc s, (k < count)%nat -> I k acc s ->
     wp (body (j + Z.of_nat k) acc) (I (Datatypes.S k)) s) ->
  wp (for_range count j body acc) (I count) s.
Proof.
  revert I j acc s. induction count as [|count IH]; intros I j acc s H0 Hstep.
  - done.
  - simpl. apply wp_bind.
    eapply wp_mono.
    { specialize (Hstep O acc s). rewrite Z.add_0_r in Hstep.
      apply Hstep; [lia | done]. }
    intros acc' s' H1.
    apply (IH (fun k => I (Datatypes.S k))); [done|].
    intros k acc'' s'' Hk HI.
    specialize (Hstep (Datatypes.S k) acc'' s'').
    replace (j + 1 + Z.of_nat k) with (j + Z.of_nat (Datatypes.S k)) by lia.
    apply Hstep; [lia | done].
Qed.
End wp.

(** ** JSON objects *)

Lemma json_get_set_eq key v j : json_get key (json_set key v j) = Some v.
Proof.
  unfold json_get, json_set.
  destruct j; first [apply lookup_singleton_eq | apply lookup_insert_eq].
Qed.

Lemma json_get_set_ne key key' v j :
  key <> key' -> json_get key' (json_set key v j) = json_get key' j.
Proof.
  intros. unfold json_get, json_set.
  destruct j; first [by apply lookup_singleton_ne | by apply lookup_insert_ne].
Qed.

Ltac json_lookup :=
  repeat first [ rewrite json_get_set_eq
               | rewrite json_get_set_ne by discriminate ].

(** ** The order on names *)

Lemma ascii_compare_refl c : Ascii.compare c c = Eq.
Proof. apply N.compare_refl. Qed.

Lemma string_compare_refl s : String.compare s s = Eq.
Proof.
  induction s as [|c s IH]; simpl; [done|]. by rewrite ascii_compare_refl.
Qed.

Lemma ascii_compare_lt_trans a b c :
  Ascii.compare a b = Lt -> Ascii.compare b c = Lt -> Ascii.compare a c = Lt.
Proof. unfold Ascii.compare. rewrite !N.compare_lt_iff. lia. Qed.

Lemma string_compare_lt_trans s1 s2 s3 :
  String.compare s1 s2 = Lt -> String.compare s2 s3 = Lt -> String.compare s1 s3 = Lt.
Proof.
  revert s2 s3. induction s1 as [|a s1 IH]; intros [|b s2] [|c s3]; simpl; try done.
  destruct (Ascii.compare a b) eqn:Hab; try done;
    destruct (Ascii.compare b c) eqn:Hbc; try done; intros H1 H2.
  - apply Ascii.compare_eq_iff in Hab, Hbc. subst.
    rewrite ascii_compare_refl. eauto.
  - apply Ascii.compare_eq_iff in Hab. subst. by rewrite Hbc.
  - apply Ascii.compare_eq_iff in Hbc. subst. by rewrite Hab.
  - by rewrite (ascii_compare_lt_trans a b c).
Qed.

Lemma string_ltb_lt s1 s2 : String.ltb s1 s2 = true <-> String.compare s1 s2 = Lt.
Proof. unfold String.ltb. by destruct (String.compare s1 s2). Qed.

Lemma string_ltb_irrefl s : String.ltb s s = false.
Proof. unfold String.ltb. by rewrite string_compare_refl. Qed.

Lemma string_incomparable s1 s2 :
  String.ltb s1 s2 = false -> String.ltb s2 s1 = false -> s1 = s2.
Proof.
  unfold String.ltb. rewrite (String.compare_antisym s2 s1).
  destruct (String.compare s1 s2) eqn:Hc; try done.
  intros _ _. by apply String.compare_eq_iff.
Qed.

Lemma by_name_strict_weak_order : strict_weak_order by_name.
Proof.
  unfold by_name. split.
  - intros a. apply string_ltb_irrefl.
  - intros a b c. rewrite !string_ltb_lt. apply string_compare_lt_trans.
  - intros a b c Hab Hba Hbc Hcb.
    rewrite (string_incomparable _ _ Hab Hba), (string_incomparable _ _ Hbc Hcb).
    by rewrite string_ltb_irrefl.
Qed.

(** ** [std::sort]: consequences of the contract, and the implementation
    by insertion *)

Lemma strongly_sorted_lookup {A} (R : relation A) (l : list A) (i j : nat) a b :
  StronglySorted R l -> (i < j)%nat -> l !! i = Some a -> l !! j = Some b -> R a b.
Proof.
  intros Hs. revert i j. induction Hs as [|c l Hs IH Hall]; intros i j Hij Hi Hj.
  - done.
  - destruct j as [|j]; [lia|]. simpl in Hj. destruct i as [|i].
    + simpl in Hi. injection Hi as ->.
      rewrite Forall_forall in Hall. apply Hall. eapply list_elem_of_lookup_2, Hj.
    + simpl in Hi. apply (IH i j); [lia|done..].
Qed.

Section strict_weak_order.
Context {A} (comp : A -> A -> bool) (Hswo : strict_weak_order comp).

Lemma swo_asym a b : comp a b = true -> comp b a = false.
Proof.
  intros Hab. destruct (comp b a) eqn:Hba; [|done].
  by rewrite <- (swo_irrefl comp Hswo a), (swo_trans comp Hswo a b a).
Qed.

Lemma swo_neg_trans a b c : comp c b = false -> comp b a = false -> comp c a = false.
Proof.
  intros Hcb Hba. destruct (comp c a) eqn:Hca; [|done].
  destruct (comp b c) eqn:Hbc.
  { by rewrite (swo_trans comp Hswo b c a) in Hba. }
  destruct (comp a b) eqn:Hab.
  { by rewrite (swo_trans comp Hswo c a b) in Hcb. }
  destruct (swo_incomp comp Hswo c b a) as [Hca' _]; congruence.
Qed.

Lemma insert_before_perm a l : insert_before comp a l ≡ₚ a :: l.
Proof.
  induction l as [|b l IH]; simpl; [done|].
  destruct (comp b a); [|done]. rewrite IH. apply perm_swap.
Qed.

Lemma insert_before_sorted a l :
  sorted_wrt comp l -> sorted_wrt comp (insert_before comp a l).
Proof.
  unfold sorted_wrt. induction 1 as [|b l Hs IH Hall]; simpl.
  - repeat constructor.
  - destruct (comp b a) eqn:Hba.
    + constructor; [done|]. rewrite insert_before_perm.
      constructor; [by apply swo_asym | done].
    + constructor; [by constructor|]. constructor; [done|].
      eapply Forall_impl; [exact Hall|]. simpl. intros c Hcb.
      by apply (swo_neg_trans a b c).
Qed.

End strict_weak_order.

Lemma stable_insertion_sort_perm {A} (comp : A -> A -> bool) l :
  stable_insertion_sort comp l ≡ₚ l.
Proof.
  induction l as [|a l IH]; simpl; [done|]. by rewrite insert_before_perm, IH.
Qed.

Lemma stable_insertion_sort_sorted {A} (comp : A -> A -> bool) l :
  strict_weak_order comp -> sorted_wrt comp (stable_insertion_sort comp l).
Proof.
  intros Hswo. induction l as [|a l IH]; simpl; [constructor|].
  by apply insert_before_sorted.
Qed.

(** A [std::sort] that keeps equivalent elements in their order. *)
Definition stable_std_sort : StdSort :=
  {| std_sort := @stable_insertion_sort;
     std_sort_perm := @stable_insertion_sort_perm;
     std_sort_sorted := @stable_insertion_sort_sorted |}.

Lemma std_sort_nil {impl : StdSort} {A} (comp : A -> A -> bool) : std_sort comp [] = [].
Proof. apply Permutation_nil_r, std_sort_perm. Qed.

Lemma std_sort_length {impl : StdSort} {A} (comp : A -> A -> bool) l :
  length (std_sort comp l) = length l.
Proof. apply Permutation_length, std_sort_perm. Qed.

(** ** Binary search *)

Section binary_search.
Import BinarySearchVisualizer.

Lemma sorted_by_name_lookup (l : list Node) i j a b :
  sorted_wrt by_name l -> i < j ->
  vec_get l i = Some a -> vec_get l j = Some b ->
  String.compare (name b) (name a) <> Lt.
Proof.
  intros Hs Hij [? Ha]%vec_get_Some [? Hb]%vec_get_Some.
  assert (by_name b a = false) as Hba.
  { apply (strongly_sorted_lookup (fun a b => by_name b a = false) l
             (Z.to_nat i) (Z.to_nat j)); [done|lia|done..]. }
  unfold by_name in Hba. intros Hlt%string_ltb_lt. congruence.
Qed.

(** The loop: it returns within [fuel] iterations when [fuel] covers the
    range, with the range emptied or a match found. *)
Lemma search_loop_spec fuel (sortedNodes : list Node) q lo hi s :
  sorted_wrt by_name sortedNodes ->
  0 <= lo -> hi < Z.of_nat (length sortedNodes) -> lo <= hi + 1 ->
  hi - lo + 1 <= Z.of_nat fuel ->
  wp (search_loop fuel sortedNodes q lo hi)
     (fun exit s' =>
        exists trace,
          steps s' = steps s ++ trace /\
          (hi < lo -> trace = []) /\
          Forall (step_in_bounds (Z.of_nat (length sortedNodes))) trace /\
          0 <= exit.1.1 /\ exit.1.2 < Z.of_nat (length sortedNodes) /\
          ((exit.2 = -1 /\ exit.1.1 = exit.1.2 + 1 /\
            Forall unsuccessful trace /\
            forall k n, lo <= k <= hi -> vec_get sortedNodes k = Some n -> name n <> q)
           \/
           (exists n, vec_get sortedNodes exit.2 = Some n /\ name n = q /\
                      ends_in_match exit.2 trace)))
     s.
Proof.
  intros Hsorted. revert lo hi s.
  induction fuel as [|fuel IH]; intros lo hi s Hlo Hhi Hinv Hfuel; simpl.
  - destruct (Z.leb_spec lo hi); [lia|]. apply wp_ret.
    exists []. rewrite app_nil_r. simpl. repeat split; try done.
    left. repeat split; try done; [lia|]. intros; lia.
  - destruct (Z.leb_spec lo hi) as [Hle|Hgt].
    2:{ apply wp_ret. exists []. rewrite app_nil_r. simpl. repeat split; try done.
        left. repeat split; try done; [lia|]. intros; lia. }
    assert (lo <= lo + Z.quot (hi - lo) 2 <= hi) as Hmid
      by (Z.quot_rem_to_equations; lia).
    set (mid := lo + Z.quot (hi - lo) 2) in *.
    destruct (vec_get_in_range sortedNodes mid) as [n Hn]; [lia|].
    apply wp_bind. eapply wp_defined; [exact Hn|].
    apply wp_bind, wp_modify.
    destruct (String.compare q (name n)) eqn:Hcmp.
    + apply wp_bind, wp_modify, wp_ret. simpl.
      eexists [_; _]. rewrite <- app_assoc. simpl. split; [done|].
      split; [intros; lia|].
      split. { repeat constructor; simpl; lia. }
      split; [done|]. split; [done|].
      right. exists n. split; [done|].
      split. { symmetry. by apply String.compare_eq_iff. }
      eexists [], _, _. by repeat split.
    + apply wp_bind, wp_modify. eapply wp_mono.
      { apply IH; lia. }
      intros [[l r] fi] s' (trace & Hsteps & _ & Hbounds & ? & ? & Hcases). simpl in *.
      eexists (_ :: _ :: trace). rewrite Hsteps, <- !app_assoc. simpl.
      split; [done|].
      split; [intros; lia|].
      split. { repeat constructor; simpl; try lia; done. }
      split; [done|]. split; [done|].
      destruct Hcases as [(-> & -> & Hun & Hno)|(n' & Hn' & Hq & Hmatch)].
      * left. repeat split; try done. { by repeat constructor. }
        intros k n' Hk Hk' Hq. subst q.
        destruct (Z.le_gt_cases k (mid - 1));
          [exact (Hno k n' ltac:(lia) Hk' eq_refl)|].
        destruct (Z.eq_dec k mid) as [->|].
        { rewrite Hn in Hk'. injection Hk' as ->.
          by rewrite string_compare_refl in Hcmp. }
        eapply (sorted_by_name_lookup sortedNodes mid k); [done|lia|done..].
      * right. exists n'. repeat split; try done.
        destruct Hmatch as (before & check & hit & -> & ? & ?).
        eexists (_ :: _ :: before), check, hit.
        split; [done|]. split; [by repeat constructor|done].
    + apply wp_bind, wp_modify. eapply wp_mono.
      { apply IH; lia. }
      intros [[l r] fi] s' (trace & Hsteps & _ & Hbounds & ? & ? & Hcases). simpl in *.
      eexists (_ :: _ :: trace). rewrite Hsteps, <- !app_assoc. simpl.
      split; [done|].
      split; [intros; lia|].
      split. { repeat constructor; simpl; try lia; done. }
      split; [done|]. split; [done|].
      destruct Hcases as [(-> & -> & Hun & Hno)|(n' & Hn' & Hq & Hmatch)].
      * left. repeat split; try done. { by repeat constructor. }
        intros k n' Hk Hk' Hq. subst q.
        destruct (Z.le_gt_cases (mid + 1) k);
          [exact (Hno k n' ltac:(lia) Hk' eq_refl)|].
        destruct (Z.eq_dec k mid) as [->|].
        { rewrite Hn in Hk'. injection Hk' as ->.
          by rewrite string_compare_refl in Hcmp. }
        eapply (sorted_by_name_lookup sortedNodes k mid); [done|lia|done..|].
        by rewrite String.compare_antisym, Hcmp.
      * right. exists n'. repeat split; try done.
        destruct Hmatch as (before & check & hit & -> & ? & ?).
        eexists (_ :: _ :: before), check, hit.
        split; [done|]. split; [by repeat constructor|done].
Qed.

(** The whole of [search]: it returns; the response and the steps it
    appends to the trace are as follows. *)
Lemma search_spec {impl : StdSort} (g : Graph) q s :
  indexable (getNodes g) ->
  wp (search g q)
     (fun r s' =>
        exists start trace,
          steps s' = steps s ++ start :: trace /\
          Forall (step_in_bounds (Z.of_nat (length (getNodes g)))) (start :: trace) /\
          unsuccessful start /\
          SearchStep.action start = "Starting binary search"%string /\
          json_get "sortedArray" r
            = Some (JArray (map node_entry (std_sort by_name (getNodes g)))) /\
          json_get "steps" r
            = Some (JArray (map (fun st => SearchStep.toJSON st g) (steps s'))) /\
          ((json_get "found" r = Some (JBool false) /\
            json_get "result" r = None /\
            (forall n, n ∈ getNodes g -> name n <> q) /\
            exists probes final,
              trace = probes ++ [final] /\ (getNodes g = [] -> probes = []) /\
              Forall unsuccessful trace /\
              SearchStep.action final = "Not found"%string /\
              SearchStep.right final < SearchStep.left final)
           \/
           (exists i n,
              json_get "found" r = Some (JBool true) /\
              json_get "result" r = Some (node_result n) /\
              n ∈ getNodes g /\ name n = q /\
              ends_in_match i trace)))
     s.
Proof.
  intros Hfit. unfold search.
  change (fun a b : Node => String.ltb (name a) (name b)) with by_name.
  pose proof (std_sort_sorted _ by_name (getNodes g) by_name_strict_weak_order) as Hsorted.
  pose proof (std_sort_perm _ by_name (getNodes g)) as Hperm.
  pose proof (std_sort_length by_name (getNodes g)) as Hlen.
  set (sortedNodes := std_sort by_name (getNodes g)) in *.
  assert (indexable sortedNodes) as Hfit' by (unfold indexable in *; lia).
  rewrite (last_index_indexable sortedNodes Hfit').
  apply wp_bind, wp_modify, wp_bind.
  eapply wp_mono.
  { apply search_loop_spec; [done|lia..]. }
  intros [[l r] fi] s1 (trace & Hsteps & Hnil & Hbounds & Hl & Hr & Hcases). simpl in *.
  destruct Hcases as [(-> & -> & Hun & Hno)|(n & Hn & Hq & Hmatch)].
  - simpl. apply wp_bind, wp_modify. apply wp_bind, wp_ret.
    apply wp_bind, wp_gets, wp_ret. simpl.
    eexists _, (trace ++ [_]). rewrite Hsteps, <- !app_assoc. simpl.
    split; [done|]. json_lookup.
    split.
    { rewrite <- Hlen. constructor; [split; simpl; intros; lia|].
      apply Forall_app. split; [done|].
      constructor; [split; simpl; intros; lia|constructor]. }
    do 4 (split; [done|]).
    left. split; [done|]. split; [done|]. split.
    + intros n Hin Hname. rewrite <- Hperm in Hin.
      apply list_elem_of_lookup in Hin as [k Hk].
      apply (Hno (Z.of_nat k) n); [|by rewrite vec_get_of_nat|done].
      apply lookup_lt_Some in Hk. lia.
    + eexists trace, _. split; [done|].
      split. { intros Hempty. apply Hnil. rewrite Hlen, Hempty. simpl. lia. }
      split; [apply Forall_app; by repeat constructor|]. simpl. split; [done|lia].
  - pose proof (vec_get_range _ _ _ Hn) as Hfi.
    destruct (Z.eqb_spec fi (-1)) as [?|_]; [lia|]. simpl.
    apply wp_bind, wp_ret. apply wp_bind, wp_bind.
    eapply wp_defined; [exact Hn|]. apply wp_ret.
    apply wp_bind, wp_gets, wp_ret. simpl.
    eexists _, trace. rewrite Hsteps, <- !app_assoc. simpl.
    split; [done|]. json_lookup.
    split. { rewrite <- Hlen. constructor; [split; simpl; intros; lia|done]. }
    do 4 (split; [done|]).
    right. exists fi, n. do 2 (split; [done|]).
    split; [|done]. rewrite <- Hperm.
    apply vec_get_Some in Hn as [_ Hn]. by eapply list_elem_of_lookup_2.
Qed.

End binary_search.

Lemma node_result_carries n : carries_node (node_result n) n.
Proof. by repeat split. Qed.

Lemma ends_in_match_one_hit i trace : ends_in_match i trace -> at_most_one_hit trace.
Proof.
  intros (before & check & hit & -> & Hbefore & _ & _ & Hcheck & _ & _ & _).
  assert (forall k a, (before ++ [check; hit]) !! k = Some a ->
            SearchStep.found a = true -> k = S (length before)) as Hlast.
  { intros k a Hk Ha. apply lookup_app_Some in Hk as [Hk|[Hge Hk]].
    - rewrite Forall_forall in Hbefore.
      apply list_elem_of_lookup_2, Hbefore in Hk. unfold unsuccessful in Hk. congruence.
    - destruct (k - length before)%nat as [|[|?]] eqn:Hd; simpl in Hk; [|lia|done].
      injection Hk as <-. congruence. }
  intros k1 k2 a b Ha Hb Hfa Hfb.
  rewrite (Hlast k1 a), (Hlast k2 b); done.
Qed.

Lemma unsuccessful_one_hit trace : Forall unsuccessful trace -> at_most_one_hit trace.
Proof.
  intros Hall k1 k2 a b Ha _ Hfa _. rewrite Forall_forall in Hall.
  apply list_elem_of_lookup_2, Hall in Ha. unfold unsuccessful in Ha. congruence.
Qed.

Lemma ends_in_match_cons i start trace :
  unsuccessful start -> ends_in_match i trace -> ends_in_match i (start :: trace).
Proof.
  intros Hstart (before & check & hit & -> & Hbefore & Hrest).
  exists (start :: before), check, hit. split; [done|]. split; [by constructor|done].
Qed.

Lemma unique_names_injective (l : list Node) a b :
  NoDup (map name l) -> a ∈ l -> b ∈ l -> name a = name b -> a = b.
Proof.
  induction l as [|c l IH]; simpl; intros Hnd Ha Hb Hab; [by inv Ha|].
  apply NoDup_cons in Hnd as [Hc Hnd].
  inv Ha; inv Hb; try done.
  - exfalso. apply Hc. rewrite Hab. by apply (list_elem_of_fmap_2 name).
  - exfalso. apply Hc. rewrite <- Hab. by apply (list_elem_of_fmap_2 name).
  - by apply IH.
Qed.

(** C1. For every graph and every query string, [search] returns a
    response whose [found] is true exactly when some location's name is
    equal to the query, byte for byte; [result] is present exactly when
    [found] is true, and it then carries the id, name, type, x and y of a
    location whose name is the query.  (The graph is one an [int] can
    index.) *)
Theorem search_found_iff_name_present {impl : StdSort} (g : Graph) (q : string)
    (s : BinarySearchVisualizer.t) :
  indexable (getNodes g) ->
  exists r s',
    BinarySearchVisualizer.search g q s = Ok r s' /\
    search_response_correct g q r.
Proof.
  intros Hfit. destruct (proj1 (wp_returns _ _ _) (search_spec g q s Hfit))
    as (r & s' & Hrun & start & trace & _ & _ & _ & _ & _ & _ & Hcases).
  exists r, s'. split; [done|]. unfold search_response_correct.
  destruct Hcases as [(Hfound & Hres & Hno & _)|(i & n & Hfound & Hres & Hin & Hq & _)].
  - rewrite Hfound, Hres. split; [by right|]. split.
    { split; [done|]. intros (n & Hin & Hq). by destruct (Hno n Hin). }
    split; [|done]. split; [by intros [? ?]|done].
  - rewrite Hfound, Hres. split; [by left|]. split; [split; by eauto|].
    split; [split; by eauto|]. intros res [= <-]. exists n.
    auto using node_result_carries.
Qed.

Lemma search_found_iff_name_present_witness :
  indexable (getNodes campus3) /\
  exists r s',
    BinarySearchVisualizer.search (impl := stable_std_sort) campus3 "Library"
      BinarySearchVisualizer.new = Ok r s' /\
    search_response_correct campus3 "Library" r.
Proof.
  split; [by vm_compute|].
  apply (search_found_iff_name_present (impl := stable_std_sort)). by vm_compute.
Defined.

(** C7. For every graph and query, every step that [search] records
    satisfies [left <= right + 1], and [0 <= mid < size] whenever its [mid]
    is not [-1], where [size] is the number of locations; the [steps] of
    the response are these steps. *)
Theorem search_steps_in_bounds {impl : StdSort} (g : Graph) (q : string)
    (s : BinarySearchVisualizer.t) :
  indexable (getNodes g) ->
  exists r s' trace,
    BinarySearchVisualizer.search g q s = Ok r s' /\
    BinarySearchVisualizer.steps s' = BinarySearchVisualizer.steps s ++ trace /\
    json_get "steps" r
      = Some (JArray (map (fun st => SearchStep.toJSON st g)
                          (BinarySearchVisualizer.steps s'))) /\
    Forall (step_in_bounds (Z.of_nat (length (getNodes g)))) trace.
Proof.
  intros Hfit. destruct (proj1 (wp_returns _ _ _) (search_spec g q s Hfit))
    as (r & s' & Hrun & start & trace & Hsteps & Hbounds & _ & _ & _ & Hjson & _).
  by exists r, s', (start :: trace).
Qed.

Lemma search_steps_in_bounds_witness :
  indexable (getNodes campus3) /\
  exists r s' trace,
    BinarySearchVisualizer.search (impl := stable_std_sort) campus3 "Zzz"
      BinarySearchVisualizer.new = Ok r s' /\
    BinarySearchVisualizer.steps s'
      = BinarySearchVisualizer.steps BinarySearchVisualizer.new ++ trace /\
    json_get "steps" r
      = Some (JArray (map (fun st => SearchStep.toJSON st campus3)
                          (BinarySearchVisualizer.steps s'))) /\
    Forall (step_in_bounds (Z.of_nat (length (getNodes campus3)))) trace.
Proof.
  split; [by vm_compute|].
  apply (search_steps_in_bounds (impl := stable_std_sort)). by vm_compute.
Defined.

(** C10. Among the steps one [search] records, at most one has
    [found = true].  When the response says found, the trace ends with the
    "Checking middle element" step at the matching index, whose [found] is
    false, followed by the "Found!" step at the same index, whose [found] is
    true, and every step before them has [found = false]; otherwise every
    step has [found = false]. *)
Theorem search_single_hit_at_end {impl : StdSort} (g : Graph) (q : string)
    (s : BinarySearchVisualizer.t) :
  indexable (getNodes g) ->
  exists r s' trace,
    BinarySearchVisualizer.search g q s = Ok r s' /\
    BinarySearchVisualizer.steps s' = BinarySearchVisualizer.steps s ++ trace /\
    single_hit_at_end r trace.
Proof.
  intros Hfit. destruct (proj1 (wp_returns _ _ _) (search_spec g q s Hfit))
    as (r & s' & Hrun & start & trace & Hsteps & _ & Hstart & _ & _ & _ & Hcases).
  exists r, s', (start :: trace). do 2 (split; [done|]).
  unfold single_hit_at_end.
  destruct Hcases as [(Hfound & _ & _ & _ & _ & _ & _ & Hun & _)|(i & n & Hfound & _ & _ & _ & Hm)].
  - rewrite Hfound. assert (Forall unsuccessful (start :: trace)) by by constructor.
    split; [by apply unsuccessful_one_hit|]. by split.
  - rewrite Hfound. pose proof (ends_in_match_cons i start trace Hstart Hm).
    split; [by eapply ends_in_match_one_hit|]. split; [by eauto|done].
Qed.

Lemma search_single_hit_at_end_witness :
  indexable (getNodes campus3) /\
  exists r s' trace,
    BinarySearchVisualizer.search (impl := stable_std_sort) campus3 "Library"
      BinarySearchVisualizer.new = Ok r s' /\
    BinarySearchVisualizer.steps s'
      = BinarySearchVisualizer.steps BinarySearchVisualizer.new ++ trace /\
    single_hit_at_end r trace.
Proof.
  split; [by vm_compute|].
  apply (search_single_hit_at_end (impl := stable_std_sort)). by vm_compute.
Defined.

(** ** Swapping two cells of a vector *)

Lemma vec_swap_Some {A} (v : list A) i j v' :
  vec_swap v i j = Some v' <->
  exists a b, vec_get v i = Some a /\ vec_get v j = Some b /\
              v' = <[Z.to_nat j := a]> (<[Z.to_nat i := b]> v).
Proof.
  unfold vec_swap. destruct (vec_get v i) as [a|], (vec_get v j) as [b|];
    split; try done; try by intros (? & ? & ? & ? & ?).
  - intros [= <-]. by exists a, b.
  - by intros (? & ? & [= <-] & [= <-] & ->).
Qed.

Lemma vec_swap_in_range {A} (v : list A) i j :
  0 <= i < Z.of_nat (length v) -> 0 <= j < Z.of_nat (length v) ->
  is_Some (vec_swap v i j).
Proof.
  intros [a Ha]%vec_get_in_range [b Hb]%vec_get_in_range.
  unfold vec_swap. rewrite Ha, Hb. eauto.
Qed.

Lemma vec_swap_length {A} (v : list A) i j v' :
  vec_swap v i j = Some v' -> length v' = length v.
Proof. intros (a & b & _ & _ & ->)%vec_swap_Some. by rewrite !length_insert. Qed.

Lemma vec_swap_get {A} (v : list A) i j v' k :
  vec_swap v i j = Some v' ->
  vec_get v' k =
    if decide (k = j) then vec_get v i
    else if decide (k = i) then vec_get v j
    else vec_get v k.
Proof.
  intros (a & b & Ha & Hb & ->)%vec_swap_Some.
  pose proof (vec_get_range _ _ _ Ha). pose proof (vec_get_range _ _ _ Hb).
  unfold vec_get at 1. destruct (Z.leb_spec 0 k).
  2:{ repeat case_decide; try lia. unfold vec_get. by destruct (Z.leb_spec 0 k); [lia|]. }
  destruct (decide (k = j)) as [->|Hkj].
  { rewrite list_lookup_insert_eq; [done|]. rewrite length_insert. lia. }
  rewrite list_lookup_insert_ne by lia.
  destruct (decide (k = i)) as [->|Hki].
  { rewrite list_lookup_insert_eq; [done|lia]. }
  rewrite list_lookup_insert_ne by lia.
  unfold vec_get. by destruct (Z.leb_spec 0 k); [|lia].
Qed.

Lemma vec_swap_zip {A B} (v : list A) (w : list B) i j v' w' :
  vec_swap v i j = Some v' -> vec_swap w i j = Some w' ->
  zip v' w' ≡ₚ zip v w.
Proof.
  intros (a & b & [_ Ha]%vec_get_Some & [_ Hb]%vec_get_Some & ->)%vec_swap_Some.
  intros (a' & b' & [_ Ha']%vec_get_Some & [_ Hb']%vec_get_Some & ->)%vec_swap_Some.
  rewrite <- !(insert_zip_with pair).
  apply Permutation_insert_swap; rewrite lookup_zip_with.
  - by rewrite Ha, Ha'.
  - by rewrite Hb, Hb'.
Qed.

(** ** Quicksort: the working arrays *)

Section quicksort.
Import QuickSortVisualizer.

Lemma wp_distance_at i v (Q : Z -> t -> Prop) s :
  vec_get (distances s) i = Some v -> Q v s -> wp (distance_at i) Q s.
Proof.
  intros Hv HQ. unfold distance_at. apply wp_bind, wp_gets. by eapply wp_defined.
Qed.

Lemma wp_name_at i v (Q : string -> t -> Prop) s :
  vec_get (names s) i = Some v -> Q v s -> wp (name_at i) Q s.
Proof.
  intros Hv HQ. unfold name_at. apply wp_bind, wp_gets. by eapply wp_defined.
Qed.

Lemma wp_swap_distances i j d' (Q : unit -> t -> Prop) s :
  vec_swap (distances s) i j = Some d' ->
  Q tt (mk (steps s) (stepNum s) d' (names s)) ->
  wp (swap_distances i j) Q s.
Proof.
  intros Hd HQ. unfold swap_distances. apply wp_bind, wp_gets, wp_bind.
  eapply wp_defined; [exact Hd|]. by apply wp_modify.
Qed.

Lemma wp_swap_names i j n' (Q : unit -> t -> Prop) s :
  vec_swap (names s) i j = Some n' ->
  Q tt (mk (steps s) (stepNum s) (distances s) n') ->
  wp (swap_names i j) Q s.
Proof.
  intros Hn HQ. unfold swap_names. apply wp_bind, wp_gets, wp_bind.
  eapply wp_defined; [exact Hn|]. by apply wp_modify.
Qed.

Lemma rearranged_refl low high s : rearranged low high s s.
Proof. unfold rearranged. repeat split; try done. intros k Hk. by exists k. Qed.

Lemma rearranged_trans low high s1 s2 s3 :
  rearranged low high s1 s2 -> rearranged low high s2 s3 -> rearranged low high s1 s3.
Proof.
  intros (Hd1 & Hn1 & Hp1 & Hout1 & Hin1) (Hd2 & Hn2 & Hp2 & Hout2 & Hin2).
  unfold rearranged. split; [congruence|]. split; [congruence|].
  split; [by rewrite Hp2|]. split.
  - intros k Hk. by rewrite Hout2, Hout1.
  - intros k Hk. destruct (Hin2 k Hk) as (k' & Hk' & ->).
    destruct (Hin1 k' Hk') as (k'' & Hk'' & ->). by exists k''.
Qed.

Lemma rearranged_widen low high low' high' s s' :
  low' <= low -> high <= high' ->
  rearranged low high s s' -> rearranged low' high' s s'.
Proof.
  intros Hlow Hhigh (Hd & Hn & Hp & Hout & Hin).
  unfold rearranged. do 3 (split; [done|]). split.
  - intros k Hk. apply Hout. lia.
  - intros k Hk. destruct (decide (low <= k <= high)) as [Hk'|Hk'].
    + destruct (Hin k Hk') as (k' & ? & ?). exists k'. split; [lia|done].
    + exists k. split; [done|]. by apply Hout.
Qed.

Lemma rearranged_arrays low high s s' u u' :
  distances u = distances s -> names u = names s ->
  distances u' = distances s' -> names u' = names s' ->
  rearranged low high s s' -> rearranged low high u u'.
Proof. unfold rearranged. by intros -> -> -> ->. Qed.

Lemma rearranged_swap low high s i j d' n' recorded num :
  low <= i <= high -> low <= j <= high ->
  vec_swap (distances s) i j = Some d' -> vec_swap (names s) i j = Some n' ->
  rearranged low high s (mk recorded num d' n').
Proof.
  intros Hi Hj Hd Hn. unfold rearranged. simpl.
  split; [by eapply vec_swap_length|]. split; [by eapply vec_swap_length|].
  split; [by eapply vec_swap_zip|]. split.
  - intros k Hk. rewrite (vec_swap_get _ _ _ _ k Hd). by repeat case_decide; try lia.
  - intros k Hk. rewrite (vec_swap_get _ _ _ _ k Hd).
    repeat case_decide; eauto.
Qed.

Lemma scanned_keep d pivot low i j dj :
  scanned d pivot low i j -> vec_get d j = Some dj -> pivot <= dj ->
  scanned d pivot low i (j + 1).
Proof.
  intros [Hlt Hge] Hdj Hle. split; [done|]. intros m v Hm Hv.
  destruct (decide (m = j)) as [->|]; [congruence|]. apply (Hge m); [lia|done].
Qed.

Lemma scanned_swap d pivot low i j dj d' :
  scanned d pivot low i j -> i < j -> vec_get d j = Some dj -> dj < pivot ->
  vec_swap d (i + 1) j = Some d' ->
  scanned d' pivot low (i + 1) (j + 1).
Proof.
  intros [Hlt Hge] Hij Hdj Hdjlt Hswap. split; intros m v Hm;
    rewrite (vec_swap_get _ _ _ _ m Hswap); repeat case_decide; subst; intros Hv;
    try lia.
  - replace (i + 1) with j in Hv by lia. by simplify_eq.
  - by simplify_eq.
  - apply (Hlt m); [lia|done].
  - apply (Hge (i + 1)); [lia|done].
  - apply (Hge m); [lia|done].
Qed.

Lemma scanned_place d pivot low i high d' :
  scanned d pivot low i high -> i < high ->
  vec_get d high = Some pivot ->
  vec_swap d (i + 1) high = Some d' ->
  partitioned d' low (i + 1) high.
Proof.
  intros [Hlt Hge] Hi Hpivot Hswap. exists pivot.
  rewrite (vec_swap_get _ _ _ _ (i + 1) Hswap). split.
  { repeat case_decide; try done; congruence. }
  split; intros k v Hk; rewrite (vec_swap_get _ _ _ _ k Hswap);
    repeat case_decide; subst; intros Hv; try lia.
  - apply (Hlt k); [lia|done].
  - apply (Hge (i + 1)); [lia|done].
  - apply (Hge k); [lia|done].
Qed.

Lemma appends_refl P s : appends P s s.
Proof. exists []. by rewrite app_nil_r. Qed.

Lemma appends_trans P s1 s2 s3 : appends P s1 s2 -> appends P s2 s3 -> appends P s1 s3.
Proof.
  intros (t1 & H1 & Hall1) (t2 & H2 & Hall2). exists (t1 ++ t2).
  rewrite H2, H1, app_assoc. split; [done|]. by apply Forall_app.
Qed.

Lemma appends_record (P : SortStep.t -> Prop) s st num d n :
  P st -> appends P s (mk (steps s ++ [st]) num d n).
Proof. intros HP. exists [st]. split; [done|]. by repeat constructor. Qed.

(** One iteration of the scan. *)
Lemma partition_step_spec pivot low high j i s0 s :
  low - 1 <= i < j -> 0 <= low <= j -> j < high ->
  high < Z.of_nat (length (distances s0)) -> aligned s0 ->
  rearranged low (high - 1) s0 s ->
  scanned (distances s) pivot low i j ->
  appends place_pivot_ok s0 s ->
  wp (partition_step pivot low high j i)
     (fun i' s' =>
        low - 1 <= i' < j + 1 /\
        rearranged low (high - 1) s0 s' /\
        scanned (distances s') pivot low i' (j + 1) /\
        appends place_pivot_ok s0 s')
     s.
Proof.
  intros Hi Hj Hjh Hhigh Halign Hre Hscan (trace & Hsteps & Hall).
  pose proof Hre as (Hld & Hln & _). unfold aligned in Halign.
  destruct (vec_get_in_range (distances s) j) as [dj Hdj]; [lia|].
  destruct (vec_get_in_range (names s) j) as [nj Hnj]; [lia|].
  unfold partition_step.
  apply wp_bind. eapply wp_distance_at; [exact Hdj|].
  apply wp_bind. eapply wp_name_at; [exact Hnj|].
  apply wp_bind, wp_modify.
  destruct (Z.ltb_spec dj pivot) as [Hlt|Hge].
  - destruct (vec_swap_in_range (distances s) (i + 1) j) as [d' Hd']; [lia..|].
    destruct (vec_swap_in_range (names s) (i + 1) j) as [n' Hn']; [lia..|].
    pose proof (vec_swap_length _ _ _ _ Hn') as Hlen'.
    destruct (vec_get_in_range n' (i + 1)) as [ni' Hni']; [lia|].
    destruct (vec_get_in_range n' j) as [nj' Hnj']; [lia|].
    apply wp_bind. eapply wp_swap_distances; [exact Hd'|].
    apply wp_bind. eapply wp_swap_names; [exact Hn'|].
    apply wp_bind. eapply wp_name_at; [exact Hni'|].
    apply wp_bind. eapply wp_name_at; [exact Hnj'|].
    apply wp_bind, wp_modify, wp_ret. simpl.
    split; [lia|]. split.
    { eapply rearranged_trans; [exact Hre|].
      eapply rearranged_swap; [| |exact Hd'|exact Hn']; lia. }
    split; [by eapply scanned_swap; [| |exact Hdj|..]; [|lia|..]|].
    eexists (trace ++ [_; _]). rewrite Hsteps, <- !app_assoc. split; [done|].
    apply Forall_app. split; [done|]. by repeat constructor.
  - apply wp_ret. simpl.
    split; [lia|]. split; [by eapply rearranged_arrays; [..|exact Hre]|].
    split; [by eapply scanned_keep|].
    eexists (trace ++ [_]). rewrite Hsteps, <- !app_assoc. split; [done|].
    apply Forall_app. split; [done|]. by repeat constructor.
Qed.

(** [partition] over [low..high], [low <= high], in range. *)
Lemma partition_spec low high s :
  0 <= low <= high -> high < Z.of_nat (length (distances s)) -> aligned s ->
  wp (partition low high)
     (fun p s' =>
        low <= p <= high /\
        rearranged low high s s' /\
        partitioned (distances s') low p high /\
        appends place_pivot_ok s s')
     s.
Proof.
  intros Hlow Hhigh Halign. unfold aligned in Halign.
  destruct (vec_get_in_range (distances s) high) as [pivot Hpivot]; [lia|].
  destruct (vec_get_in_range (names s) high) as [pivotName HpivotName]; [lia|].
  unfold partition.
  apply wp_bind. eapply wp_distance_at; [exact Hpivot|].
  apply wp_bind. eapply wp_name_at; [exact HpivotName|].
  apply wp_bind, wp_modify.
  match goal with |- wp _ _ ?st => set (s1 := st) end.
  assert (rearranged low (high - 1) s s1) as Hre1
    by (eapply rearranged_arrays; [..|apply rearranged_refl]; done).
  assert (appends place_pivot_ok s s1) as Happ1
    by (by apply appends_record).
  apply wp_bind. eapply wp_mono.
  { apply (wp_for_range (fun k i s' =>
       low - 1 <= i < low + Z.of_nat k /\
       rearranged low (high - 1) s s' /\
       scanned (distances s') pivot low i (low + Z.of_nat k) /\
       appends place_pivot_ok s s')).
    - split; [lia|]. split; [done|]. split; [|done]. split; intros; lia.
    - intros k i s' Hk (Hi & Hre & Hscan & Happ).
      eapply wp_mono.
      { apply (partition_step_spec pivot low high (low + Z.of_nat k) i s s');
          try done; lia. }
      intros i' s'' (Hi' & Hre' & Hscan' & Happ').
      replace (low + Z.of_nat (S k)) with (low + Z.of_nat k + 1) by lia. done. }
  intros i s2 (Hi & Hre & Hscan & trace & Hsteps & Hall).
  replace (low + Z.of_nat (Z.to_nat (high - low))) with high in * by lia.
  pose proof Hre as (Hld & Hln & _ & Hout & _).
  assert (vec_get (distances s2) high = Some pivot) as Hpivot2
    by (rewrite Hout; [done|lia]).
  destruct (vec_swap_in_range (distances s2) (i + 1) high) as [d' Hd']; [lia..|].
  destruct (vec_swap_in_range (names s2) (i + 1) high) as [n' Hn']; [lia..|].
  pose proof (vec_swap_length _ _ _ _ Hn') as Hlen'.
  destruct (vec_get_in_range n' (i + 1)) as [placed Hplaced]; [lia|].
  apply wp_bind. eapply wp_swap_distances; [exact Hd'|].
  apply wp_bind. eapply wp_swap_names; [exact Hn'|].
  apply wp_bind. eapply wp_name_at; [exact Hplaced|].
  apply wp_bind, wp_modify, wp_ret. simpl.
  assert (partitioned d' low (i + 1) high) as Hpart
    by (by eapply scanned_place; [| |exact Hpivot2|]; [|lia|]).
  split; [lia|]. split.
  { eapply rearranged_trans.
    - eapply rearranged_widen; [| |exact Hre]; lia.
    - eapply rearranged_swap; [| |exact Hd'|exact Hn']; lia. }
  split; [done|].
  eexists (trace ++ [_]). rewrite Hsteps, <- !app_assoc. split; [done|].
  apply Forall_app. split; [done|]. constructor; [|constructor]. intros _. simpl.
  pose proof (vec_swap_length _ _ _ _ Hd'). do 3 (split; [lia|]). done.
Qed.

Lemma rearranged_aligned low high s s' : rearranged low high s s' -> aligned s -> aligned s'.
Proof. unfold aligned. intros (Hd & Hn & _). lia. Qed.

Lemma sorted_after_partition low p high s1 s2 s3 :
  low <= p <= high ->
  partitioned (distances s1) low p high ->
  rearranged low (p - 1) s1 s2 -> rearranged (p + 1) high s2 s3 ->
  sorted_between (distances s2) low (p - 1) ->
  sorted_between (distances s3) (p + 1) high ->
  sorted_between (distances s3) low high.
Proof.
  intros Hp (pv & Hpv & Hlt & Hge) (_ & _ & _ & Hout2 & Hin2) (_ & _ & _ & Hout3 & Hin3)
    Hsorted2 Hsorted3.
  assert (forall k, k <= p -> vec_get (distances s3) k = vec_get (distances s2) k)
    as Hleft by (intros; apply Hout3; lia).
  assert (forall k v, low <= k < p -> vec_get (distances s3) k = Some v -> v < pv) as Hbelow.
  { intros k v Hk. rewrite Hleft by lia.
    destruct (Hin2 k) as (k' & Hk' & ->); [lia|]. apply Hlt. lia. }
  assert (vec_get (distances s3) p = Some pv) as Hpivot.
  { rewrite Hleft by lia. rewrite Hout2 by lia. done. }
  assert (forall k v, p < k <= high -> vec_get (distances s3) k = Some v -> pv <= v) as Habove.
  { intros k v Hk. destruct (Hin3 k) as (k' & Hk' & ->); [lia|].
    rewrite Hout2 by lia. apply Hge. lia. }
  intros i j a b Hi Hij Hj Ha Hb.
  destruct (Z.lt_trichotomy i p) as [?|[->|?]], (Z.lt_trichotomy j p) as [?|[->|?]];
    try lia.
  - rewrite Hleft in Ha, Hb by lia. apply (Hsorted2 i j); (lia || done).
  - specialize (Hbelow i a ltac:(lia) Ha). simplify_eq. lia.
  - specialize (Hbelow i a ltac:(lia) Ha). specialize (Habove j b ltac:(lia) Hb). lia.
  - simplify_eq. lia.
  - specialize (Habove j b ltac:(lia) Hb). simplify_eq. lia.
  - apply (Hsorted3 i j); (lia || done).
Qed.

(** [quicksort] over [low..high]: it returns when [fuel] covers the range;
    the range comes out sorted, as a rearrangement of itself, and every
    "Place pivot" step recorded on the way shows a partitioned range. *)
Lemma quicksort_spec fuel low high s :
  0 <= low -> high < Z.of_nat (length (distances s)) -> aligned s ->
  high - low <= Z.of_nat fuel ->
  wp (quicksort fuel low high)
     (fun _ s' =>
        rearranged low high s s' /\
        sorted_between (distances s') low high /\
        appends place_pivot_ok s s')
     s.
Proof.
  revert low high s. induction fuel as [|fuel IH];
    intros low high s Hlow Hhigh Halign Hfuel; simpl;
    destruct (Z.ltb_spec low high) as [Hlt|Hge]; try lia.
  1,3: apply wp_ret; split; [apply rearranged_refl|]; split; [|apply appends_refl];
       intros i j a b ? ? ? Ha Hb; assert (i = j) as -> by lia; simplify_eq; lia.
  apply wp_bind, wp_modify.
  match goal with |- wp _ _ ?st => set (s0 := st) end.
  assert (rearranged low high s s0) as Hre0
    by (eapply rearranged_arrays; [..|apply rearranged_refl]; done).
  assert (appends place_pivot_ok s s0) as Happ0 by (by apply appends_record).
  apply wp_bind. eapply wp_mono; [apply partition_spec; [lia|done|done]|].
  intros p s1 (Hp & Hre1 & Hpart & Happ1).
  pose proof Hre1 as (Hld1 & _). pose proof (rearranged_aligned _ _ _ _ Hre1 Halign).
  apply wp_bind. eapply wp_mono; [apply IH; [lia|simpl in *; lia|done|lia]|].
  intros [] s2 (Hre2 & Hsorted2 & Happ2).
  pose proof Hre2 as (Hld2 & _). pose proof (rearranged_aligned _ _ _ _ Hre2 ltac:(done)).
  eapply wp_mono; [apply IH; [lia|simpl in *; lia|done|lia]|].
  intros [] s3 (Hre3 & Hsorted3 & Happ3).
  split.
  { eapply rearranged_trans; [exact Hre0|]. eapply rearranged_trans; [exact Hre1|].
    eapply rearranged_trans; (eapply rearranged_widen; [| |eassumption]; lia). }
  split; [by eapply sorted_after_partition|].
  eauto using appends_trans.
Qed.

(** ** Quicksort: preprocessing and response *)

Lemma wp_getNode g i n (Q : Node -> t -> Prop) s :
  vec_get (nodes g) i = Some n -> Q n s -> wp (getNode g i) Q s.
Proof. intros Hn HQ. unfold getNode. by rewrite Hn. Qed.

Lemma others_snoc ref (l : list Node) n :
  others ref (l ++ [n]) =
    if decide (length l = Z.to_nat ref) then others ref l else others ref l ++ [n].
Proof.
  unfold others. case_decide as Hlen.
  - rewrite <- Hlen. rewrite take_app_length, firstn_all.
    rewrite !drop_ge; [done|lia|rewrite length_app; simpl; lia].
  - destruct (decide (length l < Z.to_nat ref)%nat).
    + rewrite !take_ge, !drop_ge; rewrite ?length_app; simpl; try lia.
      by rewrite !app_nil_r.
    + rewrite take_app_le, drop_app_le by lia. by rewrite app_assoc.
Qed.

Lemma elem_of_others ref (l : list Node) k n :
  l !! k = Some n -> k <> Z.to_nat ref -> n ∈ others ref l.
Proof.
  intros Hk Hne. unfold others. apply elem_of_app.
  destruct (decide (k < Z.to_nat ref)%nat).
  - left. apply list_elem_of_lookup. exists k. by rewrite lookup_take_lt.
  - right. apply list_elem_of_lookup. exists (k - S (Z.to_nat ref))%nat.
    rewrite lookup_drop. by replace (S (Z.to_nat ref) + (k - S (Z.to_nat ref)))%nat with k by lia.
Qed.

Lemma measured_functional referenceNode n p1 p2 :
  measured referenceNode n = Some p1 -> measured referenceNode n = Some p2 -> p1 = p2.
Proof. congruence. Qed.

(** The preprocessing loop fills the arrays with the pairs, in order. *)
Lemma measure_loop_spec g ref referenceNode pairs s :
  preprocessing g ref referenceNode pairs ->
  distances s = [] -> names s = [] ->
  wp (for_range (length (nodes g)) 0 (measure g ref referenceNode) tt)
     (fun _ s' =>
        zip (distances s') (names s') = pairs /\ aligned s' /\
        steps s' = steps s /\ stepNum s' = stepNum s)
     s.
Proof.
  intros [Href Hpairs] Hd Hn.
  pose proof (vec_get_range _ _ _ Href) as Hrange.
  eapply wp_mono.
  { apply (wp_for_range (fun k _ s' =>
       Forall2 (fun n p => measured referenceNode n = Some p)
               (others ref (take k (nodes g))) (zip (distances s') (names s')) /\
       aligned s' /\ steps s' = steps s /\ stepNum s' = stepNum s)).
    - rewrite Hd, Hn. unfold others, aligned. rewrite Hd, Hn.
      by rewrite take_0, take_nil, drop_nil.
    - intros k [] s' Hk (Hdone & Halign & Hsteps & HstepNum).
      destruct (lookup_lt_is_Some_2 (nodes g) k Hk) as [n Hnode].
      rewrite (take_S_r _ _ _ Hnode), others_snoc, length_take_le by lia.
      unfold measure. rewrite Z.add_0_l.
      destruct (Z.eqb_spec (Z.of_nat k) ref) as [Heq|Hne]; simpl.
      + apply wp_ret. rewrite decide_True by lia. done.
      + rewrite decide_False by lia.
        assert (n ∈ others ref (nodes g)) as Hin by (eapply elem_of_others; [done|lia]).
        apply list_elem_of_lookup in Hin as [m Hm].
        destruct (Forall2_lookup_l _ _ _ _ _ Hpairs Hm) as ([distance nm] & _ & Hmeasured).
        unfold measured in Hmeasured.
        destruct (double_to_int _) as [distance'|] eqn:Hdist; [|done].
        injection Hmeasured as <- <-.
        apply wp_bind. eapply wp_getNode; [by rewrite vec_get_of_nat|].
        apply wp_bind. eapply wp_defined; [exact Hdist|].
        apply wp_bind, wp_gets, wp_bind, wp_modify, wp_bind, wp_gets, wp_modify.
        simpl. unfold aligned in *. simpl.
        split; [|split; [rewrite !length_app; simpl; lia|done]].
        rewrite (zip_with_app pair) by done.
        apply Forall2_app; [done|]. repeat constructor.
        unfold measured. by rewrite Hdist. }
  intros [] s' (Hdone & Halign & Hsteps & HstepNum). rewrite firstn_all in Hdone.
  split; [|done]. eapply Forall2_unique; [exact Hdone|exact Hpairs|].
  apply measured_functional.
Qed.

(** The loop that builds [sortedLocations]. *)
Lemma location_entries_spec s :
  aligned s ->
  wp (for_range (length (distances s)) 0 location_entry [])
     (fun entries s' =>
        s' = s /\ entries = map location_json (zip (distances s) (names s)))
     s.
Proof.
  intros Halign. unfold aligned in Halign. eapply wp_mono.
  { apply (wp_for_range (fun k entries s' =>
       s' = s /\ entries = map location_json (take k (zip (distances s) (names s))))).
    - by rewrite take_0.
    - intros k entries s' Hk [-> ->]. rewrite Z.add_0_l.
      destruct (lookup_lt_is_Some_2 (distances s) k Hk) as [d Hd].
      destruct (lookup_lt_is_Some_2 (names s) k) as [n Hn]; [lia|].
      unfold location_entry.
      apply wp_bind. eapply wp_name_at; [by rewrite vec_get_of_nat|].
      apply wp_bind. eapply wp_distance_at; [by rewrite vec_get_of_nat|].
      apply wp_ret. split; [done|].
      rewrite (take_S_r _ _ (d, n)), map_app; [done|].
      rewrite lookup_zip_with, Hd. simpl. by rewrite Hn. }
  intros entries s' [-> ->]. split; [done|].
  rewrite take_ge; [done|]. rewrite length_zip_with. lia.
Qed.

Lemma strongly_sorted_of_lookup {A} (R : relation A) (l : list A) :
  (forall i j a b, (i < j)%nat -> l !! i = Some a -> l !! j = Some b -> R a b) ->
  StronglySorted R l.
Proof.
  induction l as [|c l IH]; intros Hl; constructor.
  - apply IH. intros i j a b Hij Ha Hb. apply (Hl (S i) (S j)); [lia|done..].
  - apply Forall_forall. intros b [j Hj]%list_elem_of_lookup.
    apply (Hl O (S j)); [lia|done..].
Qed.

Lemma sorted_pairs (d : list Z) (n : list string) :
  sorted_between d 0 (Z.of_nat (length d) - 1) ->
  StronglySorted by_distance (zip d n).
Proof.
  intros Hsorted. apply strongly_sorted_of_lookup.
  intros i j [a na] [b nb] Hij Ha Hb.
  apply lookup_zip_with_Some in Ha as (? & ? & [= <- <-] & Ha & _).
  apply lookup_zip_with_Some in Hb as (? & ? & [= <- <-] & Hb & _).
  unfold by_distance. simpl.
  apply (Hsorted (Z.of_nat i) (Z.of_nat j)); rewrite ?vec_get_of_nat; try done; try lia.
  apply lookup_lt_Some in Hb. lia.
Qed.

Lemma others_length ref (l : list Node) n :
  vec_get l ref = Some n -> S (length (others ref l)) = length l.
Proof.
  intros Hn. pose proof (vec_get_range _ _ _ Hn).
  unfold others. rewrite length_app, length_take, length_drop. lia.
Qed.

Lemma preprocessing_length g ref referenceNode pairs :
  preprocessing g ref referenceNode pairs -> S (length pairs) = length (nodes g).
Proof.
  intros [Href Hpairs]. rewrite <- (Forall2_length _ _ _ Hpairs).
  by eapply others_length.
Qed.

(** The whole of [sort] on a valid reference: it returns; the response and
    the steps it appends to the trace are as follows. *)
Lemma sort_spec g ref referenceNode pairs s :
  indexable (nodes g) ->
  preprocessing g ref referenceNode pairs ->
  wp (sort g ref)
     (fun r s' =>
        exists initial trace final,
          steps s' = steps s ++ initial :: trace ++ [final] /\
          SortStep.action initial = "Initial array"%string /\
          zip (SortStep.array initial) (SortStep.names initial) = pairs /\
          SortStep.action final = "Sorted!"%string /\
          SortStep.array final = distances s' /\
          SortStep.names final = names s' /\
          Forall place_pivot_ok trace /\
          (pairs = [] -> trace = []) /\
          zip (distances s') (names s') ≡ₚ pairs /\
          StronglySorted by_distance (zip (distances s') (names s')) /\
          json_get "sortedLocations" r
            = Some (JArray (map location_json (zip (distances s') (names s')))) /\
          json_get "steps" r = Some (JArray (map SortStep.toJSON (steps s'))) /\
          json_get "referenceName" r = Some (JString (name referenceNode)) /\
          length (SortStep.names initial) = length (SortStep.array initial) /\
          aligned s')
     s.
Proof.
  intros Hfit Hpre. pose proof Hpre as [Href _].
  pose proof (preprocessing_length _ _ _ _ Hpre) as Hcount.
  unfold sort, size. rewrite to_int_id, Nat2Z.id
    by (unfold indexable, INT_MIN, INT_MAX in *; lia).
  apply wp_bind, wp_modify, wp_bind, wp_modify.
  apply wp_bind. eapply wp_getNode; [exact Href|].
  apply wp_bind. eapply wp_mono; [by apply (measure_loop_spec g ref referenceNode pairs)|].
  intros [] s1 (Hzip & Halign & Hsteps1 & _). simpl in Hsteps1.
  assert (length (distances s1) = length pairs) as Hlen.
  { rewrite <- Hzip, length_zip_with. unfold aligned in Halign. lia. }
  assert (indexable (distances s1)) as Hfit1 by (unfold indexable in *; lia).
  apply wp_bind, wp_gets. rewrite (last_index_indexable _ Hfit1).
  apply wp_bind, wp_modify.
  match goal with |- wp _ _ ?st => set (s2 := st) end.
  apply wp_bind.
  apply (wp_mono _ (fun _ s3 =>
           rearranged 0 (Z.of_nat (length (distances s1)) - 1) s2 s3 /\
           sorted_between (distances s3) 0 (Z.of_nat (length (distances s1)) - 1) /\
           appends place_pivot_ok s2 s3 /\
           (distances s1 = [] -> s3 = s2))).
  { case_bool_decide as Hempty.
    - apply wp_ret. split; [apply rearranged_refl|]. split; [|split; [apply appends_refl|done]].
      intros i j a b ? ? ?.
      assert (length (distances s1) = 0%nat) by (by rewrite Hempty). lia.
    - eapply wp_mono; [apply quicksort_spec; [lia|simpl; lia|done|lia]|].
      intros [] s3 (? & ? & ?). done. }
  intros [] s3 (Hre & Hsorted & (trace & Hsteps3 & Hall) & Hempty).
  pose proof Hre as (Hld & _ & Hperm & _). simpl in Hld, Hperm.
  pose proof (rearranged_aligned _ _ _ _ Hre Halign) as Halign3.
  apply wp_bind, wp_gets. rewrite last_index_indexable
    by (unfold indexable in *; lia).
  apply wp_bind, wp_modify.
  apply wp_bind. eapply wp_mono.
  { match goal with |- wp _ _ ?st => apply (location_entries_spec st) end. done. }
  intros entries s4 [-> ->].
  apply wp_bind, wp_gets, wp_ret. simpl.
  eexists _, trace, _. rewrite Hsteps3. simpl. rewrite Hsteps1, <- !app_assoc. simpl.
  split; [done|]. json_lookup.
  do 6 (split; [done|]).
  split.
  { intros ->. rewrite Hempty in Hsteps3.
    - apply (f_equal length) in Hsteps3. rewrite !length_app in Hsteps3.
      destruct trace; [done|simpl in *; lia].
    - apply length_zero_iff_nil. by rewrite Hlen. }
  split; [by rewrite Hperm, Hzip|].
  split; [apply sorted_pairs; by rewrite Hld|]. by do 3 (split; [done|]).
Qed.

End quicksort.

Lemma zip_nil_aligned {A B} (d : list A) (n : list B) :
  length n = length d -> zip d n = [] -> d = [].
Proof. by destruct d, n. Qed.

(** ** Sample runs *)

Lemma campus4_preprocessing :
  preprocessing campus4 0 (mkNode 0 "A" "hall" 0 0)
    [(5, "B"%string); (5, "C"%string); (1, "D"%string)].
Proof. split; [done|]. repeat constructor. Qed.

Lemma campus4_indexable : indexable (nodes campus4).
Proof. by vm_compute. Qed.

Example double_to_int_truncates :
  double_to_int 2.75 = Some 2 /\ double_to_int (-2.75) = Some (-2) /\
  double_to_int 2147483647.5 = Some INT_MAX /\ double_to_int 1e10 = None /\
  double_to_int infinity = None /\ double_to_int nan = None.
Proof. by vm_compute. Qed.

Example campus3_sorted_by_name :
  map name (std_sort (StdSort := stable_std_sort) by_name (getNodes campus3))
    = ["Cafeteria"; "Gym"; "Library"]%string.
Proof. by vm_compute. Qed.

Example campus3_search_library :
  match searchBuilding (impl := stable_std_sort) campus3 "Library" with
  | Ok _ s' =>
      map (fun st => (SearchStep.action st, SearchStep.left st, SearchStep.right st,
                      SearchStep.mid st, SearchStep.found st))
          (BinarySearchVisualizer.steps s')
      = [("Starting binary search", 0, 2, -1, false);
         ("Checking middle element", 0, 2, 1, false);
         ("Search right half", 2, 2, 1, false);
         ("Checking middle element", 2, 2, 2, false);
         ("Found!", 2, 2, 2, true)]%string
  | Throw _ _ => False
  end.
Proof. by vm_compute. Qed.

Example campus3_search_zzz :
  match searchBuilding (impl := stable_std_sort) campus3 "Zzz" with
  | Ok _ s' =>
      map (fun st => (SearchStep.action st, SearchStep.left st, SearchStep.right st,
                      SearchStep.mid st, SearchStep.found st))
          (BinarySearchVisualizer.steps s')
      = [("Starting binary search", 0, 2, -1, false);
         ("Checking middle element", 0, 2, 1, false);
         ("Search right half", 2, 2, 1, false);
         ("Checking middle element", 2, 2, 2, false);
         ("Search right half", 3, 2, 2, false);
         ("Not found", 3, 2, -1, false)]%string
  | Throw _ _ => False
  end.
Proof. by vm_compute. Qed.

Lemma sort_complexity_wlp g ref s :
  wlp (QuickSortVisualizer.sort g ref) (fun r _ => complexity_as_coded r) s.
Proof.
  unfold QuickSortVisualizer.sort.
  do 10 (apply wlp_bind, wlp_any; intros).
  apply wlp_ret. unfold complexity_as_coded. json_lookup. eexists. split; [done|].
  by repeat split.
Qed.

(** C2. For every graph (one an [int] can index) and every valid reference
    node id, with the distances of the preprocessing defined, [sort]
    returns; its [sortedLocations] is non-decreasing by distance and its
    (distance, name) pairs are a permutation of the pairs computed in
    preprocessing, one for each location other than the reference, so that
    its length is the number of locations minus one. *)
Theorem sort_sorted_permutation (g : Graph) (ref : Z) (referenceNode : Node)
    (pairs : list (Z * string)) (s : QuickSortVisualizer.t) :
  indexable (nodes g) ->
  preprocessing g ref referenceNode pairs ->
  exists r s',
    QuickSortVisualizer.sort g ref s = Ok r s' /\
    sorted_locations_correct g pairs r.
Proof.
  intros Hfit Hpre.
  destruct (proj1 (wp_returns _ _ _) (sort_spec g ref referenceNode pairs s Hfit Hpre))
    as (r & s' & Hrun & initial & trace & final & _ & _ & _ & _ & _ & _ & _ & _ &
        Hperm & Hsorted & Hjson & _).
  exists r, s'. split; [done|]. eexists. do 3 (split; [done|]).
  rewrite Hperm. pose proof (preprocessing_length _ _ _ _ Hpre). lia.
Qed.

Lemma sort_sorted_permutation_witness :
  indexable (nodes campus4) /\
  preprocessing campus4 0 (mkNode 0 "A" "hall" 0 0)
    [(5, "B"%string); (5, "C"%string); (1, "D"%string)] /\
  exists r s',
    QuickSortVisualizer.sort campus4 0 QuickSortVisualizer.new = Ok r s' /\
    sorted_locations_correct campus4
      [(5, "B"%string); (5, "C"%string); (1, "D"%string)] r.
Proof.
  split; [by vm_compute|]. split; [split; [done|repeat constructor]|].
  apply (sort_sorted_permutation campus4 0 (mkNode 0 "A" "hall" 0 0)).
  - by vm_compute.
  - split; [done|repeat constructor].
Defined.

(** C4. Every "Place pivot" step that a sort records, with pivot index [p]
    over the range [low..high], shows in its snapshot a partitioned range:
    the distances at [low..p-1] are below the pivot's distance, those at
    [p+1..high] are not below it. *)
Theorem place_pivot_partitions (g : Graph) (ref : Z) (referenceNode : Node)
    (pairs : list (Z * string)) (s : QuickSortVisualizer.t) :
  indexable (nodes g) ->
  preprocessing g ref referenceNode pairs ->
  exists r s' trace,
    QuickSortVisualizer.sort g ref s = Ok r s' /\
    QuickSortVisualizer.steps s' = QuickSortVisualizer.steps s ++ trace /\
    json_get "steps" r
      = Some (JArray (map SortStep.toJSON (QuickSortVisualizer.steps s'))) /\
    Forall place_pivot_ok trace.
Proof.
  intros Hfit Hpre.
  destruct (proj1 (wp_returns _ _ _) (sort_spec g ref referenceNode pairs s Hfit Hpre))
    as (r & s' & Hrun & initial & trace & final & Hsteps & Hinitial & _ & Hfinal &
        _ & _ & Hall & _ & _ & _ & _ & Hjson & _).
  exists r, s', (initial :: trace ++ [final]). do 3 (split; [done|]).
  constructor; [unfold place_pivot_ok; by rewrite Hinitial|].
  apply Forall_app. split; [done|].
  constructor; [unfold place_pivot_ok; by rewrite Hfinal|constructor].
Qed.

Lemma place_pivot_partitions_witness :
  indexable (nodes campus4) /\
  preprocessing campus4 0 (mkNode 0 "A" "hall" 0 0)
    [(5, "B"%string); (5, "C"%string); (1, "D"%string)] /\
  exists r s' trace,
    QuickSortVisualizer.sort campus4 0 QuickSortVisualizer.new = Ok r s' /\
    QuickSortVisualizer.steps s'
      = QuickSortVisualizer.steps QuickSortVisualizer.new ++ trace /\
    json_get "steps" r
      = Some (JArray (map SortStep.toJSON (QuickSortVisualizer.steps s'))) /\
    Forall place_pivot_ok trace.
Proof.
  split; [by vm_compute|]. split; [split; [done|repeat constructor]|].
  apply (place_pivot_partitions campus4 0 (mkNode 0 "A" "hall" 0 0)
           [(5, "B"%string); (5, "C"%string); (1, "D"%string)]).
  - by vm_compute.
  - split; [done|repeat constructor].
Defined.

(** C8. Over an empty dataset neither engine fails.  Binary search returns
    a response with an empty [sortedArray], [found = false], no [result],
    and records exactly the start step and the "Not found" step.  Quicksort,
    over a graph whose only location is the reference, returns an empty
    [sortedLocations] and records exactly the "Initial array" and "Sorted!"
    steps. *)
Theorem empty_dataset_minimal_trace {impl : StdSort} (q : string) (n : Node)
    (sb : BinarySearchVisualizer.t) (sq : QuickSortVisualizer.t) :
  (exists r s' trace,
     BinarySearchVisualizer.search (mkGraph []) q sb = Ok r s' /\
     BinarySearchVisualizer.steps s' = BinarySearchVisualizer.steps sb ++ trace /\
     json_get "steps" r
       = Some (JArray (map (fun st => SearchStep.toJSON st (mkGraph []))
                           (BinarySearchVisualizer.steps s'))) /\
     minimal_search_response r trace) /\
  (exists r s' trace,
     QuickSortVisualizer.sort (mkGraph [n]) 0 sq = Ok r s' /\
     QuickSortVisualizer.steps s' = QuickSortVisualizer.steps sq ++ trace /\
     json_get "steps" r
       = Some (JArray (map SortStep.toJSON (QuickSortVisualizer.steps s'))) /\
     minimal_sort_response r trace).
Proof.
  split.
  - assert (indexable (getNodes (mkGraph []))) as Hfit by by vm_compute.
    destruct (proj1 (wp_returns _ _ _) (search_spec (mkGraph []) q sb Hfit))
      as (r & s' & Hrun & start & trace & Hsteps & _ & _ & Hstart & Hsorted & Hjson & Hcases).
    exists r, s', (start :: trace). do 3 (split; [done|]).
    destruct Hcases as [(Hfound & Hres & _ & probes & final & -> & Hnil & _ & Hfinal & _)|
                        (i & m & _ & _ & Hin & _)]; [|by inv Hin].
    rewrite (Hnil eq_refl). simpl in Hsorted. rewrite std_sort_nil in Hsorted.
    do 3 (split; [done|]). by exists start, final.
  - assert (indexable (nodes (mkGraph [n]))) as Hfit by by vm_compute.
    assert (preprocessing (mkGraph [n]) 0 n []) as Hpre by (split; [done|constructor]).
    destruct (proj1 (wp_returns _ _ _) (sort_spec (mkGraph [n]) 0 n [] sq Hfit Hpre))
      as (r & s' & Hrun & initial & trace & final & Hsteps & Hinitial & Hpairs & Hfinal &
          Harray & Hnames & _ & Hnil & Hperm & _ & Hjson & Hjsteps & _ & Hali & Hali').
    rewrite (Hnil eq_refl) in Hsteps. apply Permutation_nil_r in Hperm.
    exists r, s', [initial; final]. do 3 (split; [done|]).
    rewrite Hperm in Hjson. split; [done|]. exists initial, final.
    do 2 (split; [done|]).
    split; [by apply (zip_nil_aligned _ (SortStep.names initial))|].
    split; [done|]. rewrite Harray. by apply (zip_nil_aligned _ (QuickSortVisualizer.names s')).
Qed.

(** C9: the code misses the claim by an encoding slip.  In the response of
    the sample sort [time_avg] is "O(n log n)" and [space] is "O(log n)",
    but [time_worst] is the eight bytes 4F 28 6E C3 82 C2 B2 29 of the
    source's literal: "O(n", a superscript two whose UTF-8 encoding C2 B2
    was encoded a second time, ")".  That is neither the claim's "O(n^2)"
    nor the string with the superscript two, 4F 28 6E C2 B2 29. *)
Lemma sort_time_worst_double_encoded :
  exists r s' c w,
    sortLocationsByDistance campus4 0 = Ok r s' /\
    json_get "complexity" r = Some c /\
    json_get "time_avg" c = Some (JString "O(n log n)") /\
    json_get "space" c = Some (JString "O(log n)") /\
    json_get "time_worst" c = Some (JString w) /\
    list_byte_of_string w
      = [Byte.x4f; Byte.x28; Byte.x6e; Byte.xc3; Byte.x82; Byte.xc2; Byte.xb2; Byte.x29] /\
    w <> "O(n^2)"%string /\
    list_byte_of_string w <> [Byte.x4f; Byte.x28; Byte.x6e; Byte.xc2; Byte.xb2; Byte.x29].
Proof.
  destruct (proj1 (wp_returns _ _ _)
              (sort_spec campus4 0 _ _ QuickSortVisualizer.new
                 campus4_indexable campus4_preprocessing))
    as (r & s' & Hrun & _).
  destruct (wlp_returned _ _ _ _ _ (sort_complexity_wlp campus4 0 _) Hrun)
    as (c & Hc & Havg & Hworst & Hspace).
  exists r, s', c, time_worst_literal. by do 5 (split; [done|]).
Qed.

Lemma sort_throws_invalid_reference (g : Graph) (ref : Z) (s : QuickSortVisualizer.t) :
  vec_get (nodes g) ref = None ->
  QuickSortVisualizer.sort g ref s
    = Throw InvalidReference
        (QuickSortVisualizer.mk (QuickSortVisualizer.steps s)
           (QuickSortVisualizer.stepNum s) [] []).
Proof.
  intros Hnone. unfold QuickSortVisualizer.sort.
  unfold bind at 1 2 4 5. unfold bind at 1 3. unfold getNode. rewrite Hnone. done.
Qed.

Example campus4_sorted :
  match QuickSortVisualizer.sort campus4 0 QuickSortVisualizer.new with
  | Ok _ s' =>
      QuickSortVisualizer.distances s' = [1; 5; 5] /\
      QuickSortVisualizer.names s' = ["D"; "B"; "C"]%string /\
      map SortStep.array (QuickSortVisualizer.steps s')
        = [[5; 5; 1]; [5; 5; 1]; [5; 5; 1]; [5; 5; 1]; [5; 5; 1]; [1; 5; 5];
           [1; 5; 5]; [1; 5; 5]; [1; 5; 5]; [1; 5; 5]; [1; 5; 5]]
  | Throw _ _ => False
  end.
Proof. by vm_compute. Qed.




(** ** Snapshots *)

Section snapshots.
Import QuickSortVisualizer.

Lemma replayable_snoc trace a b :
  replayable (trace ++ [a]) -> follows a b -> replayable ((trace ++ [a]) ++ [b]).
Proof.
  intros Hrep Hab k c d Hc Hd.
  destruct (decide (S k < length (trace ++ [a]))%nat) as [Hlt|Hge].
  - rewrite lookup_app_l in Hc, Hd by lia. by apply (Hrep k).
  - pose proof (lookup_lt_Some _ _ _ Hd) as Hk.
    rewrite !length_app in Hk. rewrite length_app in Hge. simpl in *.
    assert (k = length trace) as -> by lia.
    rewrite lookup_app_l in Hc by (rewrite length_app; simpl; lia).
    rewrite lookup_app_r, Nat.sub_diag in Hc by lia.
    rewrite lookup_app_r in Hd by (rewrite length_app; simpl; lia).
    rewrite length_app in Hd. simpl in Hd.
    replace (S (length trace) - (length trace + 1))%nat with O in Hd by lia.
    simpl in *. by simplify_eq.
Qed.

Lemma replayable_singleton a : replayable [a].
Proof. intros [|k] c d Hc Hd; simpl in *; by simplify_eq. Qed.

(** A step that reports no swap, recorded over unchanged arrays. *)
Lemma logged_record base s action explanation pivot left right low high :
  logged base s ->
  action <> "Swap"%string -> action <> "Place pivot"%string ->
  logged base
    (mk (steps s ++ [SortStep.mk (stepNum s) action explanation (distances s) (names s)
                       pivot left right low high])
        (stepNum s + 1) (distances s) (names s)).
Proof.
  intros (trace & st & Hsteps & Hrep & Harray & Hnames) Hswap Hplace.
  eexists (trace ++ [st]), _. simpl.
  split; [by rewrite Hsteps, <- !app_assoc|]. split; [|done].
  apply replayable_snoc; [done|]. unfold follows. simpl.
  by repeat case_decide.
Qed.

(** A "Swap" step, recorded after the swap of the cells [i] and [j]. *)
Lemma logged_swap base s explanation pivot i j low high d' n' :
  logged base s ->
  vec_swap (distances s) i j = Some d' -> vec_swap (names s) i j = Some n' ->
  logged base
    (mk (steps s ++ [SortStep.mk (stepNum s) "Swap" explanation d' n'
                       pivot i j low high])
        (stepNum s + 1) d' n').
Proof.
  intros (trace & st & Hsteps & Hrep & Harray & Hnames) Hd Hn.
  eexists (trace ++ [st]), _. simpl.
  split; [by rewrite Hsteps, <- !app_assoc|]. split; [|done].
  apply replayable_snoc; [done|]. unfold follows. simpl.
  repeat case_decide; try done; by rewrite Harray, Hnames.
Qed.

(** A "Place pivot" step, recorded after the swap of the cells [p] and
    [high]. *)
Lemma logged_place base s explanation p left right low high d' n' :
  logged base s ->
  vec_swap (distances s) p high = Some d' -> vec_swap (names s) p high = Some n' ->
  logged base
    (mk (steps s ++ [SortStep.mk (stepNum s) "Place pivot" explanation d' n'
                       p left right low high])
        (stepNum s + 1) d' n').
Proof.
  intros (trace & st & Hsteps & Hrep & Harray & Hnames) Hd Hn.
  eexists (trace ++ [st]), _. simpl.
  split; [by rewrite Hsteps, <- !app_assoc|]. split; [|done].
  apply replayable_snoc; [done|]. unfold follows. simpl.
  repeat case_decide; try done; by rewrite Harray, Hnames.
Qed.

Lemma wlp_distance_at i (Q : Z -> t -> Prop) s :
  (forall v, Q v s) -> wlp (distance_at i) Q s.
Proof.
  intros HQ. unfold distance_at. apply wlp_bind, wlp_gets, wlp_defined. auto.
Qed.

Lemma wlp_name_at i (Q : string -> t -> Prop) s :
  (forall v, Q v s) -> wlp (name_at i) Q s.
Proof.
  intros HQ. unfold name_at. apply wlp_bind, wlp_gets, wlp_defined. auto.
Qed.

Lemma wlp_swap_distances i j (Q : unit -> t -> Prop) s :
  (forall d', vec_swap (distances s) i j = Some d' ->
     Q tt (mk (steps s) (stepNum s) d' (names s))) ->
  wlp (swap_distances i j) Q s.
Proof.
  intros HQ. unfold swap_distances. apply wlp_bind, wlp_gets, wlp_bind, wlp_defined.
  intros d' Hd'. by apply wlp_modify, HQ.
Qed.

Lemma wlp_swap_names i j (Q : unit -> t -> Prop) s :
  (forall n', vec_swap (names s) i j = Some n' ->
     Q tt (mk (steps s) (stepNum s) (distances s) n')) ->
  wlp (swap_names i j) Q s.
Proof.
  intros HQ. unfold swap_names. apply wlp_bind, wlp_gets, wlp_bind, wlp_defined.
  intros n' Hn'. by apply wlp_modify, HQ.
Qed.

Lemma wlp_getNode g i (Q : Node -> t -> Prop) s :
  (forall n, Q n s) -> wlp (getNode g i) Q s.
Proof. intros HQ. unfold getNode. destruct (vec_get (nodes g) i); [apply HQ|done]. Qed.

Lemma partition_step_logged base pivot low high j i s :
  logged base s ->
  wlp (partition_step pivot low high j i) (fun _ s' => logged base s') s.
Proof.
  intros Hlog. unfold partition_step.
  apply wlp_bind, wlp_distance_at. intros dj.
  apply wlp_bind, wlp_name_at. intros nj.
  apply wlp_bind, wlp_modify.
  pose proof (logged_record base s "Comparing"
    ("Compare " +:+ to_string dj +:+ "m (" +:+ nj +:+ ") with pivot " +:+
       to_string pivot +:+ "m") high i j low high Hlog) as Hlog1.
  specialize (Hlog1 ltac:(done) ltac:(done)).
  destruct (dj <? pivot); [|by apply wlp_ret].
  apply wlp_bind, wlp_swap_distances. intros d' Hd'.
  apply wlp_bind, wlp_swap_names. intros n' Hn'.
  apply wlp_bind, wlp_name_at. intros ni.
  apply wlp_bind, wlp_name_at. intros nj'.
  apply wlp_bind, wlp_modify, wlp_ret. simpl in *.
  by apply (logged_swap base _ _ high (i + 1) j low high d' n' Hlog1).
Qed.

Lemma partition_logged base low high s :
  logged base s -> wlp (partition low high) (fun _ s' => logged base s') s.
Proof.
  intros Hlog. unfold partition.
  apply wlp_bind, wlp_distance_at. intros pivot.
  apply wlp_bind, wlp_name_at. intros pivotName.
  apply wlp_bind, wlp_modify.
  pose proof (logged_record base s "Choose pivot"
    ("Selected pivot: " +:+ to_string pivot +:+ "m (" +:+ pivotName +:+
       ") at index " +:+ to_string high) high (-1) (-1) low high Hlog) as Hlog1.
  specialize (Hlog1 ltac:(done) ltac:(done)).
  apply wlp_bind. eapply wlp_mono.
  { apply (wlp_for_range (fun _ _ s' => logged base s')); [done|].
    intros k i s' _ Hlog'. by apply partition_step_logged. }
  intros i s2 Hlog2.
  apply wlp_bind, wlp_swap_distances. intros d' Hd'.
  apply wlp_bind, wlp_swap_names. intros n' Hn'.
  apply wlp_bind, wlp_name_at. intros placed.
  apply wlp_bind, wlp_modify, wlp_ret. simpl in *.
  by apply (logged_place base s2 _ (i + 1) (-1) (-1) low high d' n' Hlog2).
Qed.

Lemma quicksort_logged base fuel low high s :
  logged base s -> wlp (quicksort fuel low high) (fun _ s' => logged base s') s.
Proof.
  revert low high s. induction fuel as [|fuel IH]; intros low high s Hlog; simpl;
    destruct (low <? high); try done.
  apply wlp_bind, wlp_modify.
  pose proof (logged_record base s "Partition"
    ("Sorting subarray from index " +:+ to_string low +:+ " to " +:+ to_string high)
    (-1) (-1) (-1) low high Hlog) as Hlog1.
  specialize (Hlog1 ltac:(done) ltac:(done)).
  apply wlp_bind. eapply wlp_mono; [by apply partition_logged|].
  intros p s1 Hlog2.
  apply wlp_bind. eapply wlp_mono; [by apply IH|].
  intros [] s2 Hlog3. by apply IH.
Qed.

(** The steps that one [sort] appends are a replayable trace that ends in
    the final content of the working arrays. *)
Lemma sort_logged g ref s :
  wlp (sort g ref) (fun _ s' => logged (steps s) s') s.
Proof.
  unfold sort.
  apply wlp_bind, wlp_modify, wlp_bind, wlp_modify, wlp_bind, wlp_getNode.
  intros referenceNode. apply wlp_bind. eapply wlp_mono.
  { apply (wlp_for_range (fun _ _ s' => steps s' = steps s)); [done|].
    intros k [] s' _ Hsteps. unfold measure.
    destruct (negb _); [|by apply wlp_ret].
    apply wlp_bind, wlp_getNode. intros currentNode.
    apply wlp_bind, wlp_defined. intros distance _.
    by apply wlp_bind, wlp_gets, wlp_bind, wlp_modify, wlp_bind, wlp_gets, wlp_modify. }
  intros [] s1 Hsteps1.
  apply wlp_bind, wlp_gets, wlp_bind, wlp_modify.
  match goal with |- wlp _ _ ?st => set (s2 := st) end.
  assert (logged (steps s) s2) as Hlog2.
  { eexists [], _. subst s2. simpl. rewrite Hsteps1.
    split; [done|]. split; [apply replayable_singleton|done]. }
  apply wlp_bind.
  apply (wlp_mono _ (fun _ s3 => logged (steps s) s3)).
  { case_bool_decide; [by apply wlp_ret|by apply quicksort_logged]. }
  intros [] s3 Hlog3.
  apply wlp_bind, wlp_gets, wlp_bind, wlp_modify.
  pose proof (logged_record (steps s) s3 "Sorted!"
    ("Array is now sorted by distance from " +:+ name referenceNode)
    (-1) (-1) (-1) 0 (last_index (distances s3)) Hlog3) as Hlog4.
  specialize (Hlog4 ltac:(done) ltac:(done)).
  apply wlp_bind. eapply wlp_mono.
  { apply (wlp_for_range (fun _ _ s' => logged (steps s) s')); [exact Hlog4|].
    intros k entries s' _ Hlog'. unfold location_entry.
    apply wlp_bind, wlp_name_at. intros n.
    apply wlp_bind, wlp_distance_at. intros d. by apply wlp_ret. }
  intros entries s5 Hlog5. by apply wlp_bind, wlp_gets, wlp_ret.
Qed.

End snapshots.

(** C3.  A step record holds value copies taken when [recordStep] is
    called: either [recordStep] appends one step made of its arguments and,
    for quicksort, of the working arrays of the state it is called in, and
    touches no earlier step.  In the finished trace of a sort the first
    snapshot is the preprocessed arrays, every later snapshot is the one
    before it after the swap its step reports (or the same arrays when it
    reports none), and the last is the final content of the working arrays:
    each step shows the arrays as they were when it was recorded, whatever
    swaps came later.  The steps recorded before the run are still a prefix
    of the trace, for the sort and for the search. *)
Theorem snapshots_are_value_copies {impl : StdSort} (g : Graph) (ref : Z)
    (referenceNode : Node) (pairs : list (Z * string)) (q : string)
    (s : QuickSortVisualizer.t) (sb : BinarySearchVisualizer.t) :
  indexable (nodes g) ->
  preprocessing g ref referenceNode pairs ->
  (forall action explanation pivot left right low high v,
     QuickSortVisualizer.recordStep action explanation pivot left right low high v
     = Ok tt (QuickSortVisualizer.mk
                (QuickSortVisualizer.steps v ++
                 [SortStep.mk (QuickSortVisualizer.stepNum v) action explanation
                    (QuickSortVisualizer.distances v) (QuickSortVisualizer.names v)
                    pivot left right low high])
                (QuickSortVisualizer.stepNum v + 1)
                (QuickSortVisualizer.distances v) (QuickSortVisualizer.names v))) /\
  (forall action explanation left right mid compareNode found v,
     BinarySearchVisualizer.recordStep action explanation left right mid compareNode
       found v
     = Ok tt (BinarySearchVisualizer.mk
                (BinarySearchVisualizer.steps v ++
                 [SearchStep.mk (BinarySearchVisualizer.stepNum v) action explanation
                    left right mid compareNode found])
                (BinarySearchVisualizer.stepNum v + 1))) /\
  (exists r s' trace,
     QuickSortVisualizer.sort g ref s = Ok r s' /\
     QuickSortVisualizer.steps s' = QuickSortVisualizer.steps s ++ trace /\
     faithful_snapshots pairs trace s') /\
  (exists r sb' trace,
     BinarySearchVisualizer.search g q sb = Ok r sb' /\
     BinarySearchVisualizer.steps sb' = BinarySearchVisualizer.steps sb ++ trace).
Proof.
  intros Hfit Hpre. do 2 (split; [done|]). split.
  - destruct (proj1 (wp_returns _ _ _) (sort_spec g ref referenceNode pairs s Hfit Hpre))
      as (r & s' & Hrun & initial & trace & final & Hsteps & _ & Hpairs & _ &
          Harray & Hnames & _).
    destruct (wlp_returned _ _ _ _ _ (sort_logged g ref s) Hrun)
      as (trace' & st & Hsteps' & Hrep & _).
    exists r, s', (initial :: trace ++ [final]). do 2 (split; [done|]).
    exists initial, trace, final. do 2 (split; [done|]). split; [|done].
    rewrite Hsteps in Hsteps'. apply app_inv_head in Hsteps'. by rewrite Hsteps'.
  - destruct (proj1 (wp_returns _ _ _) (search_spec g q sb Hfit))
      as (r & sb' & Hrun & start & trace & Hsteps & _).
    by exists r, sb', (start :: trace).
Qed.

Lemma snapshots_are_value_copies_witness :
  indexable (nodes campus4) /\
  preprocessing campus4 0 (mkNode 0 "A" "hall" 0 0)
    [(5, "B"%string); (5, "C"%string); (1, "D"%string)] /\
  exists r s' trace,
    QuickSortVisualizer.sort campus4 0 QuickSortVisualizer.new = Ok r s' /\
    QuickSortVisualizer.steps s'
      = QuickSortVisualizer.steps QuickSortVisualizer.new ++ trace /\
    faithful_snapshots [(5, "B"%string); (5, "C"%string); (1, "D"%string)] trace s'.
Proof.
  split; [by vm_compute|]. split; [split; [done|repeat constructor]|].
  apply (snapshots_are_value_copies (impl := stable_std_sort) campus4 0
           (mkNode 0 "A" "hall" 0 0)
           [(5, "B"%string); (5, "C"%string); (1, "D"%string)] "Library"
           QuickSortVisualizer.new BinarySearchVisualizer.new).
  - by vm_compute.
  - split; [done|repeat constructor].
Defined.

(** * Further properties of the engines *)

(** ** What a run keeps, whatever its outcome *)

Section preserves.
Context {S : Type} (R : relation S) `{!PreOrder R}.

Lemma preserves_ret {A} (a : A) : preserves R (ret a).
Proof. intros s. simpl. reflexivity. Qed.

Lemma preserves_throw {A} e : preserves R (throw (A := A) e).
Proof. intros s. simpl. reflexivity. Qed.

Lemma preserves_gets {A} (f : S -> A) : preserves R (gets f).
Proof. intros s. simpl. reflexivity. Qed.

Lemma preserves_defined {A} (o : option A) : preserves R (defined o).
Proof. destruct o; [apply preserves_ret|apply preserves_throw]. Qed.

Lemma preserves_modify (f : S -> S) : (forall s, R s (f s)) -> preserves R (modify f).
Proof. intros Hf s. apply Hf. Qed.

Lemma preserves_bind {A B} (c : M S A) (k : A -> M S B) :
  preserves R c -> (forall a, preserves R (k a)) -> preserves R (bind c k).
Proof.
  intros Hc Hk s. unfold bind. specialize (Hc s).
  destruct (c s) as [a s'|e s']; simpl in *; [|done].
  etrans; [exact Hc|apply Hk].
Qed.

Lemma preserves_for_range {A} count j (body : Z -> A -> M S A) acc :
  (forall j acc, preserves R (body j acc)) -> preserves R (for_range count j body acc).
Proof.
  intros Hbody. revert j acc. induction count as [|count IH]; intros j acc; simpl.
  - apply preserves_ret.
  - apply preserves_bind; [apply Hbody|]. intros acc'. apply IH.
Qed.
End preserves.

Lemma numbered_from_app {T} (num : T -> Z) start (t1 t2 : list T) :
  numbered_from num start t1 ->
  numbered_from num (start + Z.of_nat (length t1)) t2 ->
  numbered_from num start (t1 ++ t2).
Proof.
  intros H1 H2 k st Hk. apply lookup_app_Some in Hk as [Hk|[Hge Hk]].
  - by apply H1.
  - rewrite (H2 _ _ Hk). lia.
Qed.

#[local] Instance search_numbered_preorder : PreOrder search_numbered.
Proof.
  split.
  - intros s. exists []. rewrite app_nil_r. simpl. split; [done|]. split; [lia|].
    by intros k st Hk.
  - intros s1 s2 s3 (t1 & Hs1 & Hn1 & Hnum1) (t2 & Hs2 & Hn2 & Hnum2).
    exists (t1 ++ t2). rewrite Hs2, Hs1, app_assoc, Hn2, Hn1, length_app.
    split; [done|]. split; [lia|].
    apply numbered_from_app; [done|]. by rewrite <- Hn1.
Qed.

#[local] Instance sort_numbered_preorder : PreOrder sort_numbered.
Proof.
  split.
  - intros s. exists []. rewrite app_nil_r. simpl. split; [done|]. split; [lia|].
    by intros k st Hk.
  - intros s1 s2 s3 (t1 & Hs1 & Hn1 & Hnum1) (t2 & Hs2 & Hn2 & Hnum2).
    exists (t1 ++ t2). rewrite Hs2, Hs1, app_assoc, Hn2, Hn1, length_app.
    split; [done|]. split; [lia|].
    apply numbered_from_app; [done|]. by rewrite <- Hn1.
Qed.

Lemma search_recordStep_numbered action explanation left right mid compareNode found :
  preserves search_numbered
    (BinarySearchVisualizer.recordStep action explanation left right mid compareNode found).
Proof.
  intros s. eexists [_]. simpl. split; [done|]. split; [lia|].
  intros [|k] st Hk; simpl in *; [|done]. injection Hk as <-. simpl. lia.
Qed.

Lemma search_loop_numbered fuel sortedNodes q lo hi :
  preserves search_numbered (BinarySearchVisualizer.search_loop fuel sortedNodes q lo hi).
Proof.
  revert lo hi. induction fuel as [|fuel IH]; intros lo hi; simpl;
    destruct (lo <=? hi);
    try apply (preserves_ret search_numbered);
    try apply (preserves_throw search_numbered).
  apply (preserves_bind search_numbered); [apply (preserves_defined search_numbered)|]. intros midNode.
  apply (preserves_bind search_numbered); [apply search_recordStep_numbered|]. intros _.
  destruct (String.compare _ _).
  - apply (preserves_bind search_numbered); [apply search_recordStep_numbered|]. intros _.
    by apply (preserves_ret search_numbered).
  - apply (preserves_bind search_numbered); [apply search_recordStep_numbered|]. intros _. apply IH.
  - apply (preserves_bind search_numbered); [apply search_recordStep_numbered|]. intros _. apply IH.
Qed.

Lemma search_numbered_run {impl : StdSort} g q :
  preserves search_numbered (BinarySearchVisualizer.search g q).
Proof.
  unfold BinarySearchVisualizer.search.
  apply (preserves_bind search_numbered); [apply search_recordStep_numbered|]. intros _.
  apply (preserves_bind search_numbered); [apply search_loop_numbered|]. intros exit.
  apply (preserves_bind search_numbered).
  { destruct (_ =? _); [apply search_recordStep_numbered|by apply (preserves_ret search_numbered)]. }
  intros _. apply (preserves_bind search_numbered).
  { destruct (negb _); [|by apply (preserves_ret search_numbered)].
    apply (preserves_bind search_numbered); [by apply (preserves_defined search_numbered)|]. intros n.
    by apply (preserves_ret search_numbered). }
  intros result. apply (preserves_bind search_numbered); [by apply (preserves_gets search_numbered)|]. intros recorded.
  by apply (preserves_ret search_numbered).
Qed.

Section sort_numbering.
Import QuickSortVisualizer.

Lemma sort_numbered_arrays s d n : sort_numbered s (mk (steps s) (stepNum s) d n).
Proof.
  exists []. simpl. rewrite app_nil_r. split; [done|]. split; [lia|]. by intros k st Hk.
Qed.

Lemma set_distances_numbered d : preserves sort_numbered (set_distances d).
Proof. intros s. apply sort_numbered_arrays. Qed.

Lemma set_names_numbered n : preserves sort_numbered (set_names n).
Proof. intros s. apply sort_numbered_arrays. Qed.

Lemma distance_at_numbered i : preserves sort_numbered (distance_at i).
Proof.
  apply (preserves_bind sort_numbered); [apply (preserves_gets sort_numbered)|].
  intros d. apply (preserves_defined sort_numbered).
Qed.

Lemma name_at_numbered i : preserves sort_numbered (name_at i).
Proof.
  apply (preserves_bind sort_numbered); [apply (preserves_gets sort_numbered)|].
  intros d. apply (preserves_defined sort_numbered).
Qed.

Lemma swap_distances_numbered i j : preserves sort_numbered (swap_distances i j).
Proof.
  apply (preserves_bind sort_numbered); [apply (preserves_gets sort_numbered)|].
  intros d. apply (preserves_bind sort_numbered); [apply (preserves_defined sort_numbered)|].
  intros d'. apply set_distances_numbered.
Qed.

Lemma swap_names_numbered i j : preserves sort_numbered (swap_names i j).
Proof.
  apply (preserves_bind sort_numbered); [apply (preserves_gets sort_numbered)|].
  intros n. apply (preserves_bind sort_numbered); [apply (preserves_defined sort_numbered)|].
  intros n'. apply set_names_numbered.
Qed.

Lemma sort_recordStep_numbered action explanation pivot left right low high :
  preserves sort_numbered (recordStep action explanation pivot left right low high).
Proof.
  intros s. eexists [_]. simpl. split; [done|]. split; [lia|].
  intros [|k] st Hk; simpl in *; [|done]. injection Hk as <-. simpl. lia.
Qed.

Lemma partition_step_numbered pivot low high j i :
  preserves sort_numbered (partition_step pivot low high j i).
Proof.
  unfold partition_step.
  apply (preserves_bind sort_numbered); [apply distance_at_numbered|]. intros dj.
  apply (preserves_bind sort_numbered); [apply name_at_numbered|]. intros nj.
  apply (preserves_bind sort_numbered); [apply sort_recordStep_numbered|]. intros _.
  destruct (dj <? pivot); [|apply (preserves_ret sort_numbered)].
  apply (preserves_bind sort_numbered); [apply swap_distances_numbered|]. intros _.
  apply (preserves_bind sort_numbered); [apply swap_names_numbered|]. intros _.
  apply (preserves_bind sort_numbered); [apply name_at_numbered|]. intros ni.
  apply (preserves_bind sort_numbered); [apply name_at_numbered|]. intros nj'.
  apply (preserves_bind sort_numbered); [apply sort_recordStep_numbered|]. intros _.
  apply (preserves_ret sort_numbered).
Qed.

Lemma partition_numbered low high : preserves sort_numbered (partition low high).
Proof.
  unfold partition.
  apply (preserves_bind sort_numbered); [apply distance_at_numbered|]. intros pivot.
  apply (preserves_bind sort_numbered); [apply name_at_numbered|]. intros pivotName.
  apply (preserves_bind sort_numbered); [apply sort_recordStep_numbered|]. intros _.
  apply (preserves_bind sort_numbered).
  { apply (preserves_for_range sort_numbered). intros j i. apply partition_step_numbered. }
  intros i.
  apply (preserves_bind sort_numbered); [apply swap_distances_numbered|]. intros _.
  apply (preserves_bind sort_numbered); [apply swap_names_numbered|]. intros _.
  apply (preserves_bind sort_numbered); [apply name_at_numbered|]. intros placed.
  apply (preserves_bind sort_numbered); [apply sort_recordStep_numbered|]. intros _.
  apply (preserves_ret sort_numbered).
Qed.

Lemma quicksort_numbered fuel low high : preserves sort_numbered (quicksort fuel low high).
Proof.
  revert low high. induction fuel as [|fuel IH]; intros low high; simpl;
    destruct (low <? high);
    try apply (preserves_ret sort_numbered);
    try apply (preserves_throw sort_numbered).
  apply (preserves_bind sort_numbered); [apply sort_recordStep_numbered|]. intros _.
  apply (preserves_bind sort_numbered); [apply partition_numbered|]. intros p.
  apply (preserves_bind sort_numbered); [apply IH|]. intros _. apply IH.
Qed.

Lemma getNode_numbered g i : preserves sort_numbered (getNode g i).
Proof.
  unfold getNode. destruct (vec_get _ _);
    [apply (preserves_ret sort_numbered)|apply (preserves_throw sort_numbered)].
Qed.

Lemma sort_numbered_run g ref : preserves sort_numbered (sort g ref).
Proof.
  unfold sort.
  apply (preserves_bind sort_numbered); [apply set_distances_numbered|]. intros _.
  apply (preserves_bind sort_numbered); [apply set_names_numbered|]. intros _.
  apply (preserves_bind sort_numbered); [apply getNode_numbered|]. intros referenceNode.
  apply (preserves_bind sort_numbered).
  { apply (preserves_for_range sort_numbered). intros i []. unfold measure.
    destruct (negb _); [|apply (preserves_ret sort_numbered)].
    apply (preserves_bind sort_numbered); [apply getNode_numbered|]. intros currentNode.
    apply (preserves_bind sort_numbered); [apply (preserves_defined sort_numbered)|].
    intros distance.
    apply (preserves_bind sort_numbered); [apply (preserves_gets sort_numbered)|]. intros d.
    apply (preserves_bind sort_numbered); [apply set_distances_numbered|]. intros _.
    apply (preserves_bind sort_numbered); [apply (preserves_gets sort_numbered)|]. intros n.
    apply set_names_numbered. }
  intros _.
  apply (preserves_bind sort_numbered); [apply (preserves_gets sort_numbered)|]. intros d.
  apply (preserves_bind sort_numbered); [apply sort_recordStep_numbered|]. intros _.
  apply (preserves_bind sort_numbered).
  { destruct (bool_decide _); [apply (preserves_ret sort_numbered)|apply quicksort_numbered]. }
  intros _.
  apply (preserves_bind sort_numbered); [apply (preserves_gets sort_numbered)|]. intros d'.
  apply (preserves_bind sort_numbered); [apply sort_recordStep_numbered|]. intros _.
  apply (preserves_bind sort_numbered).
  { apply (preserves_for_range sort_numbered). intros i entries. unfold location_entry.
    apply (preserves_bind sort_numbered); [apply name_at_numbered|]. intros n.
    apply (preserves_bind sort_numbered); [apply distance_at_numbered|]. intros dv.
    apply (preserves_ret sort_numbered). }
  intros entries.
  apply (preserves_bind sort_numbered); [apply (preserves_gets sort_numbered)|].
  intros recorded. apply (preserves_ret sort_numbered).
Qed.

End sort_numbering.

(** X1.  The steps one search appends are numbered consecutively from the
    visualizer's counter, which ends up advanced by their number, whether
    the search returns or not; on a visualizer of its own the trace is
    numbered 0, 1, 2, ... *)
Theorem search_steps_numbered {impl : StdSort} (g : Graph) (q : string)
    (s : BinarySearchVisualizer.t) :
  search_numbered s (final_state (BinarySearchVisualizer.search g q s)) /\
  numbered_from SearchStep.stepNum 0
    (BinarySearchVisualizer.steps (final_state (searchBuilding g q))).
Proof.
  split; [apply search_numbered_run|].
  destruct (search_numbered_run g q BinarySearchVisualizer.new)
    as (trace & Hsteps & _ & Hnum).
  unfold searchBuilding. by rewrite Hsteps.
Qed.


(** ** The size of a search trace *)

Lemma probe_bound_nonneg m : 0 <= probe_bound m.
Proof.
  unfold probe_bound. destruct (Z.leb_spec m 0); [lia|].
  pose proof (Z.log2_nonneg m). lia.
Qed.

Lemma probe_bound_half m m' :
  1 <= m -> 2 * m' <= m -> probe_bound m' + 1 <= probe_bound m.
Proof.
  intros Hm Hhalf. unfold probe_bound.
  destruct (Z.leb_spec m 0); [lia|]. destruct (Z.leb_spec m' 0).
  - pose proof (Z.log2_nonneg m). lia.
  - pose proof (Z.log2_double m' ltac:(lia)) as Hd.
    pose proof (Z.log2_le_mono (2 * m') m Hhalf). lia.
Qed.

Lemma probe_bound_mono m m' : m' <= m -> probe_bound m' <= probe_bound m.
Proof.
  intros Hle. unfold probe_bound.
  destruct (Z.leb_spec m 0), (Z.leb_spec m' 0); try lia.
  - pose proof (Z.log2_nonneg m). lia.
  - pose proof (Z.log2_le_mono m' m Hle). lia.
Qed.

Lemma to_int_le z : - 1 <= z -> to_int z <= z.
Proof. unfold to_int. intros. Z.div_mod_to_equations. lia. Qed.

Lemma search_loop_length fuel sortedNodes q lo hi s :
  Z.of_nat (length (BinarySearchVisualizer.steps
     (final_state (BinarySearchVisualizer.search_loop fuel sortedNodes q lo hi s))))
  <= Z.of_nat (length (BinarySearchVisualizer.steps s)) + 2 * probe_bound (hi - lo + 1).
Proof.
  revert lo hi s. induction fuel as [|fuel IH]; intros lo hi s; simpl;
    pose proof (probe_bound_nonneg (hi - lo + 1));
    destruct (Z.leb_spec lo hi) as [Hle|Hgt]; simpl; try lia.
  unfold bind at 1. destruct (vec_get _ _) as [midNode|]; simpl; [|lia].
  assert (0 <= Z.quot (hi - lo) 2 /\ 2 * Z.quot (hi - lo) 2 <= hi - lo /\
          hi - lo <= 2 * Z.quot (hi - lo) 2 + 1) as Hmid
    by (Z.quot_rem_to_equations; lia).
  unfold bind at 1. simpl. destruct (String.compare _ _).
  - unfold bind. simpl. rewrite !length_app. simpl.
    pose proof (probe_bound_half (hi - lo + 1) 0 ltac:(lia) ltac:(lia)).
    unfold probe_bound in *. simpl in *. lia.
  - unfold bind at 1. simpl.
    etrans; [apply IH|]. simpl. rewrite !length_app. simpl.
    pose proof (probe_bound_half (hi - lo + 1)
                  (lo + Z.quot (hi - lo) 2 - 1 - lo + 1) ltac:(lia) ltac:(lia)). lia.
  - unfold bind at 1. simpl.
    etrans; [apply IH|]. simpl. rewrite !length_app. simpl.
    pose proof (probe_bound_half (hi - lo + 1)
                  (hi - (lo + Z.quot (hi - lo) 2 + 1) + 1) ltac:(lia) ltac:(lia)). lia.
Qed.

(** X3.  One search appends at most [2 * probe_bound n + 2] steps to the
    trace, [n] being the number of locations: the start step, two steps for
    each of at most [log2 n + 1] probes, and the "Not found" step.  This
    holds whether the search returns or not. *)
Theorem search_trace_logarithmic {impl : StdSort} (g : Graph) (q : string)
    (s : BinarySearchVisualizer.t) :
  Z.of_nat (length (BinarySearchVisualizer.steps
     (final_state (BinarySearchVisualizer.search g q s))))
  <= Z.of_nat (length (BinarySearchVisualizer.steps s))
     + 2 * probe_bound (Z.of_nat (length (getNodes g))) + 2.
Proof.
  unfold BinarySearchVisualizer.search.
  set (sortedNodes := std_sort _ (getNodes g)).
  assert (length sortedNodes = length (getNodes g)) as Hlen by apply std_sort_length.
  assert (probe_bound (last_index sortedNodes - 0 + 1)
          <= probe_bound (Z.of_nat (length (getNodes g)))) as Hmono
    by (apply probe_bound_mono; unfold last_index;
        pose proof (to_int_le (Z.of_nat (length sortedNodes) - 1)); lia).
  unfold bind at 1. simpl. unfold bind at 1.
  match goal with |- context [BinarySearchVisualizer.search_loop ?f ?l q 0 ?hi ?st] =>
    pose proof (search_loop_length f l q 0 hi st) as Hloop;
    destruct (BinarySearchVisualizer.search_loop f l q 0 hi st) as [exit s2|e s2]
  end; simpl in Hloop; rewrite length_app in Hloop; simpl in Hloop; [|simpl; lia].
  unfold bind at 1.
  destruct (exit.2 =? -1); simpl.
  - unfold bind. simpl. rewrite length_app. simpl. lia.
  - unfold bind at 1. unfold bind at 1.
    destruct (vec_get sortedNodes exit.2); simpl; [unfold bind; simpl|]; lia.
Qed.

(** ** Where a search ends *)

Lemma string_compare_lt_le s1 s2 s3 :
  String.compare s1 s2 = Lt -> String.compare s3 s2 <> Lt -> String.compare s1 s3 = Lt.
Proof.
  intros H12 H32. destruct (String.compare s1 s3) eqn:H13; [|done|].
  - apply String.compare_eq_iff in H13. by subst.
  - exfalso. apply H32. apply (string_compare_lt_trans s3 s1 s2); [|done].
    by rewrite String.compare_antisym, H13.
Qed.

Lemma string_compare_le_lt s1 s2 s3 :
  String.compare s2 s1 <> Lt -> String.compare s2 s3 = Lt -> String.compare s1 s3 = Lt.
Proof.
  intros H21 H23. destruct (String.compare s1 s3) eqn:H13; [|done|].
  - apply String.compare_eq_iff in H13. by subst.
  - exfalso. apply H21. apply (string_compare_lt_trans s2 s3 s1); [done|].
    by rewrite String.compare_antisym, H13.
Qed.

Lemma search_loop_end fuel (sortedNodes : list Node) q lo hi s :
  sorted_wrt by_name sortedNodes -> 0 <= lo ->
  brackets sortedNodes q lo hi ->
  wlp (BinarySearchVisualizer.search_loop fuel sortedNodes q lo hi)
      (fun exit s' =>
         (exit.2 = -1 ->
            brackets sortedNodes q exit.1.1 exit.1.2 /\ exit.1.2 < exit.1.1) /\
         (exit.2 <> -1 ->
            exists n, name n = q /\
              ends_at_hit sortedNodes n (BinarySearchVisualizer.steps s') /\
              vec_get sortedNodes exit.2 = Some n))
      s.
Proof.
  intros Hsorted. revert lo hi s.
  induction fuel as [|fuel IH]; intros lo hi s Hlo Hbr; simpl;
    destruct (Z.leb_spec lo hi) as [Hle|Hgt].
  1: done.
  1,3: apply wlp_ret; simpl; split; [done|lia].
  assert (lo <= lo + Z.quot (hi - lo) 2 <= hi) as Hmid
    by (Z.quot_rem_to_equations; lia).
  set (mid := lo + Z.quot (hi - lo) 2) in *.
  apply wlp_bind, wlp_defined. intros n Hn.
  apply wlp_bind, wlp_modify.
  destruct (String.compare q (name n)) eqn:Hcmp.
  - apply wlp_bind, wlp_modify, wlp_ret. simpl. split; [lia|]. intros _.
    exists n. split; [symmetry; by apply String.compare_eq_iff|]. split; [|done].
    eexists _, _. simpl. split; [done|]. by repeat split.
  - apply wlp_bind, wlp_modify. apply IH; [done|].
    destruct Hbr as [Hbelow Habove]. split; [done|].
    intros k n' Hk Hn'. destruct (Z.eq_dec k mid) as [->|]; [by simplify_eq|].
    apply (string_compare_lt_le _ (name n)); [done|].
    by apply (sorted_by_name_lookup sortedNodes mid k); [|lia|..].
  - apply wlp_bind, wlp_modify. apply IH; [lia|].
    destruct Hbr as [Hbelow Habove]. split; [|done].
    assert (String.compare (name n) q = Lt) as Hcmp'
      by (by rewrite String.compare_antisym, Hcmp).
    intros k n' Hk Hn'. destruct (Z.eq_dec k mid) as [->|]; [by simplify_eq|].
    apply (string_compare_le_lt _ (name n)); [|done].
    by apply (sorted_by_name_lookup sortedNodes k mid); [|lia|..].
Qed.

Lemma search_end {impl : StdSort} (g : Graph) q s :
  indexable (getNodes g) ->
  wlp (BinarySearchVisualizer.search g q)
      (fun r s' =>
         let sorted := std_sort by_name (getNodes g) in
         (json_get "found" r = Some (JBool false) ->
            ends_at_insertion_point sorted q (BinarySearchVisualizer.steps s')) /\
         (json_get "found" r = Some (JBool true) ->
            exists n, name n = q /\
              json_get "result" r = Some (node_result n) /\
              ends_at_hit sorted n (BinarySearchVisualizer.steps s')))
      s.
Proof.
  intros Hfit. unfold BinarySearchVisualizer.search.
  change (fun a b : Node => String.ltb (name a) (name b)) with by_name.
  pose proof (std_sort_sorted _ by_name (getNodes g) by_name_strict_weak_order) as Hsorted.
  pose proof (std_sort_perm _ by_name (getNodes g)) as Hperm.
  set (sortedNodes := std_sort by_name (getNodes g)) in *.
  assert (indexable sortedNodes) as Hfit'
    by (unfold indexable in *; by rewrite Hperm).
  apply wlp_bind, wlp_modify, wlp_bind.
  eapply wlp_mono.
  { apply search_loop_end; [done|lia|]. split.
    - intros k n Hk [? _]%vec_get_Some. lia.
    - intros k n Hk Hn%vec_get_range.
      rewrite last_index_indexable in Hk by done. lia. }
  intros [[l r] fi] s1 [Hmiss Hhit]. simpl in *.
  destruct (Z.eqb_spec fi (-1)) as [->|Hfi]; simpl.
  - destruct Hmiss as [[Hbelow Habove] Hlr]; [done|].
    apply wlp_bind, wlp_modify. apply wlp_bind, wlp_ret.
    apply wlp_bind, wlp_gets, wlp_ret. simpl. json_lookup.
    split; [intros _|discriminate].
    eexists _, _. split; [done|]. simpl. do 3 (split; [done|]).
    split; [done|]. intros k n Hk. apply Habove. lia.
  - destruct (Hhit Hfi) as (n & Hq & Hend & Hn).
    apply wlp_bind, wlp_ret. apply wlp_bind, wlp_bind, wlp_defined.
    intros n' Hn'. assert (n' = n) as -> by congruence.
    apply wlp_ret. apply wlp_bind, wlp_gets, wlp_ret. simpl. json_lookup.
    split; [discriminate|intros _]. by exists n.
Qed.

(** X4. Whatever the query, the response of a search lists every location
    of the campus exactly once under "sortedArray", in non-decreasing order
    of name. *)
Theorem search_sorted_array_complete {impl : StdSort} (g : Graph) (q : string)
    (s : BinarySearchVisualizer.t) :
  indexable (getNodes g) ->
  exists r s' sorted,
    BinarySearchVisualizer.search g q s = Ok r s' /\
    json_get "sortedArray" r = Some (JArray (map node_entry sorted)) /\
    sorted ≡ₚ getNodes g /\
    sorted_wrt by_name sorted.
Proof.
  intros Hfit.
  pose proof (search_spec g q s Hfit) as Hspec.
  apply wp_returns in Hspec
    as (r & s' & Hrun & start & trace & _ & _ & _ & _ & Harray & _).
  exists r, s', (std_sort by_name (getNodes g)).
  split; [done|]. split; [done|]. split; [apply std_sort_perm|].
  apply std_sort_sorted, by_name_strict_weak_order.
Qed.

Lemma search_sorted_array_complete_witness :
  exists r s' sorted,
    BinarySearchVisualizer.search (impl := stable_std_sort) campus3 "Library"
      BinarySearchVisualizer.new = Ok r s' /\
    json_get "sortedArray" r = Some (JArray (map node_entry sorted)) /\
    sorted ≡ₚ getNodes campus3 /\
    sorted_wrt by_name sorted.
Proof.
  apply (search_sorted_array_complete (impl := stable_std_sort)).
  unfold indexable, INT_MAX. simpl. lia.
Defined.

(** X5. When a search reports that the query is absent, its last step is
    the "Not found" step with [right < left], and [left] is the insertion
    point of the query in the sorted array: every location before it has a
    smaller name, every location from it on a larger one. *)
Theorem search_miss_insertion_point {impl : StdSort} (g : Graph) (q : string)
    (s : BinarySearchVisualizer.t) :
  indexable (getNodes g) ->
  exists r s',
    BinarySearchVisualizer.search g q s = Ok r s' /\
    (json_get "found" r = Some (JBool false) ->
     ends_at_insertion_point (std_sort by_name (getNodes g)) q
       (BinarySearchVisualizer.steps s')).
Proof.
  intros Hfit.
  pose proof (search_spec g q s Hfit) as Hspec.
  apply wp_returns in Hspec as (r & s' & Hrun & _).
  exists r, s'. split; [done|].
  by destruct (wlp_returned _ _ _ _ _ (search_end g q s Hfit) Hrun) as [? _].
Qed.

Lemma search_miss_insertion_point_witness :
  exists r s',
    BinarySearchVisualizer.search (impl := stable_std_sort) campus3 "Zzz"
      BinarySearchVisualizer.new = Ok r s' /\
    (json_get "found" r = Some (JBool false) ->
     ends_at_insertion_point (std_sort (StdSort := stable_std_sort) by_name (getNodes campus3))
       "Zzz" (BinarySearchVisualizer.steps s')).
Proof.
  apply (search_miss_insertion_point (impl := stable_std_sort)).
  unfold indexable, INT_MAX. simpl. lia.
Defined.

(** X6. When a search reports a hit, its last step is the "Found!" step,
    its [mid] and [compareNode] are the same index of the sorted array, and
    the location at that index bears the queried name and is the one
    returned under "result". *)
Theorem search_hit_index {impl : StdSort} (g : Graph) (q : string)
    (s : BinarySearchVisualizer.t) :
  indexable (getNodes g) ->
  exists r s',
    BinarySearchVisualizer.search g q s = Ok r s' /\
    (json_get "found" r = Some (JBool true) ->
     exists n, name n = q /\
       json_get "result" r = Some (node_result n) /\
       ends_at_hit (std_sort by_name (getNodes g)) n (BinarySearchVisualizer.steps s')).
Proof.
  intros Hfit.
  pose proof (search_spec g q s Hfit) as Hspec.
  apply wp_returns in Hspec as (r & s' & Hrun & _).
  exists r, s'. split; [done|].
  by destruct (wlp_returned _ _ _ _ _ (search_end g q s Hfit) Hrun) as [_ ?].
Qed.

Lemma search_hit_index_witness :
  exists r s',
    BinarySearchVisualizer.search (impl := stable_std_sort) campus3 "Library"
      BinarySearchVisualizer.new = Ok r s' /\
    (json_get "found" r = Some (JBool true) ->
     exists n, name n = "Library"%string /\
       json_get "result" r = Some (node_result n) /\
       ends_at_hit (std_sort (StdSort := stable_std_sort) by_name (getNodes campus3)) n
         (BinarySearchVisualizer.steps s')).
Proof.
  apply (search_hit_index (impl := stable_std_sort)).
  unfold indexable, INT_MAX. simpl. lia.
Defined.

(** * The request utilities *)

(** ** Strings *)

Lemma string_app_nil_l s : EmptyString +:+ s = s.
Proof. done. Qed.

Lemma string_app_cons c s t : String c s +:+ t = String c (s +:+ t).
Proof. done. Qed.

Ltac string_simpl := rewrite ?string_app_cons, ?string_app_nil_l; simpl.

Lemma string_app_nil_r s : s +:+ EmptyString = s.
Proof. induction s as [|c s IH]; string_simpl; [done|]. by rewrite IH. Qed.

Lemma string_app_assoc s t u : (s +:+ t) +:+ u = s +:+ (t +:+ u).
Proof. induction s as [|c s IH]; string_simpl; [done|]. by rewrite IH. Qed.

Lemma string_length_app s t :
  String.length (s +:+ t) = (String.length s + String.length t)%nat.
Proof. induction s as [|c s IH]; string_simpl; [done|]. by rewrite IH. Qed.

Lemma has_char_app c s t : has_char c (s +:+ t) = has_char c s || has_char c t.
Proof.
  induction s as [|a s IH]; string_simpl; [done|]. rewrite IH. by rewrite orb_assoc.
Qed.

(** ** [urlDecode] *)

Lemma field_extract_hex_digits h1 h2 d1 d2 :
  hex_digit h1 = Some d1 -> hex_digit h2 = Some d2 ->
  field_extract_hex h1 h2 = Some (16 * d1 + d2).
Proof. intros H1 H2. unfold field_extract_hex. by rewrite H1, H2. Qed.

Definition field_hex_stream : HexStream :=
  {| extract_hex := field_extract_hex; extract_hex_digits := field_extract_hex_digits |}.

Section urlDecode.
Context {stream : HexStream}.

Lemma urlDecode_plain s :
  has_char "%" s = false -> urlDecode s = map_chars plus_to_space s.
Proof.
  induction s as [|c s IH]; simpl; [done|]. intros [Hc Hs]%orb_false_elim.
  rewrite Hc. unfold plus_to_space. rewrite IH by done.
  by destruct (Ascii.eqb c "+").
Qed.

Lemma urlDecode_app_plain s t :
  has_char "%" s = false -> urlDecode (s +:+ t) = urlDecode s +:+ urlDecode t.
Proof.
  induction s as [|c s IH]; string_simpl; [done|]. intros [Hc Hs]%orb_false_elim.
  rewrite Hc, IH by done. by destruct (Ascii.eqb c "+").
Qed.

Lemma urlDecode_length_upto n s :
  (String.length s <= n)%nat ->
  (String.length (urlDecode s) <= String.length s)%nat.
Proof.
  revert s. induction n as [|n IH]; intros s Hn.
  { destruct s; simpl in *; [done|lia]. }
  destruct s as [|c rest]; simpl in *; [done|].
  pose proof (IH rest ltac:(lia)) as Hrest.
  destruct (Ascii.eqb c "%").
  - destruct rest as [|h1 [|h2 rest']]; simpl in *; try lia.
    destruct (extract_hex h1 h2); simpl in *; [|lia].
    pose proof (IH rest' ltac:(lia)). lia.
  - destruct (Ascii.eqb c "+"); simpl; lia.
Qed.

Lemma hex_digit_hex_char d : 0 <= d < 16 -> hex_digit (hex_char d) = Some d.
Proof.
  intros Hd.
  assert (d = 0 \/ d = 1 \/ d = 2 \/ d = 3 \/ d = 4 \/ d = 5 \/ d = 6 \/ d = 7 \/
          d = 8 \/ d = 9 \/ d = 10 \/ d = 11 \/ d = 12 \/ d = 13 \/ d = 14 \/ d = 15)
    as Hcases by lia.
  repeat (destruct Hcases as [->|Hcases]; [reflexivity|]). by subst.
Qed.

Lemma ascii_code_bound c : 0 <= Z.of_N (N_of_ascii c) < 256.
Proof. destruct c as [[] [] [] [] [] [] [] []]; vm_compute; split; congruence. Qed.

Lemma to_char_code c : to_char (Z.of_N (N_of_ascii c)) = c.
Proof.
  unfold to_char. rewrite Z.mod_small by apply ascii_code_bound.
  rewrite N2Z.id. apply ascii_N_embedding.
Qed.

Lemma urlDecode_escape keep c t :
  keep "%"%char = false -> keep "+"%char = false ->
  urlDecode (escape keep c +:+ t) = String c (urlDecode t).
Proof.
  intros Hpercent Hplus. unfold escape. destruct (keep c) eqn:Hkeep; string_simpl.
  - destruct (Ascii.eqb_spec c "%") as [->|_]; [congruence|].
    destruct (Ascii.eqb_spec c "+") as [->|_]; [congruence|done].
  - pose proof (ascii_code_bound c) as Hcode.
    rewrite (extract_hex_digits _ _ (Z.of_N (N_of_ascii c) / 16) (Z.of_N (N_of_ascii c) mod 16)).
    + f_equal. rewrite <- Z.div_mod by lia. apply to_char_code.
    + apply hex_digit_hex_char. Z.div_mod_to_equations. lia.
    + apply hex_digit_hex_char. Z.div_mod_to_equations. lia.
Qed.

End urlDecode.

(** ** Searching and cutting strings *)

Lemma prefix_length p s :
  String.prefix p s = true -> (String.length p <= String.length s)%nat.
Proof.
  revert s. induction p as [|a p IH]; intros [|b s]; simpl; try done; try lia.
  destruct (ascii_dec a b); [|done]. intros ?%IH. lia.
Qed.

Lemma index_cons pattern b s :
  String.index 0 pattern (String b s)
  = if String.prefix pattern (String b s) then Some 0%nat
    else match String.index 0 pattern s with
         | Some n => Some (S n)
         | None => None
         end.
Proof. done. Qed.

Lemma index_bound pattern s i :
  String.index 0 pattern s = Some i ->
  (i + String.length pattern <= String.length s)%nat.
Proof.
  revert i. induction s as [|b s IH]; intros i.
  { simpl. destruct pattern; [|done]. intros [= <-]. simpl. lia. }
  rewrite index_cons.
  destruct (String.prefix pattern (String b s)) eqn:Hprefix.
  - intros [= <-]. apply prefix_length in Hprefix. simpl in *. lia.
  - destruct (String.index 0 pattern s) as [n|]; [|done].
    intros [= <-]. specialize (IH n eq_refl). simpl. lia.
Qed.

Lemma string_find_absent pattern s :
  String.index 0 pattern s = None -> string_find pattern s = npos.
Proof. unfold string_find. by intros ->. Qed.

Lemma string_find_present pattern s i :
  representable s -> String.index 0 pattern s = Some i ->
  string_find pattern s = Z.of_nat i /\ Z.of_nat i <> npos /\
  (i + String.length pattern <= String.length s)%nat.
Proof.
  unfold string_find, representable. intros Hs Hi. rewrite Hi.
  apply index_bound in Hi. split; [done|]. unfold npos. split; lia.
Qed.

Lemma string_find_position pattern s :
  string_find pattern s <> npos ->
  exists i, String.index 0 pattern s = Some i /\ string_find pattern s = Z.of_nat i /\
    (i + String.length pattern <= String.length s)%nat.
Proof.
  unfold string_find. destruct (String.index 0 pattern s) as [i|] eqn:Hi; [|done].
  intros _. exists i. split; [done|]. split; [done|]. by apply index_bound.
Qed.

Lemma index_char_absent c s :
  has_char c s = false -> String.index 0 (String c EmptyString) s = None.
Proof.
  induction s as [|a s IH]; simpl; [done|]. intros [Ha Hs]%orb_false_elim.
  destruct (ascii_dec c a) as [->|_]; [by rewrite Ascii.eqb_refl in Ha|].
  by rewrite IH.
Qed.

Lemma index_char_first c s t :
  has_char c s = false ->
  String.index 0 (String c EmptyString) (s +:+ String c t) = Some (String.length s).
Proof.
  induction s as [|a s IH]; string_simpl.
  - intros _. destruct (ascii_dec c c); [|done]. by destruct t.
  - intros [Ha Hs]%orb_false_elim.
    destruct (ascii_dec c a) as [->|_]; [by rewrite Ascii.eqb_refl in Ha|].
    by rewrite IH.
Qed.

Lemma index_char_None c s :
  String.index 0 (String c EmptyString) s = None -> has_char c s = false.
Proof.
  induction s as [|a s IH]; simpl; [done|].
  destruct (ascii_dec c a) as [->|Hne].
  - by destruct s.
  - destruct (String.index 0 (String c EmptyString) s); [done|]. intros _.
    rewrite IH by done. destruct (Ascii.eqb_spec a c); by subst.
Qed.

Lemma index_char_Some c s i :
  String.index 0 (String c EmptyString) s = Some i ->
  has_char c (String.substring 0 i s) = false.
Proof.
  revert i. induction s as [|a s IH]; intros i; simpl; [done|].
  destruct (ascii_dec c a) as [->|Hne].
  - destruct s; by intros [= <-].
  - destruct (String.index 0 (String c EmptyString) s) as [n|]; [|done].
    intros [= <-]. simpl. rewrite (IH n) by done.
    destruct (Ascii.eqb_spec a c); by subst.
Qed.

Lemma substring_all s : String.substring 0 (String.length s) s = s.
Proof. induction s as [|c s IH]; simpl; [done|]. by rewrite IH. Qed.

Lemma substring_app_l s t : String.substring 0 (String.length s) (s +:+ t) = s.
Proof.
  induction s as [|c s IH]; string_simpl; [by destruct t|]. by rewrite IH.
Qed.

Lemma substring_app_r s t n m :
  String.substring (String.length s + n) m (s +:+ t) = String.substring n m t.
Proof. induction s as [|c s IH]; string_simpl; done. Qed.

Lemma string_substr_in_range s pos count :
  pos <= Z.of_nat (String.length s) -> is_Some (string_substr s pos count).
Proof.
  intros Hpos. unfold string_substr.
  destruct (Z.ltb_spec (Z.of_nat (String.length s)) pos); [lia|]. by eexists.
Qed.

Lemma string_substr_all s count :
  Z.of_nat (String.length s) <= count -> string_substr s 0 count = Some s.
Proof.
  intros Hcount. unfold string_substr.
  destruct (Z.ltb_spec (Z.of_nat (String.length s)) 0); [lia|].
  rewrite Z.min_r by lia. rewrite Z.sub_0_r, Nat2Z.id. simpl.
  by rewrite substring_all.
Qed.

Lemma string_substr_app_l s t :
  string_substr (s +:+ t) 0 (Z.of_nat (String.length s)) = Some s.
Proof.
  unfold string_substr. rewrite string_length_app.
  destruct (Z.ltb_spec (Z.of_nat (String.length s + String.length t)) 0); [lia|].
  rewrite Z.min_l by lia. rewrite Nat2Z.id. simpl. by rewrite substring_app_l.
Qed.

Lemma string_substr_app_r s t count :
  Z.of_nat (String.length t) <= count ->
  string_substr (s +:+ t) (Z.of_nat (String.length s)) count = Some t.
Proof.
  intros Hcount. unfold string_substr. rewrite string_length_app.
  destruct (Z.ltb_spec (Z.of_nat (String.length s + String.length t))
              (Z.of_nat (String.length s))); [lia|].
  rewrite Z.min_r by lia. rewrite Nat2Z.id.
  replace (Z.to_nat _) with (String.length t) by lia.
  rewrite <- (Nat.add_0_r (String.length s)) at 1.
  by rewrite substring_app_r, substring_all.
Qed.

Lemma size_t_wrap_small z : 0 <= z < 2 ^ 64 -> size_t_wrap z = z.
Proof. apply Z.mod_small. Qed.

(** ** [parseQueryParams] *)

Lemma getlines_nonempty delim c s : getlines delim (String c s) <> [].
Proof. simpl. destruct (Ascii.eqb c delim); [done|]. by destruct (getlines delim s). Qed.

Lemma getlines_single delim s :
  has_char delim s = false -> s <> EmptyString -> getlines delim s = [s].
Proof.
  induction s as [|c s IH]; [done|]. simpl. intros [Hc Hs]%orb_false_elim _.
  rewrite Hc. destruct s as [|c' s]; [done|]. by rewrite IH.
Qed.

Lemma getlines_closed delim s :
  exists tail, (tail = [] \/ tail = [EmptyString]) /\
    getlines delim (s +:+ String delim EmptyString) = getlines delim s ++ tail.
Proof.
  induction s as [|c s (tail & Htail & IH)]; string_simpl.
  - exists [EmptyString]. split; [by right|]. by rewrite Ascii.eqb_refl.
  - destruct (Ascii.eqb c delim).
    + exists tail. split; [done|]. by rewrite IH.
    + rewrite IH. destruct (getlines delim s) as [|line lines]; simpl.
      * exists []. split; [by left|]. by destruct Htail as [->| ->].
      * by exists tail.
Qed.

Lemma getlines_app delim s t :
  getlines delim (s +:+ String delim t)
  = getlines delim (s +:+ String delim EmptyString) ++ getlines delim t.
Proof.
  induction s as [|c s IH]; string_simpl.
  - by rewrite Ascii.eqb_refl.
  - destruct (Ascii.eqb c delim); [by rewrite IH|]. rewrite IH.
    destruct (getlines delim (s +:+ String delim EmptyString)) eqn:Hlines; [|done].
    destruct s; by apply getlines_nonempty in Hlines.
Qed.

Lemma getlines_free delim c s :
  has_char c s = false -> Forall (fun line => has_char c line = false) (getlines delim s).
Proof.
  induction s as [|a s IH]; simpl; [constructor|]. intros [Ha Hs]%orb_false_elim.
  specialize (IH Hs). destruct (Ascii.eqb a delim); [by constructor|].
  destruct IH as [|line lines Hline Hlines]; constructor; simpl; try done.
  - by rewrite Ha.
  - by rewrite Ha, Hline.
Qed.

Section parseQueryParams.
Context {stream : HexStream}.

Lemma add_pair_without_equals p params :
  has_char "=" p = false -> add_pair p params = Some params.
Proof.
  intros Hp. unfold add_pair.
  by rewrite (string_find_absent _ _ (index_char_absent _ _ Hp)).
Qed.

Lemma add_pair_union p : exists m, forall params, add_pair p params = Some (m ∪ params).
Proof.
  unfold add_pair. destruct (Z.eqb_spec (string_find "=" p) npos) as [_|Hpos]; simpl.
  { exists ∅. intros. by rewrite (left_id_L ∅ (∪)). }
  destruct (string_find_position _ _ Hpos) as (i & _ & -> & Hi). simpl in Hi.
  assert (size_t_wrap (Z.of_nat i + 1) <= Z.of_nat i + 1) as Hwrap.
  { unfold size_t_wrap. apply Z.mod_le; lia. }
  destruct (string_substr_in_range p 0 (Z.of_nat i)) as [encodedKey ->]; [lia|].
  destruct (string_substr_in_range p (size_t_wrap (Z.of_nat i + 1)) npos)
    as [encodedValue ->]; [lia|].
  simpl. eexists {[ _ := _ ]}. intros params. by rewrite insert_union_singleton_l.
Qed.

Lemma parse_pairs_union pairs :
  exists m, forall params, parse_pairs pairs params = Some (m ∪ params).
Proof.
  induction pairs as [|p pairs (m2 & IH)]; simpl.
  { exists ∅. intros. by rewrite (left_id_L ∅ (∪)). }
  destruct (add_pair_union p) as (m1 & Hp). exists (m2 ∪ m1). intros params.
  rewrite Hp. simpl. rewrite IH. by rewrite (assoc_L (∪)).
Qed.

Lemma parse_pairs_app pairs1 pairs2 params :
  parse_pairs (pairs1 ++ pairs2) params
  = parse_pairs pairs1 params ≫= parse_pairs pairs2.
Proof.
  revert params. induction pairs1 as [|p pairs1 IH]; intros params; simpl; [done|].
  destruct (add_pair p params); simpl; [apply IH|done].
Qed.

Lemma parse_pairs_without_equals pairs params :
  Forall (fun line => has_char "=" line = false) pairs ->
  parse_pairs pairs params = Some params.
Proof.
  induction 1 as [|p pairs Hp _ IH]; simpl; [done|].
  by rewrite add_pair_without_equals.
Qed.

Lemma parseQueryParams_returns query : is_Some (parseQueryParams query).
Proof.
  unfold parseQueryParams. destruct (parse_pairs_union (getlines "&" query)) as (m & ->).
  by eexists.
Qed.

Lemma parseQueryParams_app query1 query2 m1 m2 :
  parseQueryParams query1 = Some m1 -> parseQueryParams query2 = Some m2 ->
  parseQueryParams (query1 +:+ String "&" query2) = Some (m2 ∪ m1).
Proof.
  unfold parseQueryParams. intros H1 H2.
  rewrite getlines_app. destruct (getlines_closed "&" query1) as (tail & Htail & ->).
  rewrite !parse_pairs_app, H1. simpl.
  assert (parse_pairs tail m1 = Some m1) as ->.
  { apply parse_pairs_without_equals. destruct Htail as [->| ->]; by repeat constructor. }
  simpl. destruct (parse_pairs_union (getlines "&" query2)) as (m & Hm).
  rewrite Hm in H2 |- *. rewrite (right_id_L ∅ (∪)) in H2. by simplify_eq.
Qed.

Lemma parseQueryParams_pair k v :
  has_char "&" k = false -> has_char "=" k = false -> has_char "&" v = false ->
  representable (k +:+ String "=" v) ->
  parseQueryParams (k +:+ String "=" v) = Some {[ urlDecode k := urlDecode v ]}.
Proof.
  intros Hk Hk' Hv Hfit. unfold parseQueryParams.
  rewrite getlines_single; [|by rewrite has_char_app; simpl; rewrite Hk, Hv|by destruct k].
  simpl. unfold add_pair.
  destruct (string_find_present "=" _ _ Hfit (index_char_first "=" k v Hk'))
    as (-> & Hpos & _).
  destruct (Z.eqb_spec (Z.of_nat (String.length k)) npos) as [?|_]; [done|]. simpl.
  rewrite string_substr_app_l. simpl.
  unfold representable, npos in Hfit. rewrite string_length_app in Hfit. simpl in Hfit.
  rewrite size_t_wrap_small by lia.
  replace (k +:+ String "=" v) with ((k +:+ String "=" EmptyString) +:+ v)
    by (by rewrite string_app_assoc).
  replace (Z.of_nat (String.length k) + 1)
    with (Z.of_nat (String.length (k +:+ String "=" EmptyString)))
    by (rewrite string_length_app; simpl; lia).
  rewrite string_substr_app_r by (unfold npos; lia). simpl.
  by rewrite insert_empty.
Qed.

End parseQueryParams.

(** ** [extractPath] and [extractQueryString] *)

Lemma substring_length_le n m s :
  (String.length (String.substring n m s) <= String.length s)%nat.
Proof.
  revert n m. induction s as [|c s IH]; intros [|n] [|m]; simpl; try lia.
  - specialize (IH 0%nat m). lia.
  - specialize (IH n 0%nat). lia.
  - specialize (IH n (S m)). lia.
Qed.

Lemma string_substr_length s pos count t :
  string_substr s pos count = Some t -> (String.length t <= String.length s)%nat.
Proof.
  unfold string_substr. destruct (_ <? _); [done|]. intros [= <-].
  apply substring_length_le.
Qed.

Lemma string_substr_middle a b c :
  string_substr (a +:+ b +:+ c) (Z.of_nat (String.length a)) (Z.of_nat (String.length b))
  = Some b.
Proof.
  unfold string_substr. rewrite !string_length_app.
  destruct (Z.ltb_spec (Z.of_nat (String.length a + (String.length b + String.length c)))
              (Z.of_nat (String.length a))); [lia|].
  rewrite Z.min_l by lia. rewrite !Nat2Z.id.
  rewrite <- (Nat.add_0_r (String.length a)) at 1.
  by rewrite substring_app_r, substring_app_l.
Qed.

Lemma string_find_representable pattern s :
  representable s -> string_find pattern s = npos -> String.index 0 pattern s = None.
Proof.
  unfold string_find, representable, npos. intros Hs.
  destruct (String.index 0 pattern s) as [i|] eqn:Hi; [|done].
  apply index_bound in Hi. lia.
Qed.

Lemma extract_in_request_line target rest :
  let request := "GET " +:+ target +:+ " HTTP/" +:+ rest in
  representable request ->
  String.index 0 "HTTP/" request = Some (5 + String.length target)%nat ->
  size_t_wrap (string_find "GET" request + 4) = 4 /\
  string_find "HTTP/" request = Z.of_nat (5 + String.length target) /\
  Z.of_nat (5 + String.length target) <> npos /\
  string_substr request 4
    (size_t_wrap (Z.of_nat (5 + String.length target) - 4)) = Some (target +:+ " ").
Proof.
  intros request Hfit Hend.
  assert (string_find "GET" request = 0) as ->.
  { unfold string_find, request. by rewrite !string_app_cons, index_cons. }
  split; [done|].
  destruct (string_find_present _ _ _ Hfit Hend) as (-> & Hne & _).
  split; [done|]. split; [done|].
  unfold representable, request in Hfit.
  rewrite !string_length_app in Hfit. simpl in Hfit.
  rewrite size_t_wrap_small by lia.
  replace request with ("GET " +:+ (target +:+ " ") +:+ ("HTTP/" +:+ rest))
    by (unfold request; by rewrite string_app_assoc).
  replace (Z.of_nat (5 + String.length target) - 4)
    with (Z.of_nat (String.length (target +:+ " ")))
    by (rewrite string_length_app; simpl; lia).
  apply (string_substr_middle "GET ").
Qed.

Lemma extract_fallback request :
  String.index 0 "HTTP/" request = None ->
  extractPath request = Some "/"%string /\ extractQueryString request = Some EmptyString.
Proof.
  intros Hend%string_find_absent. unfold extractPath, extractQueryString.
  rewrite Hend, Z.eqb_refl. by rewrite andb_false_r.
Qed.

Lemma extract_with_query p q rest :
  let request := "GET " +:+ (p +:+ String "?" q) +:+ " HTTP/" +:+ rest in
  representable request ->
  String.index 0 "HTTP/" request = Some (5 + String.length (p +:+ String "?" q))%nat ->
  has_char "?" p = false ->
  extractPath request = Some p /\ extractQueryString request = Some (q +:+ " ").
Proof.
  intros request Hfit Hend Hp.
  destruct (extract_in_request_line _ _ Hfit Hend) as (Hstart & Hend' & Hne & Hfull).
  fold request in Hstart, Hend', Hfull.
  assert (representable ((p +:+ String "?" q) +:+ " ")) as Hfit'.
  { apply string_substr_length in Hfull. unfold representable in *. lia. }
  rewrite string_app_assoc, string_app_cons in Hfull, Hfit'.
  destruct (string_find_present "?" _ _ Hfit' (index_char_first "?" p (q +:+ " ") Hp))
    as (Hquestion & Hpos & _).
  unfold extractPath, extractQueryString. cbv zeta.
  rewrite Hstart, Hend', Hfull, (proj2 (Z.eqb_neq _ _) Hne).
  change (4 =? npos) with false. cbn [negb andb mbind option_bind].
  rewrite Hquestion, (proj2 (Z.eqb_neq _ _) Hpos). cbn [negb].
  split; [apply string_substr_app_l|].
  unfold representable in Hfit'. rewrite string_length_app in Hfit'. simpl in Hfit'.
  rewrite string_length_app in Hfit'. simpl in Hfit'.
  rewrite size_t_wrap_small by lia.
  replace (p +:+ String "?" (q +:+ " "))
    with ((p +:+ String "?" EmptyString) +:+ (q +:+ " "))
    by (by rewrite string_app_assoc).
  replace (Z.of_nat (String.length p) + 1)
    with (Z.of_nat (String.length (p +:+ String "?" EmptyString)))
    by (rewrite string_length_app; simpl; lia).
  apply string_substr_app_r. rewrite string_length_app. simpl. unfold npos. lia.
Qed.

Lemma string_substr_prefix s i :
  (i <= String.length s)%nat ->
  string_substr s 0 (Z.of_nat i) = Some (String.substring 0 i s).
Proof.
  intros Hi. unfold string_substr.
  destruct (Z.ltb_spec (Z.of_nat (String.length s)) 0); [lia|].
  rewrite Z.min_l by lia. by rewrite Nat2Z.id.
Qed.

Lemma extract_start request :
  representable request ->
  (String.index 0 "GET" request = None /\
   size_t_wrap (string_find "GET" request + 4) = 3) \/
  (exists g, String.index 0 "GET" request = Some g /\
     size_t_wrap (string_find "GET" request + 4) = Z.of_nat g + 4 /\
     (g + 3 <= String.length request)%nat).
Proof.
  intros Hfit. destruct (String.index 0 "GET" request) as [g|] eqn:Hg.
  - right. exists g. split; [done|].
    destruct (string_find_present _ _ _ Hfit Hg) as (-> & _ & Hbound).
    simpl in Hbound. split; [|done].
    unfold representable in Hfit. apply size_t_wrap_small. lia.
  - left. split; [done|]. by rewrite (string_find_absent _ _ Hg).
Qed.

Lemma path_of_full_path fullPath :
  is_Some (if negb (string_find "?" fullPath =? npos)
           then string_substr fullPath 0 (string_find "?" fullPath)
           else Some fullPath).
Proof.
  destruct (Z.eqb_spec (string_find "?" fullPath) npos) as [_|Hpos]; [done|].
  destruct (string_find_position _ _ Hpos) as (i & _ & -> & Hi).
  apply string_substr_in_range. lia.
Qed.

Lemma query_of_full_path fullPath :
  is_Some (if negb (string_find "?" fullPath =? npos)
           then string_substr fullPath (size_t_wrap (string_find "?" fullPath + 1)) npos
           else Some EmptyString).
Proof.
  destruct (Z.eqb_spec (string_find "?" fullPath) npos) as [_|Hpos]; [done|].
  destruct (string_find_position _ _ Hpos) as (i & _ & -> & Hi). simpl in Hi.
  apply string_substr_in_range.
  assert (size_t_wrap (Z.of_nat i + 1) <= Z.of_nat i + 1)
    by (unfold size_t_wrap; apply Z.mod_le; lia).
  lia.
Qed.

(** ** Decoding *)

Lemma map_chars_length f s : String.length (map_chars f s) = String.length s.
Proof. induction s as [|c s IH]; simpl; [done|]. by rewrite IH. Qed.

(** X7. A string without percent sign is decoded character by character:
    every plus sign becomes a space and every other character stays, so the
    length is kept. *)
Theorem urlDecode_without_percent {stream : HexStream} (s : string) :
  has_char "%" s = false ->
  urlDecode s = map_chars plus_to_space s /\
  String.length (urlDecode s) = String.length s.
Proof.
  intros Hs. rewrite urlDecode_plain by done. split; [done|]. apply map_chars_length.
Qed.

Lemma urlDecode_without_percent_witness :
  urlDecode (stream := field_hex_stream) "Main+Hall" = map_chars plus_to_space "Main+Hall" /\
  String.length (urlDecode (stream := field_hex_stream) "Main+Hall")
  = String.length "Main+Hall".
Proof. apply (urlDecode_without_percent (stream := field_hex_stream)). reflexivity. Defined.

(** X8. Decoding never makes a string longer, whatever the stream reads
    from the escapes. *)
Theorem urlDecode_never_longer {stream : HexStream} (s : string) :
  (String.length (urlDecode s) <= String.length s)%nat.
Proof. by apply (urlDecode_length_upto (String.length s)). Qed.

(** X9. Decoding undoes percent-encoding: when the percent sign and the
    plus sign are among the characters that are escaped, the decoded
    encoding of a string is that string. *)
Theorem urlDecode_percent_encode {stream : HexStream} (keep : ascii -> bool) (s : string) :
  keep "%"%char = false -> keep "+"%char = false ->
  urlDecode (percent_encode keep s) = s.
Proof.
  intros Hpercent Hplus. induction s as [|c s IH]; simpl; [done|].
  rewrite urlDecode_escape by done. by rewrite IH.
Qed.

Lemma urlDecode_percent_encode_witness :
  urlDecode (stream := field_hex_stream)
    (percent_encode (fun c => negb (Ascii.eqb c "%" || Ascii.eqb c "+" || Ascii.eqb c " "))
       "Main Hall +5%")
  = "Main Hall +5%"%string.
Proof.
  apply (urlDecode_percent_encode (stream := field_hex_stream)); reflexivity.
Defined.

(** X10. An escape that the end of the string cuts short loses its percent
    sign: after a prefix without percent sign, a percent sign followed by
    fewer than two characters is dropped, and what follows it is decoded as
    if it stood alone. *)
Theorem urlDecode_truncated_escape {stream : HexStream} (s t : string) :
  has_char "%" s = false -> (String.length t < 2)%nat ->
  urlDecode (s +:+ String "%" t) = urlDecode s +:+ urlDecode t.
Proof.
  intros Hs Ht. rewrite urlDecode_app_plain by done. f_equal.
  destruct t as [|c [|c' t]]; simpl in *; [done|done|lia].
Qed.

Lemma urlDecode_truncated_escape_witness :
  urlDecode (stream := field_hex_stream) ("100" +:+ String "%" "4")
  = urlDecode (stream := field_hex_stream) "100" +:+ urlDecode (stream := field_hex_stream) "4".
Proof.
  apply (urlDecode_truncated_escape (stream := field_hex_stream)); [reflexivity|simpl; lia].
Defined.

(** ** Query parameters *)

(** X11. [parseQueryParams] returns a map for every query: none of its
    [substr] calls is out of range. *)
Theorem parseQueryParams_never_throws {stream : HexStream} (query : string) :
  exists params, parseQueryParams query = Some params.
Proof. apply parseQueryParams_returns. Qed.

(** X12. The parameters of [query1&query2] are those of [query2] together
    with those of [query1] that [query2] does not set again. *)
Theorem parseQueryParams_ampersand {stream : HexStream} (query1 query2 : string)
    (params1 params2 : gmap string string) :
  parseQueryParams query1 = Some params1 ->
  parseQueryParams query2 = Some params2 ->
  parseQueryParams (query1 +:+ String "&" query2) = Some (params2 ∪ params1).
Proof. apply parseQueryParams_app. Qed.

Lemma parseQueryParams_ampersand_witness :
  parseQueryParams (stream := field_hex_stream) ("name=Gym" +:+ String "&" "name=Library&floor=2")
  = Some (({[ "name" := "Library" ]} ∪ {[ "floor" := "2" ]}) ∪ {[ "name" := "Gym" ]})%string.
Proof.
  apply (parseQueryParams_ampersand (stream := field_hex_stream)); by vm_compute.
Defined.

(** X13. A query that is one pair [k=v], with no ampersand in it and no
    equals sign in [k], gives the single parameter that maps the decoded
    [k] to the decoded [v]; equals signs in [v] belong to the value. *)
Theorem parseQueryParams_single_pair {stream : HexStream} (k v : string) :
  has_char "&" k = false -> has_char "=" k = false -> has_char "&" v = false ->
  representable (k +:+ String "=" v) ->
  parseQueryParams (k +:+ String "=" v) = Some {[ urlDecode k := urlDecode v ]}.
Proof. apply parseQueryParams_pair. Qed.

Lemma parseQueryParams_single_pair_witness :
  parseQueryParams (stream := field_hex_stream) ("name" +:+ String "=" "Main%20Hall=A")
  = Some {[ urlDecode (stream := field_hex_stream) "name"
            := urlDecode (stream := field_hex_stream) "Main%20Hall=A" ]}.
Proof.
  apply (parseQueryParams_single_pair (stream := field_hex_stream)); reflexivity.
Defined.

(** X14. A query without equals sign sets no parameter. *)
Theorem parseQueryParams_without_equals {stream : HexStream} (query : string) :
  has_char "=" query = false -> parseQueryParams query = Some ∅.
Proof.
  intros Hquery. unfold parseQueryParams.
  by apply parse_pairs_without_equals, getlines_free.
Qed.

Lemma parseQueryParams_without_equals_witness :
  parseQueryParams (stream := field_hex_stream) "name&&floor" = Some ∅.
Proof.
  apply (parseQueryParams_without_equals (stream := field_hex_stream)). reflexivity.
Defined.

(** X15. The last pair of a query wins: whatever comes before [&k=v], the
    decoded [k] is mapped to the decoded [v]. *)
Theorem parseQueryParams_last_wins {stream : HexStream} (query k v : string) :
  has_char "&" k = false -> has_char "=" k = false -> has_char "&" v = false ->
  representable (k +:+ String "=" v) ->
  exists params,
    parseQueryParams (query +:+ String "&" (k +:+ String "=" v)) = Some params /\
    params !! urlDecode k = Some (urlDecode v).
Proof.
  intros Hk Hk' Hv Hfit. destruct (parseQueryParams_returns query) as [params1 H1].
  eexists. split.
  - apply parseQueryParams_app; [done|]. by apply parseQueryParams_pair.
  - apply lookup_union_Some_l, lookup_singleton_eq.
Qed.

Lemma parseQueryParams_last_wins_witness :
  exists params,
    parseQueryParams (stream := field_hex_stream)
      ("name=Gym&floor=2" +:+ String "&" ("name" +:+ String "=" "Library")) = Some params /\
    params !! urlDecode (stream := field_hex_stream) "name"
    = Some (urlDecode (stream := field_hex_stream) "Library").
Proof.
  apply (parseQueryParams_last_wins (stream := field_hex_stream)); reflexivity.
Defined.

(** ** Request lines *)

(** X16. In a request line [GET p?q HTTP/...] whose first [HTTP/] is the
    protocol marker and whose [p] has no question mark, the path is [p] and
    the query string is [q] followed by the space that precedes the
    marker. *)
Theorem extract_request_line_with_query (p q rest : string) :
  let request := "GET " +:+ (p +:+ String "?" q) +:+ " HTTP/" +:+ rest in
  representable request ->
  String.index 0 "HTTP/" request = Some (5 + String.length (p +:+ String "?" q))%nat ->
  has_char "?" p = false ->
  extractPath request = Some p /\ extractQueryString request = Some (q +:+ " ").
Proof. apply extract_with_query. Qed.

Lemma extract_request_line_with_query_witness :
  extractPath ("GET " +:+ ("/api/search" +:+ String "?" "name=Library") +:+ " HTTP/" +:+ "1.1")
  = Some "/api/search"%string /\
  extractQueryString
    ("GET " +:+ ("/api/search" +:+ String "?" "name=Library") +:+ " HTTP/" +:+ "1.1")
  = Some ("name=Library" +:+ " ").
Proof.
  apply extract_request_line_with_query; reflexivity.
Defined.

(** X17. In a request line [GET target HTTP/...] whose first [HTTP/] is
    the protocol marker and whose [target] has no question mark, the query
    string is empty and the path is [target] followed by the space that
    precedes the marker. *)
Theorem extract_request_line_without_query (target rest : string) :
  let request := "GET " +:+ target +:+ " HTTP/" +:+ rest in
  representable request ->
  String.index 0 "HTTP/" request = Some (5 + String.length target)%nat ->
  has_char "?" target = false ->
  extractPath request = Some (target +:+ " ") /\
  extractQueryString request = Some EmptyString.
Proof.
  intros request Hfit Hend Htarget.
  destruct (extract_in_request_line _ _ Hfit Hend) as (Hstart & Hend' & Hne & Hfull).
  fold request in Hstart, Hend', Hfull.
  unfold extractPath, extractQueryString. cbv zeta.
  rewrite Hstart, Hend', Hfull, (proj2 (Z.eqb_neq _ _) Hne).
  change (4 =? npos) with false. cbn [negb andb mbind option_bind].
  rewrite (string_find_absent "?" (target +:+ " "))
    by (apply index_char_absent; rewrite has_char_app; by rewrite Htarget).
  by rewrite Z.eqb_refl.
Qed.

Lemma extract_request_line_without_query_witness :
  extractPath ("GET " +:+ "/api/nodes" +:+ " HTTP/" +:+ "1.1") = Some ("/api/nodes" +:+ " ") /\
  extractQueryString ("GET " +:+ "/api/nodes" +:+ " HTTP/" +:+ "1.1") = Some EmptyString.
Proof.
  apply extract_request_line_without_query; reflexivity.
Defined.

(** X18. [extractPath] and [extractQueryString] throw on the same
    requests, namely those that contain [HTTP/] and end with their first
    [GET]: there [substr] starts beyond the end of the request. *)
Theorem extract_throws_iff (request : string) :
  representable request ->
  (extractPath request = None <-> extractQueryString request = None) /\
  (extractPath request = None <->
   String.index 0 "HTTP/" request <> None /\
   exists g, String.index 0 "GET" request = Some g /\
     (g + 3)%nat = String.length request).
Proof.
  intros Hfit.
  destruct (String.index 0 "HTTP/" request) as [e|] eqn:He.
  2: { destruct (extract_fallback request He) as [-> ->]. split; [done|].
       split; [done|]. by intros [? _]. }
  destruct (string_find_present _ _ _ Hfit He) as (Hend & Hne & Hbound).
  simpl in Hbound. unfold extractPath, extractQueryString. cbv zeta.
  rewrite Hend, (proj2 (Z.eqb_neq _ _) Hne).
  unfold representable in Hfit.
  destruct (extract_start request Hfit) as [[Hg ->]|(g & Hg & -> & Hgbound)].
  - change (3 =? npos) with false. cbn [negb andb].
    destruct (string_substr_in_range request 3 (size_t_wrap (Z.of_nat e - 3)))
      as [fullPath ->]; [lia|]. cbn [mbind option_bind].
    destruct (path_of_full_path fullPath) as [path ->].
    destruct (query_of_full_path fullPath) as [query ->].
    split; [done|]. split; [done|]. intros [_ (g & ? & _)]. congruence.
  - assert (Z.of_nat g + 4 <> npos) as Hstart by (unfold npos; lia).
    rewrite (proj2 (Z.eqb_neq _ _) Hstart). cbn [negb andb].
    destruct (decide ((g + 3)%nat = String.length request)) as [Hlast|Hlast].
    + assert (string_substr request (Z.of_nat g + 4) (size_t_wrap (Z.of_nat e - (Z.of_nat g + 4)))
              = None) as ->.
      { unfold string_substr.
        destruct (Z.ltb_spec (Z.of_nat (String.length request)) (Z.of_nat g + 4)); [done|lia]. }
      split; [done|]. split; [|done]. intros _. split; [done|]. by exists g.
    + destruct (string_substr_in_range request (Z.of_nat g + 4)
                  (size_t_wrap (Z.of_nat e - (Z.of_nat g + 4))))
        as [fullPath ->]; [lia|]. cbn [mbind option_bind].
      destruct (path_of_full_path fullPath) as [path ->].
      destruct (query_of_full_path fullPath) as [query ->].
      split; [done|]. split; [done|]. intros [_ (g' & ? & ?)]. simplify_eq.
Qed.

Lemma extract_throws_iff_witness :
  (extractPath "HTTP/1.1 GET" = None <-> extractQueryString "HTTP/1.1 GET" = None) /\
  (extractPath "HTTP/1.1 GET" = None <->
   String.index 0 "HTTP/" "HTTP/1.1 GET" <> None /\
   exists g, String.index 0 "GET" "HTTP/1.1 GET" = Some g /\
     (g + 3)%nat = String.length "HTTP/1.1 GET").
Proof. apply extract_throws_iff. unfold representable. simpl. lia. Defined.

(** X19. A path that [extractPath] returns contains no question mark. *)
Theorem extractPath_no_question_mark (request path : string) :
  representable request -> extractPath request = Some path ->
  has_char "?" path = false.
Proof.
  intros Hfit. unfold extractPath. cbv zeta.
  destruct (_ && _); [|by intros [= <-]].
  destruct (string_substr request _ _) as [fullPath|] eqn:Hfull; [|done].
  cbn [mbind option_bind].
  assert (representable fullPath) as Hfit'.
  { apply string_substr_length in Hfull. unfold representable in *. lia. }
  destruct (Z.eqb_spec (string_find "?" fullPath) npos) as [Hnone|Hpos]; cbn [negb].
  - intros [= <-]. by apply index_char_None, string_find_representable.
  - destruct (string_find_position _ _ Hpos) as (i & Hi & -> & Hbound).
    rewrite string_substr_prefix by lia. intros [= <-]. by apply index_char_Some.
Qed.

Lemma extractPath_no_question_mark_witness :
  has_char "?" "/api/search" = false.
Proof.
  apply (extractPath_no_question_mark "GET /api/search?name=A?b HTTP/1.1");
    [unfold representable; simpl; lia|reflexivity].
Defined.

(** X20. The two utilities composed: the query string extracted from the
    request line [GET p?k=v HTTP/...] parses to the single parameter that
    maps the decoded [k] to the decoding of [v] followed by a space. *)
Theorem request_line_parameter {stream : HexStream} (p k v rest : string) :
  let request := "GET " +:+ (p +:+ String "?" (k +:+ String "=" v)) +:+ " HTTP/" +:+ rest in
  representable request ->
  String.index 0 "HTTP/" request
    = Some (5 + String.length (p +:+ String "?" (k +:+ String "=" v)))%nat ->
  has_char "?" p = false ->
  has_char "&" k = false -> has_char "=" k = false -> has_char "&" v = false ->
  extractQueryString request ≫= parseQueryParams
  = Some {[ urlDecode k := urlDecode (v +:+ " ") ]}.
Proof.
  intros request Hfit Hend Hp Hk Hk' Hv.
  destruct (extract_with_query p (k +:+ String "=" v) rest Hfit Hend Hp) as [_ Hquery].
  fold request in Hquery. rewrite Hquery. cbn [mbind option_bind].
  rewrite string_app_assoc, string_app_cons.
  apply parseQueryParams_pair; try done.
  - rewrite has_char_app. by rewrite Hv.
  - unfold representable, request in *.
    rewrite !string_length_app in Hfit. simpl in Hfit.
    rewrite !string_length_app in Hfit. simpl in Hfit.
    rewrite !string_length_app. simpl. rewrite !string_length_app. simpl. lia.
Qed.

Lemma request_line_parameter_witness :
  extractQueryString
    ("GET " +:+ ("/api/search" +:+ String "?" ("name" +:+ String "=" "Main+Hall"))
       +:+ " HTTP/" +:+ "1.1")
    ≫= parseQueryParams (stream := field_hex_stream)
  = Some {[ urlDecode (stream := field_hex_stream) "name"
            := urlDecode (stream := field_hex_stream) ("Main+Hall" +:+ " ") ]}.
Proof.
  apply (request_line_parameter (stream := field_hex_stream)); reflexivity.
Defined.

(** * Further properties of the sort *)

(** ** Quicksort: the trace *)

Section sort_trace.
Import QuickSortVisualizer.

Lemma quicksort_bound_nonneg m : 0 <= quicksort_bound m.
Proof. unfold quicksort_bound. destruct (Z.leb_spec m 1); nia. Qed.

Lemma quicksort_bound_split a b :
  0 <= a -> 0 <= b ->
  2 * (a + b + 1) + 1 + quicksort_bound a + quicksort_bound b
  <= quicksort_bound (a + b + 1) \/ a + b + 1 <= 1.
Proof.
  intros Ha Hb. unfold quicksort_bound.
  destruct (Z.leb_spec a 1), (Z.leb_spec b 1), (Z.leb_spec (a + b + 1) 1); nia.
Qed.

Lemma traced_refl low high bound placed s :
  0 <= bound -> traced low high bound placed s s.
Proof.
  intros Hbound. split; [done|]. split; [done|]. exists [].
  rewrite app_nil_r. simpl. by repeat split.
Qed.

(** A step recorded over unchanged arrays. *)
Lemma traced_record low high (placed : SortStep.t -> Prop) s st :
  SortStep.array st = distances s ->
  sort_step_in_bounds st -> placed st ->
  traced low high 1 placed s (mk (steps s ++ [st]) (stepNum s + 1) (distances s) (names s)).
Proof.
  intros Harray Hbounds Hplaced. split; [done|]. split; [done|]. exists [st].
  simpl. split; [done|]. split; [lia|]. split; (constructor; [done|constructor]).
Qed.

Lemma traced_trans low high low1 high1 low2 high2 bound1 bound2 bound
    (placed1 placed2 placed : SortStep.t -> Prop) s1 s2 s3 :
  traced low1 high1 bound1 placed1 s1 s2 ->
  traced low2 high2 bound2 placed2 s2 s3 ->
  low <= low1 -> high1 <= high -> low <= low2 -> high2 <= high ->
  bound1 + bound2 <= bound ->
  (forall st, placed1 st -> placed st) ->
  (forall st, placed2 st -> placed st) ->
  traced low high bound placed s1 s3.
Proof.
  intros (Hlen1 & Hout1 & t1 & Hsteps1 & Hbound1 & Hin1 & Hplaced1)
         (Hlen2 & Hout2 & t2 & Hsteps2 & Hbound2 & Hin2 & Hplaced2)
         ? ? ? ? Hbound H1 H2.
  split; [congruence|]. split.
  { intros k Hk. rewrite Hout2, Hout1; [done|lia..]. }
  exists (t1 ++ t2). rewrite Hsteps2, Hsteps1, app_assoc. split; [done|].
  rewrite length_app. split; [lia|]. split; [by apply Forall_app|].
  apply Forall_app. split; eapply Forall_impl; eauto.
Qed.

Lemma traced_mono low high low' high' bound bound' (placed placed' : SortStep.t -> Prop)
    s s' :
  traced low high bound placed s s' ->
  low' <= low -> high <= high' -> bound <= bound' ->
  (forall st, placed st -> placed' st) ->
  traced low' high' bound' placed' s s'.
Proof.
  intros (Hlen & Hout & trace & Hsteps & Hbound & Hin & Hplaced) ? ? ? Himpl.
  split; [done|]. split; [intros k Hk; apply Hout; lia|].
  exists trace. split; [done|]. split; [lia|]. split; [done|].
  by eapply Forall_impl.
Qed.

Lemma traced_step low high bound1 bound2 (placed : SortStep.t -> Prop) s1 s2 s3 :
  traced low high bound1 placed s1 s2 ->
  traced low high bound2 placed s2 s3 ->
  traced low high (bound1 + bound2) placed s1 s3.
Proof. intros H1 H2. eapply traced_trans; eauto; lia. Qed.

Lemma traced_swap low high (placed : SortStep.t -> Prop) s i j d' n' st :
  low <= i <= high -> low <= j <= high ->
  vec_swap (distances s) i j = Some d' ->
  SortStep.array st = d' -> sort_step_in_bounds st -> placed st ->
  traced low high 1 placed s (mk (steps s ++ [st]) (stepNum s + 1) d' n').
Proof.
  intros Hi Hj Hswap Harray Hbounds Hplaced. split; [by eapply vec_swap_length|].
  split.
  { intros k Hk. simpl. rewrite (vec_swap_get _ _ _ _ k Hswap).
    repeat case_decide; try done; lia. }
  exists [st]. simpl. split; [done|]. split; [lia|].
  split; (constructor; [done|constructor]).
Qed.

Lemma partition_step_traced pivot low high j i s :
  0 <= low -> low - 1 <= i < j -> low <= j < high ->
  high < Z.of_nat (length (distances s)) ->
  wlp (partition_step pivot low high j i)
      (fun i' s' =>
         i <= i' <= i + 1 /\
         traced low high 2 (fun st => SortStep.action st <> "Place pivot"%string) s s')
      s.
Proof.
  intros Hlow Hi Hj Hhigh. unfold partition_step.
  apply wlp_bind, wlp_distance_at. intros dj.
  apply wlp_bind, wlp_name_at. intros nj.
  apply wlp_bind, wlp_modify.
  match goal with |- wlp _ _ ?st => set (s1 := st) end.
  assert (traced low high 1 (fun st => SortStep.action st <> "Place pivot"%string) s s1)
    as Htr1.
  { apply traced_record; [done| |done].
    repeat split; simpl; try lia. }
  destruct (dj <? pivot).
  2: { apply wlp_ret. split; [lia|]. eapply traced_mono; [exact Htr1|lia..|done]. }
  apply wlp_bind, wlp_swap_distances. intros d' Hd'.
  apply wlp_bind, wlp_swap_names. intros n' Hn'.
  apply wlp_bind, wlp_name_at. intros ni.
  apply wlp_bind, wlp_name_at. intros nj'.
  apply wlp_bind, wlp_modify, wlp_ret. simpl in *. split; [lia|].
  apply (traced_step low high 1 1 _ s s1); [exact Htr1|].
  apply (traced_swap low high _ s1 (i + 1) j d' n'); simpl; [lia|lia|done|done| |done].
  pose proof (vec_swap_length _ _ _ _ Hd') as Hlen.
  repeat split; simpl; try lia.
Qed.

Lemma partition_traced low high s :
  0 <= low <= high -> high < Z.of_nat (length (distances s)) ->
  wlp (partition low high)
      (fun p s' =>
         low <= p <= high /\
         traced low high (2 * (high - low) + 2)
           (fun st => SortStep.action st = "Place pivot"%string ->
                      SortStep.pivotIndex st = p /\ SortStep.array st = distances s')
           s s')
      s.
Proof.
  intros Hlow Hhigh. unfold partition.
  apply wlp_bind, wlp_distance_at. intros pivot.
  apply wlp_bind, wlp_name_at. intros pivotName.
  apply wlp_bind, wlp_modify.
  match goal with |- wlp _ _ ?st => set (s1 := st) end.
  assert (traced low high 1 (fun st => SortStep.action st <> "Place pivot"%string) s s1)
    as Htr1.
  { apply traced_record; [done| |done]. repeat split; simpl; lia. }
  apply wlp_bind. eapply wlp_mono.
  { apply (wlp_for_range (fun k i s' =>
       low - 1 <= i < low + Z.of_nat k /\
       traced low high (1 + 2 * Z.of_nat k)
         (fun st => SortStep.action st <> "Place pivot"%string) s s')).
    { split; [lia|]. by rewrite Z.add_0_r. }
    intros k i s' Hk [Hi Htr]. eapply wlp_mono.
    { apply partition_step_traced; [lia|lia|lia|]. destruct Htr as [-> _]. done. }
    intros i' s'' [Hi' Htr']. split; [lia|].
    eapply traced_mono; [exact (traced_step _ _ _ _ _ _ _ _ Htr Htr')|lia..|done]. }
  intros i s2 [Hi Htr2].
  apply wlp_bind, wlp_swap_distances. intros d' Hd'.
  apply wlp_bind, wlp_swap_names. intros n' Hn'.
  apply wlp_bind, wlp_name_at. intros placed.
  apply wlp_bind, wlp_modify, wlp_ret. simpl in *.
  rewrite Z2Nat.id in Hi, Htr2 by lia. split; [lia|].
  apply (traced_mono low high low high (1 + 2 * (high - low) + 1) _
           (fun st => SortStep.action st = "Place pivot"%string ->
                      SortStep.pivotIndex st = i + 1 /\ SortStep.array st = d'));
    [|lia..|done].
  apply (traced_step low high (1 + 2 * (high - low)) 1 _ s s2).
  { eapply traced_mono; [exact Htr2|lia..|]. intros st Hst Hplace. done. }
  apply (traced_swap low high _ s2 (i + 1) high d' n'); simpl; [lia|lia|done|done| |done].
  pose proof (vec_swap_length _ _ _ _ Hd') as Hlen. destruct Htr2 as [Hlen2 _].
  repeat split; simpl; try lia.
Qed.

Lemma quicksort_traced fuel low high s :
  0 <= low -> high < Z.of_nat (length (distances s)) ->
  wlp (quicksort fuel low high)
      (fun _ s' =>
         traced low high (quicksort_bound (high - low + 1))
           (settled_within low high (distances s')) s s')
      s.
Proof.
  revert low high s. induction fuel as [|fuel IH]; intros low high s Hlow Hhigh; simpl;
    destruct (Z.ltb_spec low high) as [Hlt|Hge]; try done.
  1,3: apply wlp_ret, traced_refl, quicksort_bound_nonneg.
  apply wlp_bind, wlp_modify.
  match goal with |- wlp _ _ ?st => set (s0 := st) end.
  assert (traced low high 1 (fun st => SortStep.action st <> "Place pivot"%string) s s0)
    as Htr0.
  { apply traced_record; [done| |done]. repeat split; simpl; lia. }
  apply wlp_bind. eapply wlp_mono; [apply partition_traced; [lia|done]|].
  intros p s1 [Hp Htr1]. pose proof Htr1 as [Hlen1 _].
  apply wlp_bind. eapply wlp_mono; [apply IH; [lia|simpl in *; lia]|].
  intros [] s2 Htr2. pose proof Htr2 as (Hlen2 & Hout2 & _).
  eapply wlp_mono; [apply IH; [lia|simpl in *; lia]|].
  intros [] s3 Htr3. pose proof Htr3 as (Hlen3 & Hout3 & _).
  destruct (vec_get_in_range (distances s1) p) as [pivot Hpivot]; [simpl in *; lia|].
  set (placed := settled_within low high (distances s3)).
  assert (traced low high 1 placed s s0) as Htr0'.
  { eapply traced_mono; [exact Htr0|lia..|]. by intros st Hst Hplace. }
  assert (traced low high (2 * (high - low) + 2) placed s0 s1) as Htr1'.
  { eapply traced_mono; [exact Htr1|lia..|]. intros st Hst Hplace.
    destruct (Hst Hplace) as [-> ->]. split; [done|]. exists pivot. split; [done|].
    rewrite Hout3, Hout2 by lia. done. }
  assert (traced low high (quicksort_bound (p - low)) placed s1 s2) as Htr2'.
  { replace (p - low) with (p - 1 - low + 1) by lia.
    eapply traced_mono; [exact Htr2|lia..|]. intros st Hst Hplace.
    destruct (Hst Hplace) as (Hq & v & Hv & Hfinal). split; [lia|]. exists v.
    split; [done|]. by rewrite Hout3 by lia. }
  assert (traced low high (quicksort_bound (high - p)) placed s2 s3) as Htr3'.
  { replace (high - p) with (high - (p + 1) + 1) by lia.
    eapply traced_mono; [exact Htr3|lia..|]. intros st Hst Hplace.
    destruct (Hst Hplace) as (Hq & Hv). split; [lia|done]. }
  eapply traced_mono;
    [exact (traced_step _ _ _ _ _ _ _ _
              (traced_step _ _ _ _ _ _ _ _
                 (traced_step _ _ _ _ _ _ _ _ Htr0' Htr1') Htr2') Htr3')|lia|lia| |done].
  destruct (quicksort_bound_split (p - low) (high - p)) as [Hbound|?]; [lia|lia| |lia].
  replace (high - low + 1) with (p - low + (high - p) + 1) by lia. lia.
Qed.

Lemma measure_keeps g ref referenceNode i s :
  wlp (measure g ref referenceNode i tt)
      (fun _ s' =>
         steps s' = steps s /\
         (length (distances s') <= S (length (distances s)))%nat)
      s.
Proof.
  unfold measure. destruct (negb _); [|apply wlp_ret; split; [done|lia]].
  apply wlp_bind, wlp_getNode. intros currentNode.
  apply wlp_bind, wlp_defined. intros distance _.
  apply wlp_bind, wlp_gets, wlp_bind, wlp_modify, wlp_bind, wlp_gets, wlp_modify.
  simpl. split; [done|]. rewrite length_app. simpl. lia.
Qed.

Lemma sort_traced g ref s :
  indexable (nodes g) ->
  wlp (sort g ref)
      (fun _ s' =>
         exists trace,
           steps s' = steps s ++ trace /\
           Z.of_nat (length trace)
             <= quicksort_bound (Z.of_nat (length (distances s'))) + 2 /\
           Forall sort_step_in_bounds trace /\
           Forall (pivot_settled (distances s')) trace)
      s.
Proof.
  intros Hfit. unfold sort.
  apply wlp_bind, wlp_modify, wlp_bind, wlp_modify, wlp_bind, wlp_getNode.
  intros referenceNode. apply wlp_bind. eapply wlp_mono.
  { apply (wlp_for_range (fun k _ s' =>
       steps s' = steps s /\ (length (distances s') <= k)%nat)); [done|].
    intros k [] s' _ [Hsteps Hlen]. eapply wlp_mono; [apply measure_keeps|].
    intros [] s'' [Hsteps' Hlen']. split; [congruence|lia]. }
  intros [] s1 [Hsteps1 Hlen1].
  assert (indexable (distances s1)) as Hfit1.
  { unfold indexable, size in *. rewrite to_int_id in Hlen1; [lia|].
    unfold INT_MIN, INT_MAX in *. lia. }
  apply wlp_bind, wlp_gets, wlp_bind, wlp_modify.
  rewrite (last_index_indexable _ Hfit1).
  match goal with |- wlp _ _ ?st => set (s2 := st) end.
  apply wlp_bind.
  apply (wlp_mono _ (fun _ s3 =>
    traced 0 (Z.of_nat (length (distances s1)) - 1)
      (quicksort_bound (Z.of_nat (length (distances s1))))
      (settled_within 0 (Z.of_nat (length (distances s1)) - 1) (distances s3)) s2 s3)).
  { case_bool_decide.
    - apply wlp_ret, traced_refl, quicksort_bound_nonneg.
    - eapply wlp_mono; [apply quicksort_traced; simpl; lia|].
      intros [] s3 Htr. eapply traced_mono; [exact Htr|lia|lia| |done].
      apply Z.eq_le_incl. f_equal. lia. }
  intros [] s3 (Hlen3 & _ & tq & Hsteps3 & Hbound3 & Hin3 & Hplaced3).
  simpl in Hlen3, Hsteps3.
  assert (indexable (distances s3)) as Hfit3 by (unfold indexable in *; by rewrite Hlen3).
  apply wlp_bind, wlp_gets, wlp_bind, wlp_modify.
  rewrite (last_index_indexable _ Hfit3).
  match goal with |- wlp _ _ ?st => set (s4 := st) end.
  apply wlp_bind. eapply wlp_mono.
  { apply (wlp_for_range (fun _ _ s' => s' = s4)); [done|].
    intros k entries s' _ ->. unfold location_entry.
    apply wlp_bind, wlp_name_at. intros n.
    apply wlp_bind, wlp_distance_at. intros d. by apply wlp_ret. }
  intros entries s5 ->. apply wlp_bind, wlp_gets, wlp_ret.
  eexists (_ :: tq ++ [_]). subst s4. simpl. rewrite Hsteps3, Hsteps1.
  split; [by rewrite <- !app_assoc|].
  rewrite length_app, Hlen3. simpl. split; [lia|]. split.
  - constructor; [repeat split; simpl; lia|]. apply Forall_app. split; [done|].
    constructor; [|constructor]. repeat split; simpl; lia.
  - constructor; [done|]. apply Forall_app. split.
    + eapply Forall_impl; [exact Hplaced3|]. intros st Hst Hplace.
      by destruct (Hst Hplace) as [_ ?].
    + by constructor.
Qed.

End sort_trace.

(** ** The trace of a sort *)

Lemma follows_snapshot pairs a b :
  follows a b -> snapshot_of pairs a -> snapshot_of pairs b.
Proof.
  unfold follows, snapshot_of. intros Hfollows [Hlen Hperm].
  repeat case_decide.
  - destruct Hfollows as [Hd Hn]. split.
    + apply vec_swap_length in Hd, Hn. congruence.
    + by rewrite (vec_swap_zip _ _ _ _ _ _ Hd Hn).
  - destruct Hfollows as [Hd Hn]. split.
    + apply vec_swap_length in Hd, Hn. congruence.
    + by rewrite (vec_swap_zip _ _ _ _ _ _ Hd Hn).
  - destruct Hfollows as [-> ->]. done.
Qed.

Lemma replayable_snapshots pairs initial trace :
  replayable (initial :: trace) -> snapshot_of pairs initial ->
  Forall (snapshot_of pairs) (initial :: trace).
Proof.
  intros Hrep Hinitial. apply Forall_lookup. intros k.
  induction k as [|k IH]; intros st Hst.
  - simpl in Hst. by simplify_eq.
  - destruct (lookup_lt_is_Some_2 (initial :: trace) k) as [a Ha].
    { apply lookup_lt_Some in Hst. lia. }
    eapply follows_snapshot; [by apply (Hrep k)|by apply IH].
Qed.

(** X21. Every step of a sort shows the same pairs: in each snapshot the
    names are as many as the distances, and the (distance, name) pairs are
    those of the preprocessing in some order, so that no name is ever
    separated from its distance. *)
Theorem sort_snapshots_rearranged (g : Graph) (ref : Z) (referenceNode : Node)
    (pairs : list (Z * string)) (s : QuickSortVisualizer.t) :
  indexable (nodes g) ->
  preprocessing g ref referenceNode pairs ->
  exists r s' trace,
    QuickSortVisualizer.sort g ref s = Ok r s' /\
    QuickSortVisualizer.steps s' = QuickSortVisualizer.steps s ++ trace /\
    Forall (snapshot_of pairs) trace.
Proof.
  intros Hfit Hpre.
  destruct (proj1 (wp_returns _ _ _) (sort_spec g ref referenceNode pairs s Hfit Hpre))
    as (r & s' & Hrun & initial & trace & final & Hsteps & _ & Hpairs & _ & _ & _ & _ &
        _ & _ & _ & _ & _ & _ & Hlen & _).
  destruct (wlp_returned _ _ _ _ _ (sort_logged g ref s) Hrun)
    as (trace' & st & Hsteps' & Hrep & _).
  exists r, s', (initial :: trace ++ [final]). do 2 (split; [done|]).
  rewrite Hsteps in Hsteps'. apply app_inv_head in Hsteps'. rewrite <- Hsteps' in Hrep.
  apply replayable_snapshots; [done|]. split; [done|]. by rewrite Hpairs.
Qed.

Lemma sort_snapshots_rearranged_witness :
  indexable (nodes campus4) /\
  preprocessing campus4 0 (mkNode 0 "A" "hall" 0 0)
    [(5, "B"%string); (5, "C"%string); (1, "D"%string)] /\
  exists r s' trace,
    QuickSortVisualizer.sort campus4 0 QuickSortVisualizer.new = Ok r s' /\
    QuickSortVisualizer.steps s'
      = QuickSortVisualizer.steps QuickSortVisualizer.new ++ trace /\
    Forall (snapshot_of [(5, "B"%string); (5, "C"%string); (1, "D"%string)]) trace.
Proof.
  split; [by vm_compute|]. split; [split; [done|repeat constructor]|].
  apply (sort_snapshots_rearranged campus4 0 (mkNode 0 "A" "hall" 0 0)).
  - by vm_compute.
  - split; [done|repeat constructor].
Defined.

Lemma sort_final_length g ref referenceNode pairs s r s' :
  indexable (nodes g) -> preprocessing g ref referenceNode pairs ->
  QuickSortVisualizer.sort g ref s = Ok r s' ->
  Z.of_nat (length (QuickSortVisualizer.distances s')) = Z.of_nat (length (nodes g)) - 1.
Proof.
  intros Hfit Hpre Hrun.
  destruct (proj1 (wp_returns _ _ _) (sort_spec g ref referenceNode pairs s Hfit Hpre))
    as (r' & s'' & Hrun' & initial & trace & final & _ & _ & _ & _ & _ & _ & _ &
        _ & Hperm & _ & _ & _ & _ & _ & Haligned).
  rewrite Hrun in Hrun'. simplify_eq.
  apply Permutation_length in Hperm. rewrite length_zip in Hperm.
  unfold aligned in Haligned. pose proof (preprocessing_length _ _ _ _ Hpre). lia.
Qed.

(** X22. A sort over a graph of n + 1 locations appends at most
    n * n + 2 * n - 1 steps to the trace, and only 2 when n <= 1. *)
Theorem sort_trace_quadratic (g : Graph) (ref : Z) (referenceNode : Node)
    (pairs : list (Z * string)) (s : QuickSortVisualizer.t) :
  indexable (nodes g) ->
  preprocessing g ref referenceNode pairs ->
  exists r s' trace,
    QuickSortVisualizer.sort g ref s = Ok r s' /\
    QuickSortVisualizer.steps s' = QuickSortVisualizer.steps s ++ trace /\
    Z.of_nat (length trace) <= quicksort_bound (Z.of_nat (length (nodes g)) - 1) + 2.
Proof.
  intros Hfit Hpre.
  destruct (proj1 (wp_returns _ _ _) (sort_spec g ref referenceNode pairs s Hfit Hpre))
    as (r & s' & Hrun & _).
  destruct (wlp_returned _ _ _ _ _ (sort_traced g ref s Hfit) Hrun)
    as (trace & Hsteps & Hbound & _).
  exists r, s', trace. do 2 (split; [done|]).
  by rewrite <- (sort_final_length _ _ _ _ _ _ _ Hfit Hpre Hrun).
Qed.

Lemma sort_trace_quadratic_witness :
  indexable (nodes campus4) /\
  preprocessing campus4 0 (mkNode 0 "A" "hall" 0 0)
    [(5, "B"%string); (5, "C"%string); (1, "D"%string)] /\
  exists r s' trace,
    QuickSortVisualizer.sort campus4 0 QuickSortVisualizer.new = Ok r s' /\
    QuickSortVisualizer.steps s'
      = QuickSortVisualizer.steps QuickSortVisualizer.new ++ trace /\
    Z.of_nat (length trace) <= quicksort_bound (Z.of_nat (length (nodes campus4)) - 1) + 2.
Proof.
  split; [by vm_compute|]. split; [split; [done|repeat constructor]|].
  apply (sort_trace_quadratic campus4 0 (mkNode 0 "A" "hall" 0 0)
           [(5, "B"%string); (5, "C"%string); (1, "D"%string)]).
  - by vm_compute.
  - split; [done|repeat constructor].
Defined.

(** X23. No step of a sort points outside its snapshot: [low..high] is a
    range of the array shown (empty only for an empty array), the pivot and
    the right pointer are unset or within that range, and the left pointer
    is unset or between [low - 1] and the right pointer. *)
Theorem sort_steps_in_bounds (g : Graph) (ref : Z) (referenceNode : Node)
    (pairs : list (Z * string)) (s : QuickSortVisualizer.t) :
  indexable (nodes g) ->
  preprocessing g ref referenceNode pairs ->
  exists r s' trace,
    QuickSortVisualizer.sort g ref s = Ok r s' /\
    QuickSortVisualizer.steps s' = QuickSortVisualizer.steps s ++ trace /\
    Forall sort_step_in_bounds trace.
Proof.
  intros Hfit Hpre.
  destruct (proj1 (wp_returns _ _ _) (sort_spec g ref referenceNode pairs s Hfit Hpre))
    as (r & s' & Hrun & _).
  destruct (wlp_returned _ _ _ _ _ (sort_traced g ref s Hfit) Hrun)
    as (trace & Hsteps & _ & Hin & _).
  by exists r, s', trace.
Qed.

Lemma sort_steps_in_bounds_witness :
  indexable (nodes campus4) /\
  preprocessing campus4 0 (mkNode 0 "A" "hall" 0 0)
    [(5, "B"%string); (5, "C"%string); (1, "D"%string)] /\
  exists r s' trace,
    QuickSortVisualizer.sort campus4 0 QuickSortVisualizer.new = Ok r s' /\
    QuickSortVisualizer.steps s'
      = QuickSortVisualizer.steps QuickSortVisualizer.new ++ trace /\
    Forall sort_step_in_bounds trace.
Proof.
  split; [by vm_compute|]. split; [split; [done|repeat constructor]|].
  apply (sort_steps_in_bounds campus4 0 (mkNode 0 "A" "hall" 0 0)
           [(5, "B"%string); (5, "C"%string); (1, "D"%string)]).
  - by vm_compute.
  - split; [done|repeat constructor].
Defined.

(** X24. A placed pivot stays: the distance that a "Place pivot" step shows
    at its pivot index is the distance at that index when the sort is
    over. *)
Theorem sort_pivots_settled (g : Graph) (ref : Z) (referenceNode : Node)
    (pairs : list (Z * string)) (s : QuickSortVisualizer.t) :
  indexable (nodes g) ->
  preprocessing g ref referenceNode pairs ->
  exists r s' trace,
    QuickSortVisualizer.sort g ref s = Ok r s' /\
    QuickSortVisualizer.steps s' = QuickSortVisualizer.steps s ++ trace /\
    Forall (pivot_settled (QuickSortVisualizer.distances s')) trace.
Proof.
  intros Hfit Hpre.
  destruct (proj1 (wp_returns _ _ _) (sort_spec g ref referenceNode pairs s Hfit Hpre))
    as (r & s' & Hrun & _).
  destruct (wlp_returned _ _ _ _ _ (sort_traced g ref s Hfit) Hrun)
    as (trace & Hsteps & _ & _ & Hplaced).
  by exists r, s', trace.
Qed.

Lemma sort_pivots_settled_witness :
  indexable (nodes campus4) /\
  preprocessing campus4 0 (mkNode 0 "A" "hall" 0 0)
    [(5, "B"%string); (5, "C"%string); (1, "D"%string)] /\
  exists r s' trace,
    QuickSortVisualizer.sort campus4 0 QuickSortVisualizer.new = Ok r s' /\
    QuickSortVisualizer.steps s'
      = QuickSortVisualizer.steps QuickSortVisualizer.new ++ trace /\
    Forall (pivot_settled (QuickSortVisualizer.distances s')) trace.
Proof.
  split; [by vm_compute|]. split; [split; [done|repeat constructor]|].
  apply (sort_pivots_settled campus4 0 (mkNode 0 "A" "hall" 0 0)
           [(5, "B"%string); (5, "C"%string); (1, "D"%string)]).
  - by vm_compute.
  - split; [done|repeat constructor].
Defined.

(** ** The JSON of the steps *)

Ltac json_lookup_in H :=
  repeat first [ rewrite json_get_set_eq in H
               | rewrite json_get_set_ne in H by discriminate ].

Ltac json_field key H Hkey :=
  pose proof (f_equal (json_get key) H) as Hkey;
  json_lookup_in Hkey; injection Hkey as Hkey.

(** X25. The JSON of a search step determines the step: two steps with the
    same JSON are the same step, whatever graphs they are written
    against. *)
Theorem search_step_json_injective (s s' : SearchStep.t) (g g' : Graph) :
  SearchStep.toJSON s g = SearchStep.toJSON s' g' -> s = s'.
Proof.
  intros H. unfold SearchStep.toJSON in H. destruct s, s'; simpl in H.
  json_field "step"%string H H1. json_field "action"%string H H2.
  json_field "explanation"%string H H3. json_field "left"%string H H4.
  json_field "right"%string H H5. json_field "mid"%string H H6.
  json_field "compareNode"%string H H7. json_field "found"%string H H8.
  by subst.
Qed.

Lemma search_step_json_injective_witness :
  SearchStep.mk 1 "Checking middle element" "Range: [0, 2]" 0 2 1 1 false
  = SearchStep.mk 1 "Checking middle element" "Range: [0, 2]" 0 2 1 1 false.
Proof. apply (search_step_json_injective _ _ campus3 campus4). reflexivity. Defined.

Lemma map_JInt_inj l l' : map JInt l = map JInt l' -> l = l'.
Proof.
  revert l'. induction l as [|a l IH]; intros [|a' l']; simpl; try done.
  intros [= -> ?%IH]. by subst.
Qed.

Lemma map_JString_inj l l' : map JString l = map JString l' -> l = l'.
Proof.
  revert l'. induction l as [|a l IH]; intros [|a' l']; simpl; try done.
  intros [= -> ?%IH]. by subst.
Qed.

(** X26. The JSON of a sort step determines the step, snapshot
    included. *)
Theorem sort_step_json_injective (s s' : SortStep.t) :
  SortStep.toJSON s = SortStep.toJSON s' -> s = s'.
Proof.
  intros H. unfold SortStep.toJSON in H. destruct s, s'; simpl in H.
  json_field "step"%string H H1. json_field "action"%string H H2.
  json_field "explanation"%string H H3. json_field "array"%string H H4.
  json_field "names"%string H H5. json_field "pivot"%string H H6.
  json_field "left"%string H H7. json_field "right"%string H H8.
  json_field "low"%string H H9. json_field "high"%string H H10.
  apply map_JInt_inj in H4. apply map_JString_inj in H5. by subst.
Qed.

Lemma sort_step_json_injective_witness :
  SortStep.mk 0 "Initial array" "Sorting 2 buildings" [5; 1] ["B"; "D"]%string (-1) (-1) (-1) 0 1
  = SortStep.mk 0 "Initial array" "Sorting 2 buildings" [5; 1] ["B"; "D"]%string (-1) (-1) (-1) 0 1.
Proof. apply sort_step_json_injective. reflexivity. Defined.

(** X27. A visualizer never clears its trace: the "steps" of a search
    response list the steps that the visualizer held before the call,
    followed by those of the call, of which there is one at least. *)
Theorem search_response_cumulative {impl : StdSort} (g : Graph) (q : string)
    (s : BinarySearchVisualizer.t) :
  indexable (getNodes g) ->
  exists r s' trace,
    BinarySearchVisualizer.search g q s = Ok r s' /\
    trace <> [] /\
    json_get "steps" r
    = Some (JArray (map (fun st => SearchStep.toJSON st g)
                      (BinarySearchVisualizer.steps s ++ trace))).
Proof.
  intros Hfit. pose proof (search_spec g q s Hfit) as Hspec.
  apply wp_returns in Hspec
    as (r & s' & Hrun & start & trace & Hsteps & _ & _ & _ & _ & Hjson & _).
  exists r, s', (start :: trace). split; [done|]. split; [done|]. by rewrite <- Hsteps.
Qed.

Lemma search_response_cumulative_witness :
  exists r s' trace,
    BinarySearchVisualizer.search (impl := stable_std_sort) campus3 "Gym"
      (BinarySearchVisualizer.mk
         [SearchStep.mk 0 "Starting binary search" "earlier" 0 2 (-1) (-1) false] 1)
    = Ok r s' /\
    trace <> [] /\
    json_get "steps" r
    = Some (JArray (map (fun st => SearchStep.toJSON st campus3)
                      ([SearchStep.mk 0 "Starting binary search" "earlier" 0 2 (-1) (-1) false]
                       ++ trace))).
Proof.
  apply (search_response_cumulative (impl := stable_std_sort)). by vm_compute.
Defined.

(** X28. The same for a sort: the "steps" of its response list the steps
    that the visualizer held before the call, followed by those of the
    call, of which there are two at least. *)
Theorem sort_response_cumulative (g : Graph) (ref : Z) (referenceNode : Node)
    (pairs : list (Z * string)) (s : QuickSortVisualizer.t) :
  indexable (nodes g) ->
  preprocessing g ref referenceNode pairs ->
  exists r s' trace,
    QuickSortVisualizer.sort g ref s = Ok r s' /\
    (2 <= length trace)%nat /\
    json_get "steps" r
    = Some (JArray (map SortStep.toJSON (QuickSortVisualizer.steps s ++ trace))).
Proof.
  intros Hfit Hpre.
  destruct (proj1 (wp_returns _ _ _) (sort_spec g ref referenceNode pairs s Hfit Hpre))
    as (r & s' & Hrun & initial & trace & final & Hsteps & _ & _ & _ & _ & _ & _ &
        _ & _ & _ & _ & Hjson & _).
  exists r, s', (initial :: trace ++ [final]). split; [done|]. split.
  - simpl. rewrite length_app. simpl. lia.
  - by rewrite <- Hsteps.
Qed.

Lemma sort_response_cumulative_witness :
  indexable (nodes campus4) /\
  preprocessing campus4 0 (mkNode 0 "A" "hall" 0 0)
    [(5, "B"%string); (5, "C"%string); (1, "D"%string)] /\
  exists r s' trace,
    QuickSortVisualizer.sort campus4 0
      (QuickSortVisualizer.mk
         [SortStep.mk 0 "Sorted!" "earlier" [] [] (-1) (-1) (-1) 0 (-1)] 1 [] [])
    = Ok r s' /\
    (2 <= length trace)%nat /\
    json_get "steps" r
    = Some (JArray (map SortStep.toJSON
                      ([SortStep.mk 0 "Sorted!" "earlier" [] [] (-1) (-1) (-1) 0 (-1)]
                       ++ trace))).
Proof.
  split; [by vm_compute|]. split; [split; [done|repeat constructor]|].
  apply (sort_response_cumulative campus4 0 (mkNode 0 "A" "hall" 0 0)
           [(5, "B"%string); (5, "C"%string); (1, "D"%string)]).
  - by vm_compute.
  - split; [done|repeat constructor].
Defined.

(** * The [std::sort] of the library *)

(** ** The result is a rearrangement *)

Lemma vec_set_Some {A} (v : list A) i a v' :
  vec_set v i a = Some v' <->
  0 <= i < Z.of_nat (length v) /\ v' = <[Z.to_nat i := a]> v.
Proof.
  unfold vec_set. destruct (Z.leb_spec 0 i), (Z.ltb_spec i (Z.of_nat (length v)));
    simpl; split; try (intros [= <-]; split; [lia|done]); try (intros [? ->]; done);
    try (intros [? _]; lia); done.
Qed.

Lemma vec_swap_perm {A} (v : list A) i j v' : vec_swap v i j = Some v' -> v' ≡ₚ v.
Proof.
  intros (a & b & [_ Ha]%vec_get_Some & [_ Hb]%vec_get_Some & ->)%vec_swap_Some.
  by apply Permutation_insert_swap.
Qed.

(** Moving the hole of a vector from [h] to [j]: the cell [h] takes the
    element of [j], and the pending element then goes to [j]. *)
Lemma hole_move {A} (v : list A) (h j : nat) (x y : A) :
  (h < length v)%nat -> v !! j = Some y ->
  <[j := x]> (<[h := y]> v) ≡ₚ <[h := x]> v.
Proof.
  intros Hh Hj. destruct (decide (h = j)) as [->|Hne].
  { by rewrite list_insert_insert_eq. }
  rewrite <- (list_insert_insert_eq v h y x).
  apply Permutation_insert_swap.
  - by rewrite list_lookup_insert_eq.
  - by rewrite list_lookup_insert_ne.
Qed.

Lemma hole_move_vec {A} (v : list A) (h j : Z) (x y : A) v' :
  vec_get v j = Some y -> vec_set v h y = Some v' ->
  <[Z.to_nat j := x]> v' ≡ₚ <[Z.to_nat h := x]> v.
Proof.
  intros [_ Hj]%vec_get_Some [Hh ->]%vec_set_Some. apply hole_move; [lia|done].
Qed.

Lemma for_each_position_perm {A} count first (body : Z -> list A -> option (list A)) v v' :
  (forall i w w', body i w = Some w' -> w' ≡ₚ w) ->
  for_each_position count first body v = Some v' -> v' ≡ₚ v.
Proof.
  intros Hbody. revert first v. induction count as [|count IH]; intros first v; simpl.
  { by intros [= <-]. }
  destruct (body first v) as [w|] eqn:Hw; simpl; [|done].
  intros ?%IH. by rewrite <- (Hbody _ _ _ Hw).
Qed.

Section libstdcxx_perm.
Context {A : Type} (comp : A -> A -> bool).

Lemma unguarded_linear_insert_loop_perm fuel val last v v' :
  unguarded_linear_insert_loop comp fuel val last v = Some v' ->
  v' ≡ₚ <[Z.to_nat last := val]> v.
Proof.
  revert last v. induction fuel as [|fuel IH]; intros last v; simpl;
    destruct (vec_get v (last - 1)) as [next|] eqn:Hnext; simpl; try done;
    destruct (comp val next); try done;
    try (by intros [_ ->]%vec_set_Some).
  destruct (vec_set v last next) as [w|] eqn:Hw; simpl; [|done].
  intros ->%IH. by apply (hole_move_vec v last (last - 1) val next).
Qed.

Lemma unguarded_linear_insert_perm last v v' :
  unguarded_linear_insert comp last v = Some v' -> v' ≡ₚ v.
Proof.
  unfold unguarded_linear_insert. destruct (vec_get v last) as [val|] eqn:Hval; simpl; [|done].
  intros ->%unguarded_linear_insert_loop_perm.
  apply vec_get_Some in Hval as [_ Hval]. by rewrite list_insert_id.
Qed.

Lemma move_backward_1_perm first i (v v1 : list A) val v' :
  vec_get v i = Some val -> move_backward_1 first i v = Some v1 ->
  vec_set v1 first val = Some v' -> v' ≡ₚ v.
Proof.
  intros [_ Hval]%vec_get_Some. unfold move_backward_1, vec_range.
  destruct (Z.leb_spec 0 first), (Z.leb_spec first i),
    (Z.ltb_spec i (Z.of_nat (length v))); simpl; try done.
  intros [= <-] [_ ->]%vec_set_Some.
  assert (Z.to_nat first < length v)%nat as Hfirst by lia.
  destruct (lookup_lt_is_Some_2 v (Z.to_nat first) Hfirst) as [f Hf].
  replace (Z.to_nat first + 1)%nat with (S (Z.to_nat first)) by lia.
  replace (Z.to_nat i + 1)%nat with (S (Z.to_nat i)) by lia.
  rewrite (take_S_r v (Z.to_nat first) f) by done. rewrite <- app_assoc.
  rewrite insert_app_r_alt by (rewrite length_take; lia).
  rewrite length_take, Nat.min_l, Nat.sub_diag by lia. simpl.
  rewrite <- (take_drop (Z.to_nat first) v) at 4.
  apply Permutation_app_head.
  rewrite <- (take_drop (Z.to_nat (i - first)) (drop (Z.to_nat first) v)) at 2.
  rewrite drop_drop.
  replace (Z.to_nat first + Z.to_nat (i - first))%nat with (Z.to_nat i) by lia.
  rewrite (drop_S v val (Z.to_nat i)) by done.
  apply Permutation_middle.
Qed.

Lemma insertion_sort_step_perm first i v v' :
  insertion_sort_step comp first i v = Some v' -> v' ≡ₚ v.
Proof.
  unfold insertion_sort_step.
  destruct (vec_get v i) as [x|] eqn:Hx; simpl; [|done].
  destruct (vec_get v first) as [f|] eqn:Hf; simpl; [|done].
  destruct (comp x f); [|apply unguarded_linear_insert_perm].
  destruct (move_backward_1 first i v) as [v1|] eqn:Hv1; simpl; [|done].
  by apply (move_backward_1_perm first i v v1 x).
Qed.

Lemma insertion_sort_perm first last v v' :
  insertion_sort comp first last v = Some v' -> v' ≡ₚ v.
Proof.
  unfold insertion_sort. destruct (first =? last); [by intros [= <-]|].
  apply for_each_position_perm. intros i w w'. apply insertion_sort_step_perm.
Qed.

Lemma unguarded_insertion_sort_perm first last v v' :
  unguarded_insertion_sort comp first last v = Some v' -> v' ≡ₚ v.
Proof. apply for_each_position_perm. intros i w w'. apply unguarded_linear_insert_perm. Qed.

Lemma final_insertion_sort_perm first last v v' :
  final_insertion_sort comp first last v = Some v' -> v' ≡ₚ v.
Proof.
  unfold final_insertion_sort. destruct (_ >? _); [|apply insertion_sort_perm].
  destruct (insertion_sort comp first (first + S_threshold) v) as [w|] eqn:Hw; simpl; [|done].
  intros ->%unguarded_insertion_sort_perm. by apply insertion_sort_perm in Hw.
Qed.

Lemma move_median_to_first_perm result a b c v v' :
  move_median_to_first comp result a b c v = Some v' -> v' ≡ₚ v.
Proof.
  unfold move_median_to_first.
  destruct (vec_get v a) as [va|]; simpl; [|done].
  destruct (vec_get v b) as [vb|]; simpl; [|done].
  destruct (vec_get v c) as [vc|]; simpl; [|done].
  repeat case_match; apply vec_swap_perm.
Qed.

Lemma unguarded_partition_perm fuel first last pivot v cut v' :
  unguarded_partition comp fuel first last pivot v = Some (cut, v') -> v' ≡ₚ v.
Proof.
  revert first last v. induction fuel as [|fuel IH]; intros first last v; simpl;
    destruct (scan_up comp (length v) v first pivot) as [first'|]; simpl; try done;
    destruct (scan_down comp (length v) v (last - 1) pivot) as [last'|]; simpl; try done;
    destruct (first' <? last'); simpl; try done; try (by intros [= _ <-]).
  destruct (vec_swap v first' last') as [w|] eqn:Hw; simpl; [|done].
  intros ->%IH. by apply vec_swap_perm in Hw.
Qed.

Lemma unguarded_partition_pivot_perm first last v cut v' :
  unguarded_partition_pivot comp first last v = Some (cut, v') -> v' ≡ₚ v.
Proof.
  unfold unguarded_partition_pivot.
  destruct (move_median_to_first comp first (first + 1) _ (last - 1) v) as [w|] eqn:Hw;
    simpl; [|done].
  intros ->%unguarded_partition_perm. by apply move_median_to_first_perm in Hw.
Qed.

Lemma push_heap_loop_perm fuel first holeIndex topIndex value v v' :
  push_heap_loop comp fuel first holeIndex topIndex value v = Some v' ->
  v' ≡ₚ <[Z.to_nat (first + holeIndex) := value]> v.
Proof.
  revert holeIndex v. induction fuel as [|fuel IH]; intros holeIndex v; simpl;
    destruct (if topIndex <? holeIndex then _ else _) as [[]|]; simpl; try done;
    try (by intros [_ ->]%vec_set_Some).
  destruct (vec_get v (first + Z.quot (holeIndex - 1) 2)) as [p|] eqn:Hp; simpl; [|done].
  destruct (vec_set v (first + holeIndex) p) as [w|] eqn:Hw; simpl; [|done].
  intros ->%IH. by apply (hole_move_vec v _ _ value p).
Qed.

Lemma adjust_heap_loop_perm fuel first holeIndex secondChild len v hole' second' v' x :
  adjust_heap_loop comp fuel first holeIndex secondChild len v = Some (hole', second', v') ->
  <[Z.to_nat (first + hole') := x]> v' ≡ₚ <[Z.to_nat (first + holeIndex) := x]> v.
Proof.
  revert holeIndex secondChild v. induction fuel as [|fuel IH];
    intros holeIndex secondChild v; simpl;
    destruct (secondChild <? Z.quot (len - 1) 2); try done;
    try (by intros [= <- _ <-]).
  destruct (vec_get v (first + 2 * (secondChild + 1))) as [r|] eqn:Hr; simpl; [|done].
  destruct (vec_get v (first + (2 * (secondChild + 1) - 1))) as [l|] eqn:Hl; simpl; [|done].
  set (second := if comp r l then _ else _).
  destruct (vec_get v (first + second)) as [child|] eqn:Hchild; simpl; [|done].
  destruct (vec_set v (first + holeIndex) child) as [w|] eqn:Hw; simpl; [|done].
  intros ->%IH. by apply (hole_move_vec v _ _ x child).
Qed.

Lemma adjust_heap_perm first holeIndex len value v v' :
  adjust_heap comp first holeIndex len value v = Some v' ->
  v' ≡ₚ <[Z.to_nat (first + holeIndex) := value]> v.
Proof.
  unfold adjust_heap, push_heap.
  destruct (adjust_heap_loop comp (length v) first holeIndex holeIndex len v)
    as [[[hole1 second1] v1]|] eqn:H1; simpl; [|done].
  apply (adjust_heap_loop_perm _ _ _ _ _ _ _ _ _ value) in H1.
  destruct (_ && _); simpl.
  - destruct (vec_get v1 (first + (2 * (second1 + 1) - 1))) as [child|] eqn:Hchild;
      simpl; [|done].
    destruct (vec_set v1 (first + hole1) child) as [v2|] eqn:Hv2; simpl; [|done].
    intros ->%push_heap_loop_perm. rewrite <- H1.
    by apply (hole_move_vec v1 _ _ value child).
  - intros ->%push_heap_loop_perm. done.
Qed.

Lemma pop_heap_perm first last result v v' :
  pop_heap comp first last result v = Some v' -> v' ≡ₚ v.
Proof.
  unfold pop_heap.
  destruct (vec_get v result) as [value|] eqn:Hvalue; simpl; [|done].
  destruct (vec_get v first) as [top|] eqn:Htop; simpl; [|done].
  destruct (vec_set v result top) as [v1|] eqn:Hv1; simpl; [|done].
  intros ->%adjust_heap_perm. rewrite Z.add_0_r.
  rewrite (hole_move_vec v result first value top v1 Htop Hv1).
  apply vec_get_Some in Hvalue as [_ Hvalue]. by rewrite list_insert_id.
Qed.

Lemma make_heap_loop_perm fuel first len parent v v' :
  make_heap_loop comp fuel first len parent v = Some v' -> v' ≡ₚ v.
Proof.
  revert parent v. induction fuel as [|fuel IH]; intros parent v; simpl;
    destruct (vec_get v (first + parent)) as [value|] eqn:Hvalue; simpl; try done;
    destruct (adjust_heap comp first parent len value v) as [w|] eqn:Hw; simpl; try done;
    apply adjust_heap_perm in Hw; apply vec_get_Some in Hvalue as [_ Hvalue];
    rewrite list_insert_id in Hw by done;
    destruct (parent =? 0); try done; try (by intros [= <-]).
  intros ->%IH. done.
Qed.

Lemma make_heap_perm first last v v' :
  make_heap comp first last v = Some v' -> v' ≡ₚ v.
Proof.
  unfold make_heap. destruct (_ <? _); [by intros [= <-]|]. apply make_heap_loop_perm.
Qed.

Lemma sort_heap_perm fuel first last v v' :
  sort_heap comp fuel first last v = Some v' -> v' ≡ₚ v.
Proof.
  revert last v. induction fuel as [|fuel IH]; intros last v; simpl;
    destruct (_ >? _); try done; try (by intros [= <-]).
  destruct (pop_heap comp first (last - 1) (last - 1) v) as [w|] eqn:Hw; simpl; [|done].
  intros ->%IH. by apply pop_heap_perm in Hw.
Qed.

Lemma heap_select_perm first middle last v v' :
  heap_select comp first middle last v = Some v' -> v' ≡ₚ v.
Proof.
  unfold heap_select.
  destruct (make_heap comp first middle v) as [w|] eqn:Hw; simpl; [|done].
  intros Hloop. rewrite <- (make_heap_perm _ _ _ _ Hw).
  revert Hloop. apply for_each_position_perm. intros i u u'.
  destruct (vec_get u i) as [x|]; simpl; [|done].
  destruct (vec_get u first) as [top|]; simpl; [|done].
  destruct (comp x top); [apply pop_heap_perm|by intros [= <-]].
Qed.

Lemma partial_sort_perm first middle last v v' :
  partial_sort comp first middle last v = Some v' -> v' ≡ₚ v.
Proof.
  unfold partial_sort.
  destruct (heap_select comp first middle last v) as [w|] eqn:Hw; simpl; [|done].
  intros ->%sort_heap_perm. by apply heap_select_perm in Hw.
Qed.

Lemma introsort_loop_perm fuel first last depth_limit v v' :
  introsort_loop comp fuel first last depth_limit v = Some v' -> v' ≡ₚ v.
Proof.
  revert first last depth_limit v v'. induction fuel as [|fuel IH];
    intros first last depth_limit v v'; simpl;
    destruct (_ >? _); try done; try (by intros [= <-]).
  destruct (depth_limit =? 0); [apply partial_sort_perm|].
  destruct (unguarded_partition_pivot comp first last v) as [[cut v1]|] eqn:H1; simpl; [|done].
  destruct (introsort_loop comp fuel cut last (depth_limit - 1) v1) as [v2|] eqn:H2;
    simpl; [|done].
  intros ->%IH. apply IH in H2. apply unguarded_partition_pivot_perm in H1.
  by rewrite H2.
Qed.

Lemma gnu_sort_perm v v' : gnu_sort comp v = Some v' -> v' ≡ₚ v.
Proof.
  unfold gnu_sort. destruct (negb _); [|by intros [= <-]].
  destruct (introsort_loop comp (length v) 0 _ _ v) as [w|] eqn:Hw; simpl; [|done].
  intros ->%final_insertion_sort_perm. by apply introsort_loop_perm in Hw.
Qed.

End libstdcxx_perm.

(** ** Vectors and ranges *)

Lemma vec_get_set {A} (v : list A) i a v' k :
  vec_set v i a = Some v' ->
  vec_get v' k = if decide (k = i) then Some a else vec_get v k.
Proof.
  intros [Hi ->]%vec_set_Some. unfold vec_get.
  destruct (Z.leb_spec 0 k); [|by case_decide; [lia|]].
  case_decide as Hk; [subst|].
  - rewrite list_lookup_insert_eq; [done|lia].
  - rewrite list_lookup_insert_ne; [done|lia].
Qed.

Lemma vec_set_length {A} (v : list A) i a v' :
  vec_set v i a = Some v' -> length v' = length v.
Proof. intros [_ ->]%vec_set_Some. by rewrite length_insert. Qed.

Lemma vec_set_in_range {A} (v : list A) i a :
  0 <= i < Z.of_nat (length v) -> is_Some (vec_set v i a).
Proof.
  intros Hi. unfold vec_set.
  destruct (Z.leb_spec 0 i), (Z.ltb_spec i (Z.of_nat (length v))); try lia. by eexists.
Qed.

Lemma vec_get_None {A} (v : list A) i :
  vec_get v i = None <-> ~ 0 <= i < Z.of_nat (length v).
Proof.
  split.
  - intros Hnone Hi. destruct (vec_get_in_range v i Hi) as [a Ha]. congruence.
  - intros Hi. destruct (vec_get v i) as [a|] eqn:Ha; [|done].
    apply vec_get_range in Ha. lia.
Qed.

(** Two vectors with the same cells are equal. *)
Lemma vec_eq {A} (v w : list A) : (forall k, vec_get v k = vec_get w k) -> v = w.
Proof.
  intros Hk. apply list_eq. intros i. rewrite <- !vec_get_of_nat. apply Hk.
Qed.

Lemma vec_range_lookup {A} (v : list A) first last (i : nat) :
  0 <= first ->
  vec_range v first last !! i
  = if decide (Z.of_nat i < last - first) then vec_get v (first + Z.of_nat i) else None.
Proof.
  intros Hfirst. unfold vec_range. case_decide as Hi.
  - rewrite lookup_take_lt by lia. rewrite lookup_drop.
    unfold vec_get. destruct (Z.leb_spec 0 (first + Z.of_nat i)); [|lia].
    f_equal. lia.
  - apply lookup_take_ge. lia.
Qed.

(** [v'] holds the elements of [v], those outside [first, last) in their
    cells. *)
Lemma within_refl {A} first last (v : list A) : within first last v v.
Proof. by split. Qed.

Lemma within_trans {A} first last (v1 v2 v3 : list A) :
  within first last v1 v2 -> within first last v2 v3 -> within first last v1 v3.
Proof.
  intros [Hperm1 Hout1] [Hperm2 Hout2]. split; [by rewrite Hperm2|].
  intros k Hk. by rewrite Hout2, Hout1.
Qed.

Lemma within_widen {A} first last first' last' (v v' : list A) :
  first' <= first -> last <= last' -> within first last v v' -> within first' last' v v'.
Proof. intros ? ? [Hperm Hout]. split; [done|]. intros k Hk. apply Hout. lia. Qed.

Lemma within_length {A} first last (v v' : list A) :
  within first last v v' -> length v' = length v.
Proof. intros [Hperm _]. by apply Permutation_length. Qed.

Lemma within_split {A} first last (v v' : list A) :
  0 <= first <= last -> last <= Z.of_nat (length v) -> within first last v v' ->
  vec_range v' first last ≡ₚ vec_range v first last.
Proof.
  intros Hfirst Hlast [Hperm Hout]. pose proof (Permutation_length Hperm) as Hlen.
  assert (take (Z.to_nat first) v' = take (Z.to_nat first) v) as Htake.
  { apply list_eq. intros i. destruct (decide (i < Z.to_nat first)%nat).
    - rewrite !lookup_take_lt by done. rewrite <- !vec_get_of_nat. apply Hout. lia.
    - by rewrite !lookup_take_ge by lia. }
  assert (drop (Z.to_nat last) v' = drop (Z.to_nat last) v) as Hdrop.
  { apply list_eq. intros i. rewrite !lookup_drop, <- !vec_get_of_nat. apply Hout. lia. }
  rewrite <- (take_drop (Z.to_nat first) v'), <- (take_drop (Z.to_nat first) v), Htake
    in Hperm.
  apply Permutation_app_inv_l in Hperm.
  rewrite <- (take_drop (Z.to_nat (last - first)) (drop (Z.to_nat first) v')),
    <- (take_drop (Z.to_nat (last - first)) (drop (Z.to_nat first) v)), !drop_drop in Hperm.
  replace (Z.to_nat first + Z.to_nat (last - first))%nat with (Z.to_nat last) in Hperm by lia.
  rewrite Hdrop in Hperm. by apply Permutation_app_inv_r in Hperm.
Qed.

(** Every cell of the range of [v'] holds the element of some cell of the
    range of [v]. *)
Lemma within_from {A} first last (v v' : list A) k a :
  0 <= first <= last -> last <= Z.of_nat (length v) -> within first last v v' ->
  first <= k < last -> vec_get v' k = Some a ->
  exists k', first <= k' < last /\ vec_get v k' = Some a.
Proof.
  intros Hfirst Hlast Hwithin Hk Ha.
  pose proof (within_split _ _ _ _ Hfirst Hlast Hwithin) as Hperm.
  assert (a ∈ vec_range v' first last) as Hin.
  { apply list_elem_of_lookup. exists (Z.to_nat (k - first)).
    rewrite vec_range_lookup by lia. case_decide; [|lia].
    rewrite <- Ha. f_equal. lia. }
  rewrite Hperm in Hin. apply list_elem_of_lookup in Hin as [i Hi].
  rewrite vec_range_lookup in Hi by lia. case_decide; [|done].
  exists (first + Z.of_nat i). split; [lia|done].
Qed.

Lemma within_sym {A} first last (v v' : list A) :
  within first last v v' -> within first last v' v.
Proof. intros [Hperm Hout]. split; [done|]. intros k Hk. by rewrite Hout. Qed.

(** From a rearrangement and the cells that stay: *)
Lemma within_intro {A} first last (v v' : list A) :
  v' ≡ₚ v -> (forall k, ~ first <= k < last -> vec_get v' k = vec_get v k) ->
  within first last v v'.
Proof. by split. Qed.

(** ** The insertion sorts *)

Lemma for_each_position_inv {A} (I : Z -> list A -> Prop) count first body (v : list A) :
  I first v ->
  (forall k w, (k < count)%nat -> I (first + Z.of_nat k) w ->
     exists w', body (first + Z.of_nat k) w = Some w' /\ I (first + Z.of_nat k + 1) w') ->
  exists v', for_each_position count first body v = Some v' /\ I (first + Z.of_nat count) v'.
Proof.
  revert first v. induction count as [|count IH]; intros first v Hv Hbody; simpl.
  { exists v. split; [done|]. by rewrite Z.add_0_r. }
  pose proof (Hbody O v ltac:(lia)) as H0. simpl in H0. rewrite Z.add_0_r in H0.
  destruct (H0 Hv) as (w & -> & Hw). simpl.
  destruct (IH (first + 1) w Hw) as (v' & -> & Hv').
  { intros k u Hk Hu.
    replace (first + 1 + Z.of_nat k) with (first + Z.of_nat (S k)) in * by lia.
    apply Hbody; [lia|done]. }
  exists v'. split; [done|].
  by replace (first + Z.of_nat (S count)) with (first + 1 + Z.of_nat count) by lia.
Qed.

Section libstdcxx_insertion.
Context {A : Type} (comp : A -> A -> bool) (Hswo : strict_weak_order comp).

Lemma swo_lt_le_trans a b c : comp a b = true -> comp c b = false -> comp a c = true.
Proof.
  intros Hab Hcb. destruct (comp a c) eqn:Hac; [done|].
  by rewrite (swo_neg_trans comp Hswo b c a Hac Hcb) in Hab.
Qed.

Lemma swo_le_lt_trans a b c : comp b a = false -> comp b c = true -> comp a c = true.
Proof.
  intros Hba Hbc. destruct (comp a c) eqn:Hac; [done|].
  by rewrite (swo_neg_trans comp Hswo c a b Hba Hac) in Hbc.
Qed.

Lemma unguarded_linear_insert_loop_spec fuel val last p (v : list A) :
  0 < p <= last -> last < Z.of_nat (length v) ->
  (forall k x, p <= k < last -> vec_get v k = Some x -> comp val x = true) ->
  (exists x, vec_get v (p - 1) = Some x /\ comp val x = false) ->
  (Z.to_nat (last - p) <= fuel)%nat ->
  exists v',
    unguarded_linear_insert_loop comp fuel val last v = Some v' /\
    length v' = length v /\
    forall k,
      vec_get v' k =
        if decide (k < p) then vec_get v k
        else if decide (k = p) then Some val
        else if decide (k <= last) then vec_get v (k - 1)
        else vec_get v k.
Proof.
  revert last v. induction fuel as [|fuel IH]; intros last v Hp Hlast Hgt Hstop Hfuel.
  - assert (last = p) as -> by lia. destruct Hstop as (x & Hx & Hcomp).
    simpl. rewrite Hx. simpl. rewrite Hcomp.
    destruct (vec_set_in_range v p val) as [v' Hv']; [lia|]. exists v'.
    split; [done|]. split; [by eapply vec_set_length|]. intros k.
    rewrite (vec_get_set _ _ _ _ k Hv'). repeat case_decide; try done; lia.
  - simpl. destruct (decide (last = p)) as [->|Hne].
    + destruct Hstop as (x & Hx & Hcomp). rewrite Hx. simpl. rewrite Hcomp.
      destruct (vec_set_in_range v p val) as [v' Hv']; [lia|]. exists v'.
      split; [done|]. split; [by eapply vec_set_length|]. intros k.
      rewrite (vec_get_set _ _ _ _ k Hv'). repeat case_decide; try done; lia.
    + destruct (vec_get_in_range v (last - 1)) as [next Hnext]; [lia|].
      rewrite Hnext. simpl. rewrite (Hgt (last - 1) next) by (done || lia).
      destruct (vec_set_in_range v last next) as [v1 Hv1]; [lia|]. rewrite Hv1. simpl.
      pose proof (vec_set_length _ _ _ _ Hv1) as Hlen1.
      destruct (IH (last - 1) v1) as (v' & -> & Hlen & Hget); [lia|lia| | |lia|].
      { intros k x Hk. rewrite (vec_get_set _ _ _ _ k Hv1).
        case_decide; [lia|]. apply Hgt. lia. }
      { destruct Hstop as (x & Hx & Hcomp). exists x. split; [|done].
        rewrite (vec_get_set _ _ _ _ _ Hv1). by case_decide; [lia|]. }
      exists v'. split; [done|]. split; [congruence|]. intros k. rewrite Hget.
      rewrite !(vec_get_set _ _ _ _ _ Hv1).
      repeat case_decide; try done; try lia. by replace (k - 1) with (last - 1) by lia.
Qed.

Lemma insert_position val (v : list A) s (n : nat) :
  0 <= s -> s + 1 + Z.of_nat n <= Z.of_nat (length v) ->
  (exists x, vec_get v s = Some x /\ comp val x = false) ->
  exists p,
    s < p <= s + 1 + Z.of_nat n /\
    (exists x, vec_get v (p - 1) = Some x /\ comp val x = false) /\
    forall k x, p <= k < s + 1 + Z.of_nat n -> vec_get v k = Some x -> comp val x = true.
Proof.
  intros Hs. induction n as [|n IH]; intros Hlen Hstop.
  - exists (s + 1). split; [lia|]. split; [by replace (s + 1 - 1) with s by lia|].
    intros k x ?. lia.
  - destruct (vec_get_in_range v (s + 1 + Z.of_nat n)) as [y Hy]; [lia|].
    destruct (comp val y) eqn:Hcomp.
    + destruct IH as (p & Hp & Hstop' & Hgt); [lia|done|].
      exists p. split; [lia|]. split; [done|]. intros k x Hk Hx.
      destruct (decide (k = s + 1 + Z.of_nat n)) as [->|]; [congruence|].
      apply (Hgt k); [lia|done].
    + exists (s + 1 + Z.of_nat (S n)). split; [lia|]. split.
      * exists y. split; [|done]. rewrite <- Hy. f_equal. lia.
      * intros k x ?. lia.
Qed.

Lemma unguarded_linear_insert_spec i s (v : list A) val x :
  0 <= s < i -> i < Z.of_nat (length v) ->
  vec_get v i = Some val -> vec_get v s = Some x -> comp val x = false ->
  exists p v',
    s < p <= i /\
    unguarded_linear_insert comp i v = Some v' /\
    moved_to v p i v' /\
    (exists y, vec_get v (p - 1) = Some y /\ comp val y = false) /\
    (forall k y, p <= k < i -> vec_get v k = Some y -> comp val y = true).
Proof.
  intros Hs Hi Hval Hx Hcomp.
  destruct (insert_position val v s (Z.to_nat (i - s - 1))) as (p & Hp & Hstop & Hgt);
    [lia|lia|by exists x|].
  replace (s + 1 + Z.of_nat (Z.to_nat (i - s - 1))) with i in * by lia.
  destruct (unguarded_linear_insert_loop_spec (length v) val i p v)
    as (v' & Hrun & Hlen & Hget); [lia|lia|done|done|lia|].
  exists p, v'. split; [lia|]. unfold unguarded_linear_insert. rewrite Hval. simpl.
  split; [done|]. split; [|done]. split; [done|]. intros k. rewrite Hget.
  by repeat case_decide.
Qed.

Lemma move_backward_1_spec first i (v v1 : list A) val v' :
  vec_get v i = Some val -> move_backward_1 first i v = Some v1 ->
  vec_set v1 first val = Some v' -> moved_to v first i v'.
Proof.
  intros Hval Hmove Hset. pose proof (vec_get_range _ _ _ Hval) as Hi.
  unfold move_backward_1 in Hmove.
  destruct (Z.leb_spec 0 first), (Z.leb_spec first i),
    (Z.ltb_spec i (Z.of_nat (length v))); simpl in Hmove; try done.
  injection Hmove as <-.
  assert (length (take (Z.to_nat first + 1) v ++ vec_range v first i
                    ++ drop (Z.to_nat i + 1) v) = length v) as Hlen.
  { unfold vec_range. rewrite !length_app, !length_take, !length_drop. lia. }
  split; [by rewrite (vec_set_length _ _ _ _ Hset)|]. intros k.
  rewrite (vec_get_set _ _ _ _ k Hset).
  destruct (decide (k = first)) as [->|Hk].
  { by case_decide; [lia|]. }
  destruct (decide (k < first)) as [Hlt|Hge].
  { unfold vec_get. destruct (Z.leb_spec 0 k); [|done].
    rewrite lookup_app_l by (rewrite length_take; lia).
    rewrite lookup_take_lt by lia. done. }
  assert (0 <= k) as Hk0 by lia.
  replace k with (Z.of_nat (Z.to_nat k)) at 1 by lia. rewrite vec_get_of_nat.
  rewrite lookup_app_r by (rewrite length_take; lia).
  rewrite length_take, Nat.min_l by lia.
  destruct (decide (k <= i)) as [Hle|Hgt].
  - rewrite lookup_app_l by (unfold vec_range; rewrite length_take, length_drop; lia).
    rewrite vec_range_lookup by lia. case_decide; [|lia]. f_equal. lia.
  - rewrite lookup_app_r by (unfold vec_range; rewrite length_take, length_drop; lia).
    unfold vec_range. rewrite length_take, length_drop, lookup_drop.
    unfold vec_get. destruct (Z.leb_spec 0 k); [|lia]. f_equal. lia.
Qed.

Lemma moved_to_within lo hi p i (v v' : list A) :
  moved_to v p i v' -> v' ≡ₚ v -> lo <= p -> p <= i -> i < hi -> within lo hi v v'.
Proof.
  intros [_ Hget] Hperm ? ? ?. split; [done|]. intros k Hk. rewrite Hget.
  repeat case_decide; try done; lia.
Qed.

Lemma moved_to_sorted lo p i (v v' : list A) val :
  moved_to v p i v' -> lo <= p <= i -> vec_get v i = Some val ->
  sorted_range comp v lo i ->
  (forall k x, lo <= k < p -> vec_get v k = Some x -> comp val x = false) ->
  (forall k x, p <= k < i -> vec_get v k = Some x -> comp x val = false) ->
  sorted_range comp v' lo (i + 1).
Proof.
  intros [_ Hget] Hp Hval Hsorted Hle Hge a b x y Ha Hab Hb.
  rewrite !Hget. repeat case_decide; try lia; intros Hx Hy.
  - apply (Hsorted a b); (done || lia).
  - rewrite Hval in Hy. injection Hy as <-. apply (Hle a); (done || lia).
  - apply (Hsorted a (b - 1)); (done || lia).
  - rewrite Hval in Hx. injection Hx as <-. apply (Hge (b - 1)); (done || lia).
  - apply (Hsorted (a - 1) (b - 1)); (done || lia).
Qed.

Lemma insertion_sort_step_spec first i (v : list A) :
  0 <= first < i -> i < Z.of_nat (length v) -> sorted_range comp v first i ->
  exists v',
    insertion_sort_step comp first i v = Some v' /\
    sorted_range comp v' first (i + 1) /\ within first (i + 1) v v'.
Proof.
  intros Hfirst Hi Hsorted. unfold insertion_sort_step.
  destruct (vec_get_in_range v i) as [val Hval]; [lia|].
  destruct (vec_get_in_range v first) as [f Hf]; [lia|].
  rewrite Hval, Hf. simpl. destruct (comp val f) eqn:Hcomp.
  - unfold move_backward_1.
    destruct (Z.leb_spec 0 first), (Z.leb_spec first i),
      (Z.ltb_spec i (Z.of_nat (length v))); try lia. simpl.
    match goal with |- context [vec_set ?w first val] =>
      destruct (vec_set_in_range w first val) as [v' Hv'] end.
    { unfold vec_range. rewrite !length_app, !length_take, !length_drop. lia. }
    rewrite Hv'. exists v'. split; [done|].
    assert (moved_to v first i v') as Hmoved.
    { eapply (move_backward_1_spec first i v _ val v' Hval); [|exact Hv'].
      unfold move_backward_1.
      destruct (Z.leb_spec 0 first), (Z.leb_spec first i),
        (Z.ltb_spec i (Z.of_nat (length v))); try lia. done. }
    split.
    + apply (moved_to_sorted first first i v v' val Hmoved); [lia|done|done|intros; lia|].
      intros k x Hk Hx. apply (swo_asym comp Hswo).
      destruct (decide (k = first)) as [->|]; [congruence|].
      apply (swo_lt_le_trans val f x); [done|]. apply (Hsorted first k); (done || lia).
    + eapply moved_to_within; [done| |lia..].
      eapply (move_backward_1_perm first i v _ val v' Hval); [|exact Hv'].
      unfold move_backward_1.
      destruct (Z.leb_spec 0 first), (Z.leb_spec first i),
        (Z.ltb_spec i (Z.of_nat (length v))); try lia. done.
  - destruct (unguarded_linear_insert_spec i first v val f)
      as (p & v' & Hp & Hrun & Hmoved & (y & Hy & Hstop) & Hgt); [lia|lia|done..|].
    exists v'. split; [done|]. split.
    + apply (moved_to_sorted first p i v v' val Hmoved); [lia|done|done| |].
      * intros k x Hk Hx. destruct (decide (k = p - 1)) as [->|]; [congruence|].
        apply (swo_neg_trans comp Hswo x y val); [done|].
        apply (Hsorted k (p - 1)); (done || lia).
      * intros k x Hk Hx. apply (swo_asym comp Hswo). by apply (Hgt k).
    + eapply moved_to_within; [done| |lia..].
      by eapply unguarded_linear_insert_perm.
Qed.

Lemma sorted_range_short (v : list A) lo hi : hi <= lo + 1 -> sorted_range comp v lo hi.
Proof. intros ? i j a b ? ? ?. lia. Qed.

Lemma sorted_range_within lo hi lo' hi' (v v' : list A) :
  sorted_range comp v lo hi -> within lo' hi' v v' ->
  (hi <= lo' \/ hi' <= lo) -> sorted_range comp v' lo hi.
Proof.
  intros Hsorted [_ Hout] Hdisjoint i j a b ? ? ?.
  rewrite !Hout by lia. by apply Hsorted.
Qed.

Lemma insertion_sort_spec first last (v : list A) :
  0 <= first <= last -> last <= Z.of_nat (length v) ->
  exists v',
    insertion_sort comp first last v = Some v' /\
    sorted_range comp v' first last /\ within first last v v'.
Proof.
  intros Hfirst Hlast. unfold insertion_sort.
  destruct (Z.eqb_spec first last) as [->|Hne].
  { exists v. split; [done|]. split; [apply sorted_range_short; lia|apply within_refl]. }
  destruct (for_each_position_inv
    (fun i w => sorted_range comp w first i /\ within first last v w)
    (Z.to_nat (last - (first + 1))) (first + 1) (insertion_sort_step comp first) v)
    as (v' & Hrun & Hsorted & Hwithin).
  { split; [apply sorted_range_short; lia|apply within_refl]. }
  { intros k w Hk [Hsorted Hwithin]. pose proof (within_length _ _ _ _ Hwithin).
    destruct (insertion_sort_step_spec first (first + 1 + Z.of_nat k) w)
      as (w' & Hrun & Hsorted' & Hwithin'); [lia|lia|done|].
    exists w'. split; [done|]. split; [done|].
    eapply within_trans; [done|]. eapply within_widen; [| |done]; lia. }
  exists v'. split; [done|].
  by replace (first + 1 + Z.of_nat (Z.to_nat (last - (first + 1)))) with last in * by lia.
Qed.

Lemma elem_of_vec_get (v : list A) x : x ∈ v <-> exists k, vec_get v k = Some x.
Proof.
  rewrite list_elem_of_lookup. split.
  - intros [i Hi]. exists (Z.of_nat i). by rewrite vec_get_of_nat.
  - intros [k [_ Hk]%vec_get_Some]. by eexists.
Qed.

Lemma unguarded_insertion_sort_spec start last (v : list A) m :
  0 < start <= last -> last <= Z.of_nat (length v) ->
  sorted_range comp v 0 start ->
  vec_get v 0 = Some m -> (forall x, x ∈ v -> comp x m = false) ->
  exists v',
    unguarded_insertion_sort comp start last v = Some v' /\
    sorted_range comp v' 0 last /\ v' ≡ₚ v.
Proof.
  intros Hstart Hlast Hsorted Hm Hmin. unfold unguarded_insertion_sort.
  destruct (for_each_position_inv
    (fun i w => sorted_range comp w 0 i /\ w ≡ₚ v /\ vec_get w 0 = Some m)
    (Z.to_nat (last - start)) start (unguarded_linear_insert comp) v)
    as (v' & Hrun & Hsorted' & Hperm' & _); [done| |].
  { intros k w Hk (Hsortedw & Hpermw & Hmw).
    pose proof (Permutation_length Hpermw) as Hlen.
    destruct (vec_get_in_range w (start + Z.of_nat k)) as [val Hval]; [lia|].
    destruct (unguarded_linear_insert_spec (start + Z.of_nat k) 0 w val m)
      as (p & w' & Hp & Hrun & Hmoved & (y & Hy & Hstop) & Hgt); [lia|lia|done|done| |].
    { apply Hmin. rewrite <- Hpermw. apply elem_of_vec_get. by eexists. }
    exists w'. split; [done|]. split; [|split].
    - apply (moved_to_sorted 0 p (start + Z.of_nat k) w w' val Hmoved); [lia|done|done| |].
      + intros j x Hj Hx. destruct (decide (j = p - 1)) as [->|]; [congruence|].
        apply (swo_neg_trans comp Hswo x y val); [done|].
        apply (Hsortedw j (p - 1)); (done || lia).
      + intros j x Hj Hx. apply (swo_asym comp Hswo). by apply (Hgt j).
    - rewrite <- Hpermw. by eapply unguarded_linear_insert_perm.
    - destruct Hmoved as [_ Hget]. rewrite Hget. by case_decide; [|lia]. }
  exists v'. split; [done|]. split; [|done].
  by replace (start + Z.of_nat (Z.to_nat (last - start))) with last in * by lia.
Qed.

Lemma final_insertion_sort_spec (v : list A) :
  (16 < Z.of_nat (length v) -> front_min comp 0 (Z.of_nat (length v)) v) ->
  exists v',
    final_insertion_sort comp 0 (Z.of_nat (length v)) v = Some v' /\
    sorted_range comp v' 0 (Z.of_nat (length v)) /\ v' ≡ₚ v.
Proof.
  intros Hfront. unfold final_insertion_sort, S_threshold. rewrite Z.sub_0_r, !Z.add_0_l.
  destruct (Z.gtb_spec (Z.of_nat (length v)) 16) as [Hlong|Hshort].
  2: { destruct (insertion_sort_spec 0 (Z.of_nat (length v)) v)
         as (v' & Hrun & Hsorted & Hperm & _); [lia|lia|]. by exists v'. }
  destruct (Hfront Hlong) as (m & a & Hm & _ & Ha & Hmin).
  destruct (insertion_sort_spec 0 16 v) as (v1 & -> & Hsorted1 & Hwithin1); [lia|lia|].
  simpl. pose proof (within_length _ _ _ _ Hwithin1) as Hlen1.
  destruct (within_from 0 16 v1 v m a) as (m' & Hm' & Ha'); [lia|lia| |lia|done|].
  { by apply within_sym. }
  destruct (vec_get_in_range v1 0) as [b Hb]; [lia|].
  assert (comp a b = false) as Hab.
  { destruct (decide (m' = 0)) as [->|].
    - assert (a = b) as -> by congruence. apply (swo_irrefl comp Hswo).
    - apply (Hsorted1 0 m'); (done || lia). }
  destruct Hwithin1 as [Hperm1 _].
  destruct (unguarded_insertion_sort_spec 16 (Z.of_nat (length v)) v1 b)
    as (v' & Hrun & Hsorted & Hperm); [lia|lia|done|done| |].
  { intros x Hx. rewrite Hperm1 in Hx. apply elem_of_vec_get in Hx as [k Hk].
    apply (swo_neg_trans comp Hswo b a x); [|done].
    apply (Hmin k); [|done]. by apply vec_get_range in Hk. }
  exists v'. split; [done|]. split; [done|]. by rewrite Hperm.
Qed.

End libstdcxx_insertion.

(** ** The partition *)

Section libstdcxx_partition.
Context {A : Type} (comp : A -> A -> bool) (Hswo : strict_weak_order comp).

Lemma scan_up_spec fuel (v : list A) first pivot p u x :
  vec_get v pivot = Some p ->
  0 <= first <= u -> vec_get v u = Some x -> comp x p = false ->
  (Z.to_nat (u - first) <= fuel)%nat ->
  exists first',
    scan_up comp fuel v first pivot = Some first' /\
    first <= first' <= u /\
    (forall k y, first <= k < first' -> vec_get v k = Some y -> comp y p = true) /\
    (exists y, vec_get v first' = Some y /\ comp y p = false).
Proof.
  intros Hp. revert first. induction fuel as [|fuel IH]; intros first Hfirst Hx Hstop Hfuel.
  - assert (first = u) as -> by lia. simpl. rewrite Hx, Hp. simpl. rewrite Hstop.
    exists u. split; [done|]. split; [lia|]. split; [intros; lia|by exists x].
  - simpl. pose proof (vec_get_range _ _ _ Hx) as Hu.
    destruct (vec_get_in_range v first) as [y Hy]; [lia|]. rewrite Hy, Hp. simpl.
    destruct (comp y p) eqn:Hcomp.
    + assert (first <> u) by (intros ->; congruence).
      destruct (IH (first + 1)) as (first' & -> & Hfirst' & Hlt & Hstop'); [lia|done..|lia|].
      exists first'. split; [done|]. split; [lia|]. split; [|done].
      intros k z Hk Hz. destruct (decide (k = first)) as [->|]; [congruence|].
      apply (Hlt k); [lia|done].
    + exists first. split; [done|]. split; [lia|]. split; [intros; lia|by exists y].
Qed.

Lemma scan_down_spec fuel (v : list A) last pivot p d x :
  vec_get v pivot = Some p ->
  d <= last -> last < Z.of_nat (length v) -> vec_get v d = Some x -> comp p x = false ->
  (Z.to_nat (last - d) <= fuel)%nat ->
  exists last',
    scan_down comp fuel v last pivot = Some last' /\
    d <= last' <= last /\
    (forall k y, last' < k <= last -> vec_get v k = Some y -> comp p y = true) /\
    (exists y, vec_get v last' = Some y /\ comp p y = false).
Proof.
  intros Hp. revert last. induction fuel as [|fuel IH]; intros last Hd Hlast Hx Hstop Hfuel.
  - assert (last = d) as -> by lia. simpl. rewrite Hx, Hp. simpl. rewrite Hstop.
    exists d. split; [done|]. split; [lia|]. split; [intros; lia|by exists x].
  - simpl. pose proof (vec_get_range _ _ _ Hx) as Hdr.
    destruct (vec_get_in_range v last) as [y Hy]; [lia|]. rewrite Hy, Hp. simpl.
    destruct (comp p y) eqn:Hcomp.
    + assert (last <> d) by (intros ->; congruence).
      destruct (IH (last - 1)) as (last' & -> & Hlast' & Hgt & Hstop'); [lia|lia|done..|lia|].
      exists last'. split; [done|]. split; [lia|]. split; [|done].
      intros k z Hk Hz. destruct (decide (k = last)) as [->|]; [congruence|].
      apply (Hgt k); [lia|done].
    + exists last. split; [done|]. split; [lia|]. split; [intros; lia|by exists y].
Qed.

Lemma unguarded_partition_spec fuel first last last0 pivot (v : list A) p :
  0 <= pivot < first -> first <= last <= last0 -> last0 <= Z.of_nat (length v) ->
  vec_get v pivot = Some p ->
  (forall k y, pivot < k < first -> vec_get v k = Some y -> comp p y = false) ->
  (forall k y, last <= k < last0 -> vec_get v k = Some y -> comp y p = false) ->
  (exists u x, first <= u < last0 /\ vec_get v u = Some x /\ comp x p = false) ->
  (Z.to_nat (last - first) <= fuel)%nat ->
  exists cut v',
    unguarded_partition comp fuel first last pivot v = Some (cut, v') /\
    pivot < cut < last0 /\
    within (pivot + 1) last0 v v' /\
    (forall k y, pivot < k < cut -> vec_get v' k = Some y -> comp p y = false) /\
    (forall k y, cut <= k < last0 -> vec_get v' k = Some y -> comp y p = false).
Proof.
  revert first last v. induction fuel as [|fuel IH];
    intros first last v Hpivot Hfirst Hlast0 Hp Hleft Hright (u & x & Hu & Hx & Hstop) Hfuel.
  all: destruct (scan_up_spec (length v) v first pivot p u x)
         as (first' & Hup & Hfirst' & Hlt & (y & Hy & Hystop)); [done|lia|done|done|lia|].
  all: destruct (scan_down_spec (length v) v (last - 1) pivot p pivot p)
         as (last' & Hdown & Hlast' & Hgt & (z & Hz & Hzstop));
         [done|lia|lia|done|apply (swo_irrefl comp Hswo)|lia|].
  all: simpl; rewrite Hup; simpl; rewrite Hdown; simpl.
  all: destruct (Z.ltb_spec first' last') as [Hlt'|Hge']; simpl.
  all: try (exists first', v; split; [done|]; split; [lia|]; split; [apply within_refl|];
            split;
            [intros k w Hk Hw; destruct (decide (k < first));
             [apply (Hleft k); [lia|done]
             |apply (swo_asym comp Hswo), (Hlt k); [lia|done]]
            |intros k w Hk Hw; destruct (decide (k = first')) as [->|];
             [congruence|]; destruct (decide (last <= k));
             [apply (Hright k); [lia|done]
             |apply (swo_asym comp Hswo), (Hgt k); [lia|done]]]).
  { lia. }
  destruct (vec_swap_in_range v first' last') as [v1 Hv1]; [lia|lia|].
  rewrite Hv1. simpl.
  pose proof (vec_swap_length _ _ _ _ Hv1) as Hlen1.
  destruct (IH (first' + 1) last' v1) as (cut & v' & -> & Hcut & Hwithin & Hl & Hr);
    [lia|lia|lia| | | | |lia|].
  - rewrite (vec_swap_get _ _ _ _ _ Hv1). by repeat case_decide; try lia.
  - intros k w Hk. rewrite (vec_swap_get _ _ _ _ _ Hv1).
    repeat case_decide; try lia.
    + intros Hw. assert (w = z) as -> by congruence. done.
    + intros Hw. destruct (decide (k < first)).
      * apply (Hleft k); [lia|done].
      * apply (swo_asym comp Hswo). apply (Hlt k); [lia|done].
  - intros k w Hk. rewrite (vec_swap_get _ _ _ _ _ Hv1).
    repeat case_decide; try lia.
    + intros Hw. assert (w = y) as -> by congruence. done.
    + intros Hw. destruct (decide (last <= k)).
      * apply (Hright k); [lia|done].
      * apply (swo_asym comp Hswo). apply (Hgt k); [lia|done].
  - exists last', y. split; [lia|]. split; [|done].
    rewrite (vec_swap_get _ _ _ _ _ Hv1). by case_decide.
  - exists cut, v'. split; [done|]. split; [lia|]. split; [|done].
    eapply within_trans; [|done]. split; [by eapply vec_swap_perm|].
    intros k Hk. rewrite (vec_swap_get _ _ _ _ _ Hv1).
    by repeat case_decide; try lia.
Qed.

Lemma move_median_to_first_spec first last (v : list A) :
  0 <= first -> last <= Z.of_nat (length v) -> 4 <= last - first ->
  exists v' p,
    move_median_to_first comp first (first + 1) (first + Z.quot (last - first) 2)
      (last - 1) v = Some v' /\
    within first last v v' /\
    vec_get v' first = Some p /\
    exists u x, first + 1 <= u < last /\ vec_get v' u = Some x /\ comp x p = false.
Proof.
  intros Hfirst Hlast Hsize.
  assert (first + 1 < first + Z.quot (last - first) 2 < last - 1) as Hmid
    by (Z.quot_rem_to_equations; lia).
  set (mid := first + Z.quot (last - first) 2) in *.
  unfold move_median_to_first.
  destruct (vec_get_in_range v (first + 1)) as [va Ha]; [lia|].
  destruct (vec_get_in_range v mid) as [vb Hb]; [lia|].
  destruct (vec_get_in_range v (last - 1)) as [vc Hc]; [lia|].
  destruct (vec_get_in_range v first) as [vf Hf]; [lia|].
  rewrite Ha, Hb, Hc. simpl.
  assert (forall m vm u vu,
    first < m < last -> first < u < last -> u <> m ->
    vec_get v m = Some vm -> vec_get v u = Some vu -> comp vu vm = false ->
    exists v' p,
      vec_swap v first m = Some v' /\ within first last v v' /\
      vec_get v' first = Some p /\
      exists u x, first + 1 <= u < last /\ vec_get v' u = Some x /\ comp x p = false)
    as Hswap.
  { intros m vm u vu Hm Hu Hne Hvm Hvu Hcomp.
    destruct (vec_swap_in_range v first m) as [v' Hv']; [lia|lia|].
    exists v', vm. split; [done|]. split.
    { split; [by eapply vec_swap_perm|]. intros k Hk.
      rewrite (vec_swap_get _ _ _ _ _ Hv'). by repeat case_decide; try lia. }
    split.
    { rewrite (vec_swap_get _ _ _ _ _ Hv'). by repeat case_decide; try lia. }
    exists u, vu. split; [lia|]. split; [|done].
    rewrite (vec_swap_get _ _ _ _ _ Hv'). by repeat case_decide; try lia. }
  destruct (comp va vb) eqn:Hab; [destruct (comp vb vc) eqn:Hbc;
    [|destruct (comp va vc) eqn:Hac]|destruct (comp va vc) eqn:Hac;
    [|destruct (comp vb vc) eqn:Hbc]].
  - apply (Hswap mid vb (last - 1) vc); try done; try lia. by apply (swo_asym comp Hswo).
  - apply (Hswap (last - 1) vc mid vb); try done; lia.
  - apply (Hswap (first + 1) va mid vb); try done; try lia. by apply (swo_asym comp Hswo).
  - apply (Hswap (first + 1) va (last - 1) vc); try done; try lia.
    by apply (swo_asym comp Hswo).
  - apply (Hswap (last - 1) vc (first + 1) va); try done; lia.
  - apply (Hswap mid vb (first + 1) va); try done; lia.
Qed.

Lemma unguarded_partition_pivot_spec first last (v : list A) :
  0 <= first -> last <= Z.of_nat (length v) -> 4 <= last - first ->
  exists cut v' p,
    unguarded_partition_pivot comp first last v = Some (cut, v') /\
    first < cut < last /\
    within first last v v' /\
    vec_get v' first = Some p /\
    (forall k y, first <= k < cut -> vec_get v' k = Some y -> comp p y = false) /\
    (forall k y, cut <= k < last -> vec_get v' k = Some y -> comp y p = false).
Proof.
  intros Hfirst Hlast Hsize. unfold unguarded_partition_pivot.
  destruct (move_median_to_first_spec first last v)
    as (v1 & p & -> & Hwithin1 & Hp & Hsentinel); [done..|]. simpl.
  pose proof (within_length _ _ _ _ Hwithin1) as Hlen1.
  destruct (unguarded_partition_spec (length v) (first + 1) last last first v1 p)
    as (cut & v' & -> & Hcut & Hwithin & Hleft & Hright);
    [lia|lia|lia|done|intros; lia|intros; lia|done|lia|].
  exists cut, v', p. split; [done|]. split; [lia|]. split.
  { eapply within_trans; [done|]. eapply within_widen; [| |done]; lia. }
  assert (vec_get v' first = Some p) as Hp'.
  { destruct Hwithin as [_ Hout]. rewrite Hout by lia. done. }
  split; [done|]. split; [|done].
  intros k y Hk Hy. destruct (decide (k = first)) as [->|].
  - assert (y = p) as -> by congruence. apply (swo_irrefl comp Hswo).
  - apply (Hleft k); [lia|done].
Qed.

End libstdcxx_partition.

(** ** The heap *)

Section libstdcxx_heap.
Context {A : Type} (comp : A -> A -> bool) (Hswo : strict_weak_order comp).

Lemma heap_descendant_ge top h : 0 <= top -> heap_descendant top h -> top <= h.
Proof. intros Htop. induction 1 as [|h c _ IH Hc]; [lia|]. unfold heap_child in Hc. lia. Qed.

Lemma heap_descendant_parent top h :
  0 <= top -> heap_descendant top h -> top < h ->
  top <= Z.quot (h - 1) 2 < h /\ heap_child (Z.quot (h - 1) 2) h /\
  heap_descendant top (Z.quot (h - 1) 2).
Proof.
  intros Htop Hdesc Hlt. destruct Hdesc as [|g h Hg Hchild]; [lia|].
  pose proof (heap_descendant_ge _ _ Htop Hg).
  assert (Z.quot (h - 1) 2 = g) as ->
    by (unfold heap_child in Hchild; Z.quot_rem_to_equations; lia).
  split; [unfold heap_child in Hchild; lia|done].
Qed.

Lemma push_heap_stop first len top h value (v v' : list A) :
  0 <= first -> first + len <= Z.of_nat (length v) -> 0 <= top <= h -> h < len ->
  heap_with_hole comp v first len top h -> hole_covers comp v first len h value ->
  vec_set v (first + h) value = Some v' ->
  (top < h -> forall p, vec_get v (first + Z.quot (h - 1) 2) = Some p ->
     comp p value = false) ->
  heap_from comp v' first len top /\
  (forall k, ~ first + top <= k < first + len -> vec_get v' k = vec_get v k).
Proof.
  intros Hfirst Hlen Htop Hh [Hedges Hgrand] Hcover Hv' Hstop. split.
  2: { intros k Hk. rewrite (vec_get_set _ _ _ _ _ Hv'). by case_decide; [lia|]. }
  intros q c x y Hq Hc Hclen. rewrite !(vec_get_set _ _ _ _ _ Hv').
  destruct (decide (first + q = first + h)) as [Hqh|Hqh].
  - assert (q = h) as -> by lia. case_decide; [unfold heap_child in Hc; lia|].
    intros [= <-] Hy. by apply (Hcover c).
  - case_decide as Hch.
    + assert (c = h) as -> by lia. intros Hx [= <-].
      assert (top < h) as Hlt by (unfold heap_child in Hc; lia).
      apply (Hstop Hlt). rewrite <- Hx. f_equal.
      unfold heap_child in Hc. Z.quot_rem_to_equations. lia.
    + intros Hx Hy. apply (Hedges q c); (done || lia).
Qed.

Lemma push_heap_loop_spec fuel first len top h value (v : list A) :
  0 <= first -> first + len <= Z.of_nat (length v) -> 0 <= top <= h -> h < len ->
  heap_descendant top h ->
  heap_with_hole comp v first len top h -> hole_covers comp v first len h value ->
  (Z.to_nat h <= fuel)%nat ->
  exists v',
    push_heap_loop comp fuel first h top value v = Some v' /\
    heap_from comp v' first len top /\
    (forall k, ~ first + top <= k < first + len -> vec_get v' k = vec_get v k).
Proof.
  revert h v. induction fuel as [|fuel IH];
    intros h v Hfirst Hlen Htop Hh Hdesc Hhole Hcover Hfuel.
  all: pose proof (fun v' => push_heap_stop first len top h value v v'
                     Hfirst Hlen Htop Hh Hhole Hcover) as stop.
  all: destruct Hhole as [Hedges Hgrand].
  - simpl. assert (h = 0) as -> by lia. assert (top = 0) as -> by lia. simpl.
    destruct (vec_set_in_range v (first + 0) value) as [v' Hv']; [lia|].
    rewrite Hv'. exists v'. split; [done|]. apply stop; [done|lia].
  - simpl. destruct (Z.ltb_spec top h) as [Hlt|Hge].
    2: { simpl. destruct (vec_set_in_range v (first + h) value) as [v' Hv']; [lia|].
         rewrite Hv'. exists v'. split; [done|]. apply stop; [done|lia]. }
    destruct (heap_descendant_parent top h) as (Hg & Hchild & Hdescg); [lia|done|done|].
    set (g := Z.quot (h - 1) 2) in *.
    assert (top <= g) as Htopg by lia.
    destruct (vec_get_in_range v (first + g)) as [p Hp]; [lia|]. rewrite Hp. simpl.
    destruct (comp p value) eqn:Hcomp.
    2: { destruct (vec_set_in_range v (first + h) value) as [v' Hv']; [lia|].
         rewrite Hv'. exists v'. split; [done|]. apply stop; [done|].
         intros _ p' Hp'. by assert (p' = p) as -> by congruence. }
    destruct (vec_set_in_range v (first + h) p) as [v1 Hv1]; [lia|]. rewrite Hv1. simpl.
    pose proof (vec_set_length _ _ _ _ Hv1) as Hlen1.
    destruct (IH g v1) as (v' & -> & Hheap & Hframe); [done|lia|lia|lia|done| | |lia|].
    + split.
      * intros q c x y Hq Hc Hclen Hqg Hcg. rewrite !(vec_get_set _ _ _ _ _ Hv1).
        destruct (decide (first + q = first + h)) as [Hqh|Hqh],
                 (decide (first + c = first + h)) as [Hch|Hch];
          try (unfold heap_child in *; lia).
        -- intros [= <-] Hy. apply (Hgrand g c); try done. by replace h with q by lia.
        -- intros Hx Hy. apply (Hedges q c); (done || lia).
      * intros g' c x y Hg' Hchild' Hc Hclen. rewrite !(vec_get_set _ _ _ _ _ Hv1).
        destruct (decide (first + g' = first + h)); [unfold heap_child in *; lia|].
        intros Hx. assert (comp x p = false) as Hxp.
        { apply (Hedges g' g); try done; unfold heap_child in *; lia. }
        case_decide.
        -- by intros [= <-].
        -- intros Hy. apply (swo_neg_trans comp Hswo y p x); [done|].
           apply (Hedges g c); try done; unfold heap_child in *; lia.
    + intros c y Hc Hclen. rewrite (vec_get_set _ _ _ _ _ Hv1). case_decide.
      * intros [= <-]. by apply (swo_asym comp Hswo).
      * intros Hy. destruct (comp value y) eqn:Hvy; [|done].
        assert (comp p y = false) as Hpy
          by (apply (Hedges g c); try done; unfold heap_child in *; lia).
        by rewrite (swo_trans comp Hswo p value y) in Hpy.
    + exists v'. split; [done|]. split; [done|]. intros k Hk. rewrite Hframe by done.
      rewrite (vec_get_set _ _ _ _ _ Hv1). by case_decide; [lia|].
Qed.


(** The hole moves down to its child [c], which is not less than the other
    child. *)
Lemma heap_hole_down first len top h c y (v v1 : list A) :
  0 <= top <= h -> heap_child h c -> c < len ->
  heap_with_hole comp v first len top h ->
  vec_get v (first + c) = Some y ->
  (forall c' y', heap_child h c' -> c' < len -> c' <> c ->
     vec_get v (first + c') = Some y' -> comp y y' = false) ->
  vec_set v (first + h) y = Some v1 ->
  heap_with_hole comp v1 first len top c.
Proof.
  intros Htop Hc Hclen [Hedges Hgrand] Hy Hsibling Hv1. split.
  - intros q c' x y' Hq Hc' Hc'len Hqc Hc'c. rewrite !(vec_get_set _ _ _ _ _ Hv1).
    destruct (decide (first + q = first + h)) as [Hqh|Hqh],
             (decide (first + c' = first + h)) as [Hch|Hch];
      try (unfold heap_child in *; lia).
    + intros [= <-] Hy'. apply (Hsibling c'); try done. by replace h with q by lia.
    + intros Hx [= <-]. apply (Hgrand q c); try done. by replace h with c' by lia.
    + intros Hx Hy'. apply (Hedges q c'); (done || lia).
  - intros g c' x y' Hg Hgc Hc' Hc'len. rewrite !(vec_get_set _ _ _ _ _ Hv1).
    assert (g = h) as -> by (unfold heap_child in *; lia).
    case_decide; [|lia]. case_decide; [unfold heap_child in *; lia|].
    intros [= <-] Hy'. apply (Hedges c c'); try done; unfold heap_child in *; lia.
Qed.

Lemma adjust_heap_loop_spec fuel first len top h (v : list A) :
  0 <= first -> first + len <= Z.of_nat (length v) -> 0 <= top <= h -> h < len ->
  heap_descendant top h ->
  heap_with_hole comp v first len top h ->
  (Z.to_nat (len - h) <= fuel)%nat ->
  exists h' v',
    adjust_heap_loop comp fuel first h h len v = Some (h', h', v') /\
    h <= h' < len /\ ~ h' < Z.quot (len - 1) 2 /\
    heap_descendant top h' /\
    heap_with_hole comp v' first len top h' /\
    length v' = length v /\
    (forall k, ~ first + top <= k < first + len -> vec_get v' k = vec_get v k).
Proof.
  revert h v. induction fuel as [|fuel IH];
    intros h v Hfirst Hlen Htop Hh Hdesc Hhole Hfuel; [lia|].
  simpl. destruct (Z.ltb_spec h (Z.quot (len - 1) 2)) as [Hlt|Hge].
  2: { exists h, v. split; [done|]. split; [lia|]. split; [lia|]. done. }
  assert (2 * h + 2 < len) as Hright by (Z.quot_rem_to_equations; lia).
  replace (2 * (h + 1)) with (2 * h + 2) by lia.
  replace (2 * h + 2 - 1) with (2 * h + 1) by lia.
  destruct (vec_get_in_range v (first + (2 * h + 2))) as [r Hr]; [lia|].
  destruct (vec_get_in_range v (first + (2 * h + 1))) as [l Hl]; [lia|].
  rewrite Hr, Hl. simpl.
  set (c := if comp r l then 2 * h + 1 else 2 * h + 2).
  assert (heap_child h c /\ c < len) as [Hc Hclen]
    by (unfold heap_child, c; destruct (comp r l); lia).
  destruct (vec_get_in_range v (first + c)) as [y Hy]; [unfold heap_child in Hc; lia|].
  rewrite Hy. simpl.
  destruct (vec_set_in_range v (first + h) y) as [v1 Hv1]; [lia|]. rewrite Hv1. simpl.
  pose proof (vec_set_length _ _ _ _ Hv1) as Hlen1.
  destruct (IH c v1) as (h' & v' & -> & Hh' & Hexit & Hdesc' & Hhole' & Hlen' & Hframe);
    [done|lia|unfold heap_child in Hc; lia|lia|by eapply heap_descendant_child| |
     unfold heap_child in Hc; lia|].
  { apply (heap_hole_down first len top h c y v v1); try done.
    intros c' y' Hc' _ Hne Hy'. unfold c in *. destruct (comp r l) eqn:Hrl.
    - assert (c' = 2 * h + 2) as -> by (unfold heap_child in Hc'; lia).
      assert (y = l) as -> by congruence. assert (y' = r) as -> by congruence.
      by apply (swo_asym comp Hswo).
    - assert (c' = 2 * h + 1) as -> by (unfold heap_child in Hc'; lia).
      assert (y = r) as -> by congruence. by assert (y' = l) as -> by congruence. }
  exists h', v'. split; [done|]. split; [unfold heap_child in Hc; lia|].
  split; [done|]. split; [done|]. split; [done|]. split; [congruence|].
  intros k Hk. rewrite Hframe by done. rewrite (vec_get_set _ _ _ _ _ Hv1).
  by case_decide; [lia|].
Qed.

Lemma land_1_even len : 0 <= len -> (Z.land len 1 =? 0) = (len mod 2 =? 0).
Proof. intros Hlen. change 1 with (Z.ones 1). by rewrite Z.land_ones. Qed.

Lemma adjust_heap_spec first len top value (v : list A) :
  0 <= first -> first + len <= Z.of_nat (length v) -> 0 <= top < len ->
  heap_from comp v first len (top + 1) ->
  exists v',
    adjust_heap comp first top len value v = Some v' /\
    heap_from comp v' first len top /\
    (forall k, ~ first + top <= k < first + len -> vec_get v' k = vec_get v k).
Proof.
  intros Hfirst Hlen Htop Hheap. unfold adjust_heap, push_heap.
  destruct (adjust_heap_loop_spec (length v) first len top top v)
    as (h & v1 & -> & Hh & Hexit & Hdesc & Hhole & Hlen1 & Hframe1);
    [done|done|lia|lia|constructor| |lia|].
  { split.
    - intros q c x y Hq Hc Hclen Hqt Hct. apply (Hheap q c); (done || lia).
    - intros g c x y Hg Hgt. unfold heap_child in Hgt. lia. }
  simpl. rewrite land_1_even by lia.
  destruct (Z.eqb_spec (len mod 2) 0) as [Heven|Hodd],
           (Z.eqb_spec h (Z.quot (len - 2) 2)) as [Hlast|Hlast]; simpl.
  1: { replace (2 * (h + 1) - 1) with (2 * h + 1) by lia.
       assert (2 * h + 1 = len - 1) as Hc by (Z.to_euclidean_division_equations; lia).
       destruct (vec_get_in_range v1 (first + (2 * h + 1))) as [y Hy]; [lia|].
       rewrite Hy. simpl.
       destruct (vec_set_in_range v1 (first + h) y) as [v2 Hv2]; [lia|]. rewrite Hv2. simpl.
       pose proof (vec_set_length _ _ _ _ Hv2) as Hlen2.
       destruct (push_heap_loop_spec (length v2) first len top (2 * h + 1) value v2)
         as (v' & -> & Hheap' & Hframe'); [done|lia|lia|lia| | | |lia|].
       - eapply heap_descendant_child; [done|]. unfold heap_child. lia.
       - apply (heap_hole_down first len top h (2 * h + 1) y v1 v2); try done;
           [lia|unfold heap_child; lia|lia|].
         intros c' y' Hc' Hc'len Hne. unfold heap_child in Hc'. lia.
       - intros c y' Hc' Hc'len. unfold heap_child in Hc'. lia.
       - exists v'. split; [done|]. split; [done|]. intros k Hk.
         rewrite Hframe' by done. rewrite (vec_get_set _ _ _ _ _ Hv2).
         case_decide; [lia|]. by apply Hframe1. }
  all: destruct (push_heap_loop_spec (length v1) first len top h value v1)
         as (v' & -> & Hheap' & Hframe'); [done|lia|lia|lia|done|done| |lia|];
       [intros c y' Hc' Hc'len; unfold heap_child in Hc'; Z.to_euclidean_division_equations; lia|];
       exists v'; split; [done|]; split; [done|]; intros k Hk;
       rewrite Hframe' by done; by apply Hframe1.
Qed.

End libstdcxx_heap.

(** ** Heap sort *)

Section libstdcxx_heap_sort.
Context {A : Type} (comp : A -> A -> bool) (Hswo : strict_weak_order comp).

(** The root of a heap is a greatest element. *)
Lemma heap_root_max first len (v : list A) r :
  0 <= first -> first + len <= Z.of_nat (length v) ->
  heap_from comp v first len 0 -> vec_get v first = Some r ->
  forall k x, 0 <= k < len -> vec_get v (first + k) = Some x -> comp r x = false.
Proof.
  intros Hfirst Hlen Hheap Hr k x [Hk0 Hk]. revert x Hk. generalize Hk0. pattern k.
  apply Z_lt_induction; [|done]. clear k Hk0. intros k IH Hk0 x Hk Hx.
  destruct (decide (k = 0)) as [->|Hpos].
  { rewrite Z.add_0_r in Hx. assert (x = r) as -> by congruence. apply (swo_irrefl comp Hswo). }
  set (g := Z.quot (k - 1) 2).
  assert (0 <= g < k /\ heap_child g k) as [Hg Hchild]
    by (unfold heap_child, g; Z.quot_rem_to_equations; lia).
  destruct (vec_get_in_range v (first + g)) as [p Hp]; [lia|].
  apply (swo_neg_trans comp Hswo x p r).
  - apply (IH g); (done || lia).
  - apply (Hheap g k); (done || lia).
Qed.

Lemma heap_from_leaves first len lo (v : list A) :
  len <= 2 * lo + 1 -> heap_from comp v first len lo.
Proof. intros Hlo q c x y Hq Hc Hclen. unfold heap_child in Hc. lia. Qed.

Lemma make_heap_loop_spec fuel first len parent (v : list A) :
  0 <= first -> first + len <= Z.of_nat (length v) -> 0 <= parent < len ->
  heap_from comp v first len (parent + 1) ->
  (Z.to_nat parent <= fuel)%nat ->
  exists v',
    make_heap_loop comp fuel first len parent v = Some v' /\
    heap_from comp v' first len 0 /\
    within first (first + len) v v'.
Proof.
  revert parent v. induction fuel as [|fuel IH];
    intros parent v Hfirst Hlen Hparent Hheap Hfuel; simpl.
  all: destruct (vec_get_in_range v (first + parent)) as [value Hvalue]; [lia|].
  all: rewrite Hvalue; simpl.
  all: destruct (adjust_heap_spec comp Hswo first len parent value v)
         as (v1 & Hv1 & Hheap1 & Hframe1); [done|done|done|done|].
  all: rewrite Hv1; simpl.
  all: assert (within first (first + len) v v1) as Hwithin1.
  1,3: split; [|intros k Hk; apply Hframe1; lia];
       rewrite (adjust_heap_perm _ _ _ _ _ _ _ Hv1);
       apply vec_get_Some in Hvalue as [_ Hvalue]; by rewrite list_insert_id.
  all: destruct (Z.eqb_spec parent 0) as [->|Hne]; [by exists v1|]; try lia.
  destruct (IH (parent - 1) v1) as (v' & -> & Hheap' & Hwithin');
    [done|rewrite (within_length _ _ _ _ Hwithin1); lia|lia|
     by replace (parent - 1 + 1) with parent by lia|lia|].
  exists v'. split; [done|]. split; [done|]. by eapply within_trans.
Qed.

Lemma make_heap_spec first last (v : list A) :
  0 <= first <= last -> last <= Z.of_nat (length v) ->
  exists v',
    make_heap comp first last v = Some v' /\
    heap_from comp v' first (last - first) 0 /\
    within first last v v'.
Proof.
  intros Hfirst Hlast. unfold make_heap. destruct (Z.ltb_spec (last - first) 2) as [Hlt|Hge].
  { exists v. split; [done|]. split; [apply heap_from_leaves; lia|apply within_refl]. }
  destruct (make_heap_loop_spec (length v) first (last - first)
              (Z.quot (last - first - 2) 2) v) as (v' & -> & Hheap & Hwithin);
    [lia|lia|Z.quot_rem_to_equations; lia|
     apply heap_from_leaves; Z.quot_rem_to_equations; lia|
     Z.quot_rem_to_equations; lia|].
  exists v'. split; [done|]. split; [done|].
  by replace last with (first + (last - first)) at 1 by lia.
Qed.


(** [__pop_heap] on the heap of the cells [first, last], for the result
    cell [last]: the root goes to [last], and the cells before it are a
    heap again, of elements not greater than the root. *)
Lemma pop_heap_spec first last (v : list A) root :
  0 <= first < last -> last < Z.of_nat (length v) ->
  heap_from comp v first (last - first + 1) 0 ->
  vec_get v first = Some root ->
  exists v',
    pop_heap comp first last last v = Some v' /\
    heap_from comp v' first (last - first) 0 /\
    vec_get v' last = Some root /\
    within first (last + 1) v v' /\
    (forall k x, first <= k < last -> vec_get v' k = Some x -> comp root x = false).
Proof.
  intros Hfirst Hlast Hheap Hroot. unfold pop_heap.
  destruct (vec_get_in_range v last) as [value Hvalue]; [lia|]. rewrite Hvalue, Hroot. simpl.
  destruct (vec_set_in_range v last root) as [v1 Hv1]; [lia|]. rewrite Hv1. simpl.
  pose proof (vec_set_length _ _ _ _ Hv1) as Hlen1.
  destruct (adjust_heap_spec comp Hswo first (last - first) 0 value v1)
    as (v' & Hv' & Hheap' & Hframe); [lia|lia|lia| |].
  { intros q c x y Hq Hc Hclen. rewrite !(vec_get_set _ _ _ _ _ Hv1).
    case_decide; [unfold heap_child in Hc; lia|]. case_decide; [lia|].
    intros Hx Hy. apply (Hheap q c); (done || lia). }
  rewrite Hv'. exists v'. split; [done|]. split; [done|].
  pose proof (adjust_heap_perm _ _ _ _ _ _ _ Hv') as Hperm.
  rewrite Z.add_0_r in Hperm, Hframe.
  destruct (vec_set_in_range v1 first value) as [v0 Hv0]; [lia|].
  pose proof (vec_set_length _ _ _ _ Hv0) as Hlen0.
  pose proof Hv0 as [_ Heq0]%vec_set_Some. rewrite <- Heq0 in Hperm.
  assert (within first last v0 v') as Hwithin0.
  { split; [done|]. intros k Hk. rewrite (vec_get_set _ _ _ _ _ Hv0).
    case_decide; [lia|]. apply Hframe. lia. }
  assert (vec_get v' last = Some root) as Hlast'.
  { rewrite Hframe by lia. rewrite (vec_get_set _ _ _ _ _ Hv1). by case_decide. }
  split; [done|]. split.
  { split.
    - rewrite Hperm, Heq0. apply vec_set_Some in Hv1 as [_ ->].
      apply vec_get_Some in Hvalue as [_ Hvalue]. apply vec_get_Some in Hroot as [_ Hroot].
      by apply Permutation_insert_swap.
    - intros k Hk. rewrite Hframe by lia. rewrite (vec_get_set _ _ _ _ _ Hv1).
      by case_decide; [lia|]. }
  intros k x Hk Hx.
  destruct (within_from first last v0 v' k x) as (k' & Hk' & Hx'); [lia|lia|done|done|done|].
  rewrite (vec_get_set _ _ _ _ _ Hv0) in Hx'. case_decide as Hk'f.
  - injection Hx' as <-.
    apply (heap_root_max first (last - first + 1) v root) with (k := last - first);
      try done; try lia. by replace (first + (last - first)) with last by lia.
  - rewrite (vec_get_set _ _ _ _ _ Hv1) in Hx'. case_decide; [lia|].
    apply (heap_root_max first (last - first + 1) v root) with (k := k' - first);
      try done; try lia. by replace (first + (k' - first)) with k' by lia.
Qed.

Lemma sort_heap_spec fuel first last bound (v : list A) :
  0 <= first <= last -> last <= bound -> bound <= Z.of_nat (length v) ->
  heap_from comp v first (last - first) 0 ->
  sorted_range comp v last bound ->
  (forall i j a b, first <= i < last -> last <= j < bound ->
     vec_get v i = Some a -> vec_get v j = Some b -> comp b a = false) ->
  (Z.to_nat (last - first) <= fuel)%nat ->
  exists v',
    sort_heap comp fuel first last v = Some v' /\
    sorted_range comp v' first bound /\
    within first last v v'.
Proof.
  revert last v. induction fuel as [|fuel IH];
    intros last v Hfirst Hlast Hbound Hheap Hsorted Hcross Hfuel; simpl.
  all: destruct (Z.gtb_spec (last - first) 1) as [Hgt|Hle]; [try lia|].
  1,3: exists v; split; [done|]; split; [|apply within_refl];
       intros i j a b Hi Hij Hj Ha Hb;
       destruct (decide (last <= i));
         [apply (Hsorted i j); (done || lia)|apply (Hcross i j); (done || lia)].
  destruct (vec_get_in_range v first) as [root Hroot]; [lia|].
  destruct (pop_heap_spec first (last - 1) v root)
    as (v1 & -> & Hheap1 & Hlast1 & Hwithin1 & Hmax1); [lia|lia| |done|].
  { by replace (last - 1 - first + 1) with (last - first) by lia. }
  simpl. replace (last - 1 + 1) with last in Hwithin1 by lia.
  pose proof (within_length _ _ _ _ Hwithin1) as Hlen1.
  destruct Hwithin1 as [Hperm1 Hframe1].
  destruct (IH (last - 1) v1) as (v' & -> & Hsorted' & Hwithin'); [lia|lia|lia|done| | |lia|].
  - intros i j a b Hi Hij Hj. destruct (decide (i = last - 1)) as [->|Hne].
    + rewrite Hlast1, Hframe1 by lia. intros [= <-] Hb.
      apply (Hcross first j); (done || lia).
    + rewrite !Hframe1 by lia. apply Hsorted; lia.
  - intros i j a b Hi Hj Ha. destruct (decide (j = last - 1)) as [->|Hne].
    + rewrite Hlast1. intros [= <-]. by apply (Hmax1 i).
    + rewrite Hframe1 by lia. intros Hb.
      destruct (within_from first last v v1 i a) as (i' & Hi' & Ha');
        [lia|lia|done|lia|done|].
      apply (Hcross i' j); (done || lia).
  - exists v'. split; [done|]. split; [done|].
    apply (within_trans _ _ v v1 v'); [done|]. by apply (within_widen first (last - 1)); [lia|lia|].
Qed.

Lemma partial_sort_spec first last (v : list A) :
  0 <= first <= last -> last <= Z.of_nat (length v) ->
  exists v',
    partial_sort comp first last last v = Some v' /\
    sorted_range comp v' first last /\
    within first last v v'.
Proof.
  intros Hfirst Hlast. unfold partial_sort, heap_select.
  destruct (make_heap_spec first last v) as (v1 & -> & Hheap1 & Hwithin1); [done|done|].
  simpl. rewrite Z.sub_diag. simpl.
  pose proof (within_length _ _ _ _ Hwithin1) as Hlen1.
  destruct (sort_heap_spec (length v) first last last v1) as (v' & -> & Hsorted & Hwithin');
    [done|lia|lia|done|intros i j a b; lia|intros i j a b; lia|lia|].
  exists v'. split; [done|]. split; [done|]. by eapply within_trans.
Qed.

End libstdcxx_heap_sort.

(** ** The whole sort *)

Section libstdcxx_sort.
Context {A : Type} (comp : A -> A -> bool) (Hswo : strict_weak_order comp).

(** A range that is not empty has a least element. *)
Lemma range_min (n : nat) first (v : list A) :
  0 <= first -> first + Z.of_nat (S n) <= Z.of_nat (length v) ->
  exists m a,
    first <= m < first + Z.of_nat (S n) /\ vec_get v m = Some a /\
    forall k x, first <= k < first + Z.of_nat (S n) -> vec_get v k = Some x ->
      comp x a = false.
Proof.
  intros Hfirst. induction n as [|n IH]; intros Hlen.
  { destruct (vec_get_in_range v first) as [a Ha]; [lia|]. exists first, a.
    split; [lia|]. split; [done|]. intros k x Hk. assert (k = first) as -> by lia.
    rewrite Ha. intros [= <-]. apply (swo_irrefl comp Hswo). }
  destruct IH as (m & a & Hm & Ha & Hmin); [lia|].
  destruct (vec_get_in_range v (first + Z.of_nat (S n))) as [y Hy]; [lia|].
  destruct (comp y a) eqn:Hya.
  - exists (first + Z.of_nat (S n)), y. split; [lia|]. split; [done|]. intros k x Hk Hx.
    destruct (decide (k = first + Z.of_nat (S n))) as [->|Hne].
    + assert (x = y) as -> by congruence. apply (swo_irrefl comp Hswo).
    + apply (swo_neg_trans comp Hswo y a x); [apply Hmin with k; (done || lia)|].
      by apply (swo_asym comp Hswo).
  - exists m, a. split; [lia|]. split; [done|]. intros k x Hk Hx.
    destruct (decide (k = first + Z.of_nat (S n))) as [->|Hne].
    + by assert (x = y) as -> by congruence.
    + apply Hmin with k; (done || lia).
Qed.

Lemma front_min_short first last (v : list A) :
  0 <= first < last -> last <= Z.of_nat (length v) -> last - first <= 16 ->
  front_min comp first last v.
Proof.
  intros Hfirst Hlast Hshort.
  destruct (range_min (Z.to_nat (last - first - 1)) first v) as (m & a & Hm & Ha & Hmin);
    [lia|lia|].
  exists m, a. split; [lia|]. split; [lia|]. split; [done|].
  intros k x Hk. apply Hmin. lia.
Qed.

Lemma front_min_sorted first last (v : list A) :
  0 <= first < last -> last <= Z.of_nat (length v) ->
  sorted_range comp v first last -> front_min comp first last v.
Proof.
  intros Hfirst Hlast Hsorted.
  destruct (vec_get_in_range v first) as [a Ha]; [lia|]. exists first, a.
  split; [lia|]. split; [lia|]. split; [done|]. intros k x Hk Hx.
  destruct (decide (k = first)) as [->|Hne].
  - assert (x = a) as -> by congruence. apply (swo_irrefl comp Hswo).
  - apply (Hsorted first k); (done || lia).
Qed.

Lemma introsort_loop_spec fuel first last depth (v : list A) :
  0 <= first < last -> last <= Z.of_nat (length v) ->
  (Z.to_nat (last - first) <= fuel)%nat ->
  exists v',
    introsort_loop comp fuel first last depth v = Some v' /\
    within first last v v' /\ front_min comp first last v'.
Proof.
  revert first last depth v. induction fuel as [|fuel IH];
    intros first last depth v Hfirst Hlast Hfuel; simpl; unfold S_threshold.
  all: destruct (Z.gtb_spec (last - first) 16) as [Hlong|Hshort]; [try lia|].
  1,3: exists v; split; [done|]; split; [apply within_refl|by apply front_min_short].
  destruct (Z.eqb_spec depth 0) as [->|Hdepth].
  { destruct (partial_sort_spec comp Hswo first last v) as (v' & -> & Hsorted & Hwithin);
      [lia|done|].
    exists v'. split; [done|]. split; [done|]. apply front_min_sorted; try done.
    by rewrite (within_length _ _ _ _ Hwithin). }
  destruct (unguarded_partition_pivot_spec comp Hswo first last v)
    as (cut & v1 & p & -> & Hcut & Hwithin1 & _ & Hleft & Hright); [lia|done|lia|].
  simpl. pose proof (within_length _ _ _ _ Hwithin1) as Hlen1.
  destruct (IH cut last (depth - 1) v1) as (v2 & -> & Hwithin2 & _); [lia|lia|lia|].
  simpl. pose proof (within_length _ _ _ _ Hwithin2) as Hlen2.
  destruct (IH first cut (depth - 1) v2) as (v' & -> & Hwithin' & Hfront); [lia|lia|lia|].
  exists v'. split; [done|]. split.
  { apply (within_trans _ _ v v1 v'); [done|].
    apply (within_trans _ _ v1 v2 v');
      [apply (within_widen cut last)|apply (within_widen first cut)]; (done || lia). }
  destruct Hfront as (m & a & Hm & Hmcut & Ha & Hmin).
  exists m, a. split; [done|]. split; [lia|]. split; [done|]. intros k x Hk Hx.
  destruct (decide (k < cut)) as [Hkcut|Hkcut]; [apply (Hmin k); (done || lia)|].
  apply (swo_neg_trans comp Hswo a p x).
  - destruct Hwithin' as [_ Hframe']. rewrite Hframe' in Hx by lia.
    destruct (within_from cut last v1 v2 k x) as (k' & Hk' & Hx'); [lia|lia|done|lia|done|].
    by apply (Hright k').
  - destruct (within_from first cut v2 v' m a) as (m' & Hm' & Ha'); [lia|lia|done|lia|done|].
    destruct Hwithin2 as [_ Hframe2]. rewrite Hframe2 in Ha' by lia.
    by apply (Hleft m').
Qed.

(** [std::sort] returns, with the vector rearranged into order. *)
Lemma gnu_sort_spec (v : list A) :
  exists v', gnu_sort comp v = Some v' /\ sorted_wrt comp v' /\ v' ≡ₚ v.
Proof.
  unfold gnu_sort. destruct (Z.eqb_spec 0 (Z.of_nat (length v))) as [Hempty|Hlen]; simpl.
  { exists v. split; [done|]. split; [|done]. destruct v; [constructor|done]. }
  rewrite Z.sub_0_r.
  destruct (introsort_loop_spec (length v) 0 (Z.of_nat (length v))
              (Z.log2 (Z.of_nat (length v)) * 2) v) as (v1 & -> & Hwithin1 & Hfront);
    [lia|lia|lia|].
  simpl. pose proof (within_length _ _ _ _ Hwithin1) as Hlen1. rewrite <- Hlen1 in *.
  destruct (final_insertion_sort_spec comp Hswo v1) as (v' & -> & Hsorted & Hperm); [done|].
  exists v'. split; [done|]. split; [|by rewrite Hperm; apply Hwithin1].
  apply strongly_sorted_of_lookup. intros i j a b Hij Ha Hb.
  apply (Hsorted (Z.of_nat i) (Z.of_nat j)); try lia; try (by rewrite vec_get_of_nat).
  apply lookup_lt_Some in Hb. rewrite (Permutation_length Hperm) in Hb. lia.
Qed.

End libstdcxx_sort.


(** ** The library's sort meets the contract *)

Lemma libstdcxx_sort_perm {A} (comp : A -> A -> bool) (l : list A) :
  libstdcxx_sort comp l ≡ₚ l.
Proof.
  unfold libstdcxx_sort. destruct (gnu_sort comp l) as [l'|] eqn:Hrun; [|done].
  by apply gnu_sort_perm in Hrun.
Qed.

Lemma libstdcxx_sort_sorted {A} (comp : A -> A -> bool) (l : list A) :
  strict_weak_order comp -> sorted_wrt comp (libstdcxx_sort comp l).
Proof.
  intros Hswo. unfold libstdcxx_sort.
  by destruct (gnu_sort_spec comp Hswo l) as (l' & -> & Hsorted & _).
Qed.

(** The [std::sort] of GNU libstdc++. *)
Definition gnu_std_sort : StdSort :=
  {| std_sort := @libstdcxx_sort;
     std_sort_perm := @libstdcxx_sort_perm;
     std_sort_sorted := @libstdcxx_sort_sorted |}.

(** ** The preprocessing sort of the search *)



